(** * The incremental embedding index of khoj

    A shallow embedding of [src/khoj/processor/text_to_jsonl.py]
    (class [TextEmbeddings]): the chunker [split_entries_by_max_tokens],
    the list-backed diff [mark_entries_for_update] and the index updater
    [update_embeddings], with the facts the specification states about
    them.

    Conventions.
    - Python [str] is [string]; [len] is [String.length].
    - Python [int] arguments are [Z]; list positions are [nat].
    - A Python [set] is a [gset]; iterating it walks [elements], one
      fixed order nothing below depends on.
    - A Python [dict] is a [gmap] when it is only looked up, and an
      association list in insertion order when it is iterated.
    - Exceptions are values of [exn]; a computation that may raise
      returns a [result], and one that also changes the store lives in
      the monad [M], where the store survives a raise.
    - [hashlib.md5(..).hexdigest()], [uuid.uuid4()], the embedding model
      and the date filter are collaborators: the fields of a class.
    - The [logger] argument is the logger the callers pass; logging and
      the [timer] blocks have no effect on the results and are left out. *)

From Stdlib Require Import ZArith Lia Ascii.
From stdpp Require Import gmap strings list sorting.

Local Open Scope string_scope.
Local Open Scope list_scope.

(** ** Python values *)

Inductive exn : Type :=
  | ValueError
  | AssertionError
  | KeyError.

Inductive result (A : Type) : Type :=
  | Ok (a : A)
  | Raise (e : exn).
Arguments Ok {A} a.
Arguments Raise {A} e.

Definition result_bind {A B} (r : result A) (k : A → result B) : result B :=
  match r with
  | Ok a => k a
  | Raise e => Raise e
  end.

Notation "x ←r m ; k" := (result_bind m (λ x, k))
  (at level 20, m at level 100, k at level 200, right associativity,
   format "x  ←r  m ;  '/' k").

Fixpoint result_mapM {A B} (f : A → result B) (l : list A) : result (list B) :=
  match l with
  | [] => Ok []
  | x :: l' => y ←r f x; ys ←r result_mapM f l'; Ok (y :: ys)
  end.

(** [d[k]]: a missing key raises [KeyError]. *)
Definition py_getitem {K V} `{Countable K} (d : gmap K V) (k : K) : result V :=
  match d !! k with
  | Some v => Ok v
  | None => Raise KeyError
  end.

(** [dict(pairs)]: a later pair overrides an earlier one with its key. *)
Definition py_dict {K V} `{Countable K} (pairs : list (K * V)) : gmap K V :=
  foldl (λ d kv, <[kv.1 := kv.2]> d) ∅ pairs.

(** [l.index(x)]: the first position of [x]; [ValueError] when absent. *)
Fixpoint py_index {A} `{EqDecision A} (x : A) (l : list A) : result nat :=
  match l with
  | [] => Raise ValueError
  | y :: l' => if decide (y = x) then Ok 0 else i ←r py_index x l'; Ok (S i)
  end.

(** [s.split(sep)] for a one-character separator: every separator cuts,
    so empty words appear between neighbours and [''.split(' ') = ['']]. *)
Fixpoint py_split (sep : ascii) (s : string) : list string :=
  match s with
  | EmptyString => [EmptyString]
  | String c s' =>
      if decide (c = sep) then EmptyString :: py_split sep s'
      else match py_split sep s' with
           | w :: ws => String c w :: ws
           | [] => [String c EmptyString]
           end
  end.

(** [sep.join(ws)]. *)
Fixpoint py_join (sep : string) (ws : list string) : string :=
  match ws with
  | [] => EmptyString
  | w :: ws' =>
      match ws' with
      | [] => w
      | _ :: _ => w +:+ sep +:+ py_join sep ws'
      end
  end.

(** [s[-n:]] for [n > 0]: the last [n] characters, all of [s] when it is
    shorter. *)
Definition py_last_chars (n : nat) (s : string) : string :=
  String.substring (String.length s - n) n s.

(** [range(0, stop, step)]: [ValueError] for a zero step, empty for a
    negative one. *)
Definition py_range0 (stop : nat) (step : Z) : result (list nat) :=
  if decide (step = 0)%Z then Raise ValueError
  else if decide (step < 0)%Z then Ok []
  else
    let st := Z.to_nat step in
    Ok (map (λ k, k * st) (seq 0 ((stop + st - 1) / st))).

(** [sorted(l, key=..)]: a stable sort, here by insertion. *)
Fixpoint insert_by {A} (key : A → Z) (x : A) (l : list A) : list A :=
  match l with
  | [] => [x]
  | y :: l' =>
      if decide (key x ≤ key y)%Z then x :: y :: l'
      else y :: insert_by key x l'
  end.

Definition py_sorted {A} (key : A → Z) (l : list A) : list A :=
  foldr (insert_by key) [] l.

Definition space : ascii := " "%char.
Definition newline : string := String (ascii_of_nat 10) EmptyString.

(** ** The data model *)

Definition UUID : Type := N.
Definition Hash : Type := string.
Definition KhojUser : Type := option nat.

(** [khoj.utils.rawconfig.Entry], by the fields the class reads. *)
Record Entry : Type := mkEntry {
  raw : string;
  compiled : string;
  heading : string;
  file : string;
  corpus_id : UUID;
}.

(** The [key] argument names the hashed field. *)
Inductive Key : Type :=
  | key_raw
  | key_compiled
  | key_heading
  | key_file.

Definition getattr (entry : Entry) (key : Key) : string :=
  match key with
  | key_raw => raw entry
  | key_compiled => compiled entry
  | key_heading => heading entry
  | key_file => file entry
  end.

(** ** The chunker *)

Section Chunker.

(** The values successive calls of [uuid.uuid4()] return. *)
Context (uuid4 : nat → UUID).

(** The body of the inner loop: the chunk that starts at [chunk_index]. *)
Definition make_chunk (entry : Entry) (corpus_id : UUID) (max_tokens : Z)
    (compiled_entry_words : list string) (chunk_index : nat) : Entry :=
  let compiled_entry_words_chunk :=
    take (Z.to_nat max_tokens) (drop chunk_index compiled_entry_words) in
  let compiled_entry_chunk := py_join " " compiled_entry_words_chunk in
  let compiled_entry_chunk :=
    if decide (0 < chunk_index) then
      let snipped_heading := py_last_chars 100 (heading entry) in
      snipped_heading +:+ "." +:+ newline +:+ compiled_entry_chunk
    else compiled_entry_chunk in
  {| compiled := compiled_entry_chunk;
     raw := raw entry;
     heading := heading entry;
     file := file entry;
     corpus_id := corpus_id |}.

(** The words of an entry that survive: non-empty and not over-long. *)
Definition compiled_entry_words (entry : Entry) (max_word_length : Z) : list string :=
  let compiled_entry_words :=
    filter (λ word, word ≠ "") (py_split space (compiled entry)) in
  filter (λ word, (Z.of_nat (String.length word) ≤ max_word_length)%Z)
         compiled_entry_words.

(** One turn of the outer loop: the chunks of one entry. *)
Definition chunk_entry (entry : Entry) (corpus_id : UUID)
    (max_tokens max_word_length : Z) : result (list Entry) :=
  let words := compiled_entry_words entry max_word_length in
  indices ←r py_range0 (length words) max_tokens;
  Ok (map (make_chunk entry corpus_id max_tokens words) indices).

Fixpoint split_entries_loop (entries : list Entry) (calls : nat)
    (max_tokens max_word_length : Z) (chunked_entries : list Entry)
    : result (list Entry) :=
  match entries with
  | [] => Ok chunked_entries
  | entry :: entries' =>
      chunks ←r chunk_entry entry (uuid4 calls) max_tokens max_word_length;
      split_entries_loop entries' (S calls) max_tokens max_word_length
                         (chunked_entries ++ chunks)
  end.

Definition split_entries_by_max_tokens (entries : list Entry)
    (max_tokens max_word_length : Z) : result (list Entry) :=
  split_entries_loop entries 0 max_tokens max_word_length [].

End Chunker.

(** ** The collaborators *)

(** What the class takes from outside: the digest behind [hash_func], the
    embedding model ([EmbeddingsModel.embed_documents]) and the date
    filter ([DateFilter.extract_dates]); vectors and dates stay abstract. *)
Class Collaborators : Type := {
  Vector : Type;
  Date : Type;
  md5_hexdigest : string → Hash;
  embed_documents : list string → list Vector;
  extract_dates : string → list Date;
}.

(** ** The diff engine *)

Section DiffEngine.

Context `{Collaborators}.

Definition hash_func (key : Key) (entry : Entry) : Hash :=
  md5_hexdigest (getattr entry key).

(** [dict(zip(entry_hashes, entries))]: the lookup from a hash to the
    last entry that has it. *)
Definition hash_to_entries (key : Key) (entries : list Entry) : gmap Hash Entry :=
  py_dict (zip (map (hash_func key) entries) entries).

(** [(hashes.index(h), hash_to_entries[h])], as both comprehensions of
    [mark_entries_for_update] build it. *)
Definition index_and_entry (hashes : list Hash) (hash_to_entries : gmap Hash Entry)
    (entry_hash : Hash) : result (Z * Entry) :=
  i ←r py_index entry_hash hashes;
  entry ←r py_getitem hash_to_entries entry_hash;
  Ok (Z.of_nat i, entry).

Definition deletion_entry_hashes (previous_entries : list Entry) (key : Key)
    (deletion_filenames : option (gset string)) : list Hash :=
  match deletion_filenames with
  | Some filenames =>
      let deletion_entries :=
        filter (λ entry, file entry ∈ filenames) previous_entries in
      map (hash_func key) deletion_entries
  | None => []
  end.

Definition new_entry_hashes (current_entries previous_entries : list Entry)
    (key : Key) : gset Hash :=
  list_to_set (map (hash_func key) current_entries)
    ∖ list_to_set (map (hash_func key) previous_entries).

Definition existing_entry_hashes (current_entries previous_entries : list Entry)
    (key : Key) : gset Hash :=
  list_to_set (map (hash_func key) current_entries)
    ∩ list_to_set (map (hash_func key) previous_entries).

Definition remaining_entry_hashes (current_entries previous_entries : list Entry)
    (key : Key) : gset Hash :=
  list_to_set (map (hash_func key) previous_entries)
    ∖ list_to_set (map (hash_func key) current_entries).

Definition to_delete_entry_hashes (previous_entries : list Entry) (key : Key)
    (deletion_filenames : option (gset string)) : gset Hash :=
  list_to_set (map (hash_func key) previous_entries)
    ∩ list_to_set (deletion_entry_hashes previous_entries key deletion_filenames).

Definition preserving_entry_hashes (current_entries previous_entries : list Entry)
    (key : Key) (deletion_filenames : option (gset string)) : gset Hash :=
  let preserving_entry_hashes :=
    existing_entry_hashes current_entries previous_entries key in
  match deletion_filenames with
  | Some _ =>
      if decide (length (deletion_entry_hashes previous_entries key
                           deletion_filenames) = 0)
      then existing_entry_hashes current_entries previous_entries key
             ∪ remaining_entry_hashes current_entries previous_entries key
      else list_to_set (map (hash_func key) previous_entries)
             ∖ to_delete_entry_hashes previous_entries key deletion_filenames
  | None => preserving_entry_hashes
  end.

Definition mark_entries_for_update (current_entries previous_entries : list Entry)
    (key : Key) (deletion_filenames : option (gset string))
    : result (list (Z * Entry)) :=
  let current_entry_hashes := map (hash_func key) current_entries in
  let previous_entry_hashes := map (hash_func key) previous_entries in
  let hash_to_current_entries := hash_to_entries key current_entries in
  let hash_to_previous_entries := hash_to_entries key previous_entries in
  new_entries ←r
    result_mapM (index_and_entry current_entry_hashes hash_to_current_entries)
      (elements (new_entry_hashes current_entries previous_entries key));
  let new_entries_sorted := py_sorted fst new_entries in
  let new_entries_sorted := map (λ entry, ((-1)%Z, entry.2)) new_entries_sorted in
  existing_entries ←r
    result_mapM (index_and_entry previous_entry_hashes hash_to_previous_entries)
      (elements (preserving_entry_hashes current_entries previous_entries key
                   deletion_filenames));
  let existing_entries_sorted := py_sorted fst existing_entries in
  let entries_with_ids := existing_entries_sorted ++ new_entries_sorted in
  Ok entries_with_ids.

(** The entries of an output that carry a previous position, not the
    sentinel [-1]. *)
Definition preserved_part (entries_with_ids : list (Z * Entry)) : list (Z * Entry) :=
  filter (λ p, p.1 ≠ (-1)%Z) entries_with_ids.

End DiffEngine.

(** ** The embedding store *)

(** The Django model [database.models.Embeddings], by the fields
    [update_embeddings] writes; [pk] is [None] until the row is saved. *)
Module Embeddings.
Record t `{Collaborators} : Type := mk {
  pk : option nat;
  user : KhojUser;
  embeddings : Vector;
  raw : string;
  compiled : string;
  heading : string;
  file_path : string;
  file_type : string;
  hashed_value : Hash;
  corpus_id : UUID;
}.
End Embeddings.

(** The model [database.models.EmbeddingsDates]: a date and the row it
    was read from. *)
Module EmbeddingsDates.
Record t `{Collaborators} : Type := mk {
  date : Date;
  embeddings : Embeddings.t;
}.
End EmbeddingsDates.

Section Store.

Context `{Collaborators}.

Record Store : Type := mkStore {
  embeddings_table : list Embeddings.t;
  dates_table : list EmbeddingsDates.t;
  next_pk : nat;
}.

(** What a run asks of its collaborators, in order. *)
Inductive Call : Type :=
  | EmbedDocuments (texts : list string)
  | BulkCreate (rows : list Embeddings.t).

Record Run : Type := mkRun {
  db : Store;
  calls : list Call;
}.

(** State and exceptions: a raise keeps the state reached so far. *)
Definition M (A : Type) : Type := Run → result A * Run.

Definition ret {A} (a : A) : M A := λ st, (Ok a, st).

Definition raise {A} (e : exn) : M A := λ st, (Raise e, st).

Definition bind {A B} (m : M A) (k : A → M B) : M B :=
  λ st, match m st with
        | (Ok a, st') => k a st'
        | (Raise e, st') => (Raise e, st')
        end.

Definition lift {A} (r : result A) : M A := λ st, (r, st).

Definition log_call (c : Call) : M unit :=
  λ st, (Ok tt, {| db := db st; calls := calls st ++ [c] |}).

Definition read_db {A} (q : Store → A) : M A := λ st, (Ok (q (db st)), st).

Definition write_db {A} (w : Store → A * Store) : M A :=
  λ st, let '(a, s) := w (db st) in (Ok a, {| db := s; calls := calls st |}).

End Store.

Notation "x ←m m ; k" := (bind m (λ x, k))
  (at level 20, m at level 100, k at level 200, right associativity,
   format "x  ←m  m ;  '/' k").
Notation "m >>m k" := (bind m (λ _, k))
  (at level 100, k at level 200, right associativity).

(** ** The index updater *)

(** [s[:n]]: the first [n] characters. *)
Definition py_first_chars (n : nat) (s : string) : string :=
  String.substring 0 n s.

(** The local [grouper]: [max_n] copies of one iterator zipped with
    [zip_longest], the fill values filtered out again. It cuts the input
    into runs of [max_n], the last one shorter; with [max_n = 0] there is
    nothing to zip and it yields nothing. *)
Fixpoint grouper_go {A} (max_n : nat) (chunk : list A) (iterable : list A)
    : list (list A) :=
  match iterable with
  | [] => match chunk with [] => [] | _ :: _ => [chunk] end
  | x :: rest =>
      let chunk := chunk ++ [x] in
      if decide (length chunk = max_n) then chunk :: grouper_go max_n [] rest
      else grouper_go max_n chunk rest
  end.

Definition grouper {A} (iterable : list A) (max_n : nat) : list (list A) :=
  if decide (max_n = 0) then [] else grouper_go max_n [] iterable.

Section IndexUpdater.

Context `{Collaborators}.

(** A loop that carries a counter through the monad. *)
Fixpoint foldM {A B} (body : B → A → M B) (acc : B) (l : list A) : M B :=
  match l with
  | [] => ret acc
  | x :: l' => acc' ←m body acc x; foldM body acc' l'
  end.

(** *** The ORM calls of the source *)

(** [Embeddings.objects.filter(..)] on the rows that satisfy [P]. *)
Definition objects_filter (P : Embeddings.t → Prop) `{∀ r, Decision (P r)}
    (s : Store) : list Embeddings.t :=
  filter P (embeddings_table s).

Definition with_pk (n : nat) (r : Embeddings.t) : Embeddings.t :=
  {| Embeddings.pk := Some n;
     Embeddings.user := Embeddings.user r;
     Embeddings.embeddings := Embeddings.embeddings r;
     Embeddings.raw := Embeddings.raw r;
     Embeddings.compiled := Embeddings.compiled r;
     Embeddings.heading := Embeddings.heading r;
     Embeddings.file_path := Embeddings.file_path r;
     Embeddings.file_type := Embeddings.file_type r;
     Embeddings.hashed_value := Embeddings.hashed_value r;
     Embeddings.corpus_id := Embeddings.corpus_id r |}.

(** [Embeddings.objects.bulk_create(rows)]: the rows are saved in order
    under fresh primary keys and returned. *)
Definition embeddings_bulk_create (rows : list Embeddings.t) (s : Store)
    : list Embeddings.t * Store :=
  let saved := imap (λ i r, with_pk (next_pk s + i) r) rows in
  (saved,
   {| embeddings_table := embeddings_table s ++ saved;
      dates_table := dates_table s;
      next_pk := next_pk s + length rows |}).

(** [EmbeddingsDates.objects.bulk_create(rows)]. *)
Definition dates_bulk_create (rows : list EmbeddingsDates.t) (s : Store)
    : list EmbeddingsDates.t * Store :=
  (rows,
   {| embeddings_table := embeddings_table s;
      dates_table := dates_table s ++ rows;
      next_pk := next_pk s |}).

(** *** The adapters *)

(** Modelled from the spec: [database.adapters] is not among the sources,
    so deleting a set of rows follows section 3: the rows go, and each
    date row goes with the embedding row it belongs to; the count is the
    number of embedding rows removed. *)
Definition objects_delete (P : Embeddings.t → Prop) `{∀ r, Decision (P r)}
    (s : Store) : nat * Store :=
  (length (filter P (embeddings_table s)),
   {| embeddings_table := filter (λ r, ¬ P r) (embeddings_table s);
      dates_table :=
        filter (λ d, ¬ P (EmbeddingsDates.embeddings d)) (dates_table s);
      next_pk := next_pk s |}).

(** Modelled from the spec: [EmbeddingsAdapters.delete_all_embeddings],
    missing from the sources; section 4.4 step 1: all records of the owner
    and content type are deleted. *)
Definition delete_all_embeddings (user : KhojUser) (file_type : string)
    (s : Store) : nat * Store :=
  objects_delete
    (λ r, Embeddings.user r = user ∧ Embeddings.file_type r = file_type) s.

(** Modelled from the spec: [EmbeddingsAdapters.get_existing_entry_hashes_by_file],
    missing from the sources; section 4.3 step 4: the hashes of the
    owner's records stored under the file. *)
Definition get_existing_entry_hashes_by_file (user : KhojUser) (file : string)
    (s : Store) : list Hash :=
  map Embeddings.hashed_value
    (filter (λ r, Embeddings.user r = user ∧ Embeddings.file_path r = file)
            (embeddings_table s)).

(** Modelled from the spec: [EmbeddingsAdapters.delete_embedding_by_hash],
    missing from the sources; section 4.3 step 4: every record of the
    owner with one of the hashes is deleted. The call passes the owner and
    the hashes only, so no file can narrow it. *)
Definition delete_embedding_by_hash (user : KhojUser) (hashed_values : list Hash)
    (s : Store) : nat * Store :=
  objects_delete
    (λ r, Embeddings.user r = user ∧ Embeddings.hashed_value r ∈ hashed_values) s.

(** Modelled from the spec: [EmbeddingsAdapters.delete_embedding_by_file],
    missing from the sources; section 4.3 step 5: all records of the owner
    under the file path are deleted, and counted. *)
Definition delete_embedding_by_file (user : KhojUser) (file_path : string)
    (s : Store) : nat * Store :=
  objects_delete
    (λ r, Embeddings.user r = user ∧ Embeddings.file_path r = file_path) s.

(** *** [update_embeddings] *)

(** [hashes_by_file.setdefault(file, set()).add(h)] on a dict kept in
    insertion order. *)
Fixpoint setdefault_add (file : string) (h : Hash)
    (hashes_by_file : list (string * gset Hash)) : list (string * gset Hash) :=
  match hashes_by_file with
  | [] => [(file, {[h]})]
  | (f, hs) :: rest =>
      if decide (f = file) then (f, hs ∪ {[h]}) :: rest
      else (f, hs) :: setdefault_add file h rest
  end.

Definition build_hashes_by_file (current_entries : list Entry) (key : Key)
    : list (string * gset Hash) :=
  foldl (λ hashes_by_file entry,
           setdefault_add (file entry) (hash_func key entry) hashes_by_file)
        [] current_entries.

(** The unsaved row for one hash and its vector. *)
Definition new_embedding (user : KhojUser) (file_type : string)
    (hash_to_current_entries : gmap Hash Entry) (hv : Hash * Vector)
    : result Embeddings.t :=
  entry ←r py_getitem hash_to_current_entries hv.1;
  Ok {| Embeddings.pk := None;
        Embeddings.user := user;
        Embeddings.embeddings := hv.2;
        Embeddings.raw := raw entry;
        Embeddings.compiled := compiled entry;
        Embeddings.heading := py_first_chars 1000 (heading entry);
        Embeddings.file_path := file entry;
        Embeddings.file_type := file_type;
        Embeddings.hashed_value := hv.1;
        Embeddings.corpus_id := corpus_id entry |}.

(** The date rows of freshly saved embedding rows. *)
Definition dates_of (new_embeddings : list Embeddings.t) : list EmbeddingsDates.t :=
  flat_map
    (λ embedding,
       map (λ date, {| EmbeddingsDates.date := date;
                       EmbeddingsDates.embeddings := embedding |})
           (extract_dates (Embeddings.raw embedding)))
    new_embeddings.

(** The body of the loop over batches. *)
Definition create_batch (user : KhojUser) (file_type : string)
    (hash_to_current_entries : gmap Hash Entry)
    (num_new_embeddings : nat) (batch_zipped_vals : list (Hash * Vector)) : M nat :=
  batch_embeddings_to_create ←m
    lift (result_mapM (new_embedding user file_type hash_to_current_entries)
                      batch_zipped_vals);
  log_call (BulkCreate batch_embeddings_to_create) >>m
  new_embeddings ←m write_db (embeddings_bulk_create batch_embeddings_to_create);
  let num_new_embeddings := num_new_embeddings + length new_embeddings in
  let dates_to_create := dates_of new_embeddings in
  new_dates ←m write_db (dates_bulk_create dates_to_create);
  ret num_new_embeddings.

(** [hashes_for_file - existing_entry_hashes] against the store. *)
Definition hashes_to_process (user : KhojUser) (file_type : string)
    (hashes_for_file : gset Hash) (s : Store) : gset Hash :=
  let existing_entries :=
    objects_filter
      (λ r, Embeddings.user r = user
            ∧ Embeddings.hashed_value r ∈ hashes_for_file
            ∧ Embeddings.file_type r = file_type) s in
  let existing_entry_hashes : gset Hash :=
    list_to_set (map Embeddings.hashed_value existing_entries) in
  hashes_for_file ∖ existing_entry_hashes.

(** The body of the loop "Identify hashes for adding new entries". *)
Definition process_file (user : KhojUser) (file_type : string) (key : Key)
    (hash_to_current_entries : gmap Hash Entry)
    (num_new_embeddings : nat) (item : string * gset Hash) : M nat :=
  let hashes_for_file := item.2 in
  hashes_to_process ←m read_db (hashes_to_process user file_type hashes_for_file);
  entries_to_process ←m
    lift (result_mapM (py_getitem hash_to_current_entries)
                      (elements hashes_to_process));
  let data_to_embed := map (λ entry, getattr entry key) entries_to_process in
  log_call (EmbedDocuments data_to_embed) >>m
  let embeddings := embed_documents data_to_embed in
  let num_items := size hashes_to_process in
  if decide (num_items = length embeddings) then
    let zipped_vals := zip (elements hashes_to_process) embeddings in
    foldM (create_batch user file_type hash_to_current_entries)
          num_new_embeddings
          (grouper zipped_vals (200 `min` num_items))
  else raise AssertionError.

(** The body of the loop "Identify hashes for removed entries". *)
Definition delete_stale (user : KhojUser)
    (num_deleted_embeddings : nat) (item : string * gset Hash) : M nat :=
  existing_entry_hashes ←m read_db (get_existing_entry_hashes_by_file user item.1);
  let to_delete_entry_hashes : gset Hash :=
    list_to_set existing_entry_hashes ∖ item.2 in
  let num_deleted_embeddings :=
    num_deleted_embeddings + size to_delete_entry_hashes in
  write_db (delete_embedding_by_hash user (elements to_delete_entry_hashes)) >>m
  ret num_deleted_embeddings.

(** The body of the loop "Identify hashes for deleting entries". *)
Definition delete_file (user : KhojUser)
    (num_deleted_embeddings : nat) (file_path : string) : M nat :=
  deleted_count ←m write_db (delete_embedding_by_file user file_path);
  ret (num_deleted_embeddings + deleted_count).

Definition update_embeddings (current_entries : list Entry) (file_type : string)
    (key : Key) (deletion_filenames : option (gset string)) (user : KhojUser)
    (regenerate : bool) : M (nat * nat) :=
  let hashes_by_file := build_hashes_by_file current_entries key in
  let hash_to_current_entries := hash_to_entries key current_entries in
  num_deleted_embeddings ←m
    (if regenerate then write_db (delete_all_embeddings user file_type)
     else ret 0);
  num_new_embeddings ←m
    foldM (process_file user file_type key hash_to_current_entries)
          0 hashes_by_file;
  num_deleted_embeddings ←m
    foldM (delete_stale user) num_deleted_embeddings hashes_by_file;
  num_deleted_embeddings ←m
    match deletion_filenames with
    | Some filenames =>
        foldM (delete_file user) num_deleted_embeddings (elements filenames)
    | None => ret num_deleted_embeddings
    end;
  ret (num_new_embeddings, num_deleted_embeddings).

(** One call of [update_embeddings] on a store: what it returns or
    raises, and the store and the collaborator calls it leaves. *)
Definition run_update (current_entries : list Entry) (file_type : string)
    (key : Key) (deletion_filenames : option (gset string)) (user : KhojUser)
    (regenerate : bool) (s : Store) : result (nat * nat) * Run :=
  update_embeddings current_entries file_type key deletion_filenames user
    regenerate {| db := s; calls := [] |}.

End IndexUpdater.

(** ** The configuration migration

    [src/khoj/migrations/migrate_processor_config_openai.py]. The
    document [load_config_from_file] returns is the argument; what the
    call hands to [save_config_to_file] is collected in order. Mappings
    have string keys, as those of khoj.yml, and the document has no YAML
    alias, so that every mapping is an object of its own. *)
Module ConfigMigration.

Inductive error : Type :=
  | TypeError
  | AttributeError
  | KeyError.

(** What [yaml.safe_load] yields. A float, a timestamp or a binary
    behaves as an integer does in this function (no membership test, no
    subscript, no [get]), and a set as a sequence; they have no
    constructor of their own. *)
#[warnings="-register-all"]
Inductive yaml : Type :=
  | YNull
  | YBool (b : bool)
  | YInt (n : Z)
  | YStr (s : string)
  | YSeq (items : list yaml)
  | YMap (fields : gmap string yaml).

(** [pat in s] on strings. *)
Fixpoint substring_of (pat s : string) : bool :=
  if String.prefix pat s then true
  else match s with
       | EmptyString => false
       | String _ s' => substring_of pat s'
       end.

(** [key in v] for a string [key]. *)
Definition contains (key : string) (v : yaml) : error + bool :=
  match v with
  | YMap fields => inr (bool_decide (is_Some (fields !! key)))
  | YSeq items =>
      inr (existsb (λ item, match item with
                            | YStr s => bool_decide (s = key)
                            | _ => false
                            end) items)
  | YStr s => inr (substring_of key s)
  | YNull | YBool _ | YInt _ => inl TypeError
  end.

(** [v[key]] for a string [key]. *)
Definition getitem (key : string) (v : yaml) : error + yaml :=
  match v with
  | YMap fields =>
      match fields !! key with
      | Some x => inr x
      | None => inl KeyError
      end
  | _ => inl TypeError
  end.

(** [v[key] = x] for a string [key]. *)
Definition setitem (key : string) (x : yaml) (v : yaml) : error + yaml :=
  match v with
  | YMap fields => inr (YMap (<[key := x]> fields))
  | _ => inl TypeError
  end.

(** [v.get(key, None)]. *)
Definition get (key : string) (v : yaml) : error + yaml :=
  match v with
  | YMap fields => inr (default YNull (fields !! key))
  | _ => inl AttributeError
  end.

(** [x is None]. *)
Definition is_none (x : yaml) : bool :=
  match x with
  | YNull => true
  | _ => false
  end.

(** The object [raw_config] and the documents saved so far. *)
Record state : Type := mkState {
  raw_config : yaml;
  saved : list yaml;
}.

Definition M (A : Type) : Type := state → (error + A) * state.

Definition ret {A} (a : A) : M A := λ st, (inr a, st).

Definition bind {A B} (m : M A) (k : A → M B) : M B :=
  λ st, match m st with
        | (inr a, st') => k a st'
        | (inl e, st') => (inl e, st')
        end.

(** An expression over [raw_config]. *)
Definition eval {A} (f : yaml → error + A) : M A :=
  λ st, (f (raw_config st), st).

Definition lift {A} (r : error + A) : M A := λ st, (r, st).

(** [raw_config["processor"]["conversation"]]. *)
Definition conversation_of (raw : yaml) : error + yaml :=
  match getitem "processor" raw with
  | inr processor => getitem "conversation" processor
  | inl e => inl e
  end.

(** [raw_config["processor"]["conversation"][key] = x]: the mapping is
    changed in place, and [raw_config] sees it. *)
Definition set_in_conversation (key : string) (x : yaml) (raw : yaml)
    : error + yaml :=
  match getitem "processor" raw with
  | inr processor =>
      match getitem "conversation" processor with
      | inr conversation =>
          match setitem key x conversation with
          | inr conversation' =>
              match setitem "conversation" conversation' processor with
              | inr processor' => setitem "processor" processor' raw
              | inl e => inl e
              end
          | inl e => inl e
          end
      | inl e => inl e
      end
  | inl e => inl e
  end.

(** [raw_config["processor"]["conversation"] = x]. *)
Definition set_conversation (x : yaml) (raw : yaml) : error + yaml :=
  match getitem "processor" raw with
  | inr processor =>
      match setitem "conversation" x processor with
      | inr processor' => setitem "processor" processor' raw
      | inl e => inl e
      end
  | inl e => inl e
  end.

(** A statement that assigns into [raw_config]. *)
Definition assign (f : yaml → error + yaml) : M unit :=
  λ st, match f (raw_config st) with
        | inr raw' => (inr tt, {| raw_config := raw'; saved := saved st |})
        | inl e => (inl e, st)
        end.

(** [save_config_to_file(raw_config, args.config_file)]. *)
Definition save_config_to_file : M unit :=
  λ st, (inr tt, {| raw_config := raw_config st;
                    saved := saved st ++ [raw_config st] |}).

(** "Add enable_local_llm to khoj config schema". *)
Definition add_enable_local_llm : M unit :=
  bind (eval (λ raw, match conversation_of raw with
                     | inr conversation =>
                         contains "enable-local-llm" conversation
                     | inl e => inl e
                     end)) (λ has_flag,
  if negb has_flag then
    bind (assign (set_in_conversation "enable-local-llm" (YBool false)))
         (λ _, save_config_to_file)
  else ret tt).

(** The rest of the function: the model settings move under
    [openai-ai-model]. *)
Definition move_openai_settings : M unit :=
  bind (eval (λ raw, match conversation_of raw with
                     | inr conversation => get "openai-api-key" conversation
                     | inl e => inl e
                     end)) (λ current_open_ai_api_key,
  bind (eval (λ raw, match conversation_of raw with
                     | inr conversation => get "chat-model" conversation
                     | inl e => inl e
                     end)) (λ current_chat_model,
  if is_none current_open_ai_api_key && is_none current_chat_model
  then ret tt else
  bind (eval (λ raw, match conversation_of raw with
                     | inr conversation =>
                         get "conversation-logfile" conversation
                     | inl e => inl e
                     end)) (λ conversation_logfile,
  bind (assign
          (set_conversation
             (YMap (<["openai-ai-model" :=
                        YMap (<["chat-model" := current_chat_model]>
                                (<["openai-api-key" :=
                                     current_open_ai_api_key]> ∅))]>
                      (<["conversation-logfile" := conversation_logfile]>
                         ∅)))))
       (λ _, save_config_to_file)))).

Definition migrate_body : M unit :=
  bind (eval (contains "processor")) (λ has_processor,
  if negb has_processor then ret tt else
  bind (eval (λ raw, match getitem "processor" raw with
                     | inr processor => contains "conversation" processor
                     | inl e => inl e
                     end)) (λ has_conversation,
  if negb has_conversation then ret tt else
  bind add_enable_local_llm (λ _, move_openai_settings))).

(** One call on the document the file holds: how it ends ([inr tt] when it
    returns [args]) and the documents it saved, in order. *)
Definition migrate_processor_conversation_schema (loaded : yaml)
    : (error + unit) * list yaml :=
  let '(outcome, st) := migrate_body {| raw_config := loaded; saved := [] |} in
  (outcome, saved st).

(** The document the file holds after a call, if every save replaces it. *)
Definition file_after (loaded : yaml) : yaml :=
  default loaded (last (migrate_processor_conversation_schema loaded).2).

(** A document whose [processor] is the mapping [processor] with
    [conversation] under the key of that name. *)
Definition with_conversation (conversation : yaml)
    (raw processor : gmap string yaml) : yaml :=
  YMap (<["processor" := YMap (<["conversation" := conversation]> processor)]>
          raw).

(** [conversation.get(key, None)] on a mapping. *)
Definition get_or_null (key : string) (conversation : gmap string yaml) : yaml :=
  default YNull (conversation !! key).

(** The document of the module docstring, "Current format of khoj.yml",
    by its parts. *)
Definition old_conversation : gmap string yaml :=
  <["chat-model" := YStr "gpt-3.5-turbo"]>
    (<["conversation-logfile" :=
         YStr "~/.khoj/processor/conversation/conversation_logs.json"]>
       (<["model" := YStr "text-davinci-003"]>
          (<["openai-api-key" := YStr "sk-secret-key"]> ∅))).

Definition old_processor : gmap string yaml :=
  <["conversation" := YMap old_conversation]> ∅.

Definition old_raw_config : gmap string yaml :=
  <["app" := YMap (<["should-log-telemetry" := YBool true]> ∅)]>
    (<["processor" := YMap old_processor]> ∅).

End ConfigMigration.

(** ** The configuration pages

    [src/khoj/routers/web_client.py]: the content types that have a page
    of their own, and the model each one is stored in. *)
Module WebClient.

(** The models of [database.models] the pages use. *)
Inductive LocalConfigModel : Type :=
  | LocalOrgConfig
  | LocalMarkdownConfig
  | LocalPdfConfig
  | LocalPlaintextConfig.

Definition VALID_TEXT_CONTENT_TYPES : list string :=
  ["org"; "markdown"; "pdf"; "plaintext"].

(** A function that falls off its end returns [None]. *)
Definition map_config_to_object (content_type : string)
    : option LocalConfigModel :=
  if decide (content_type = "org") then Some LocalOrgConfig
  else if decide (content_type = "markdown") then Some LocalMarkdownConfig
  else if decide (content_type = "pdf") then Some LocalPdfConfig
  else if decide (content_type = "plaintext") then Some LocalPlaintextConfig
  else None.

End WebClient.

(** ** Sample collaborators, for the worked examples *)

Definition sample_uuid4 (n : nat) : UUID := N.of_nat n.

(** A stand-in digest that tells every two texts apart, a one-number
    vector per text, and no dates. *)
Definition sample_collaborators : Collaborators :=
  {| Vector := nat;
     Date := nat;
     md5_hexdigest := λ s, s;
     embed_documents := map String.length;
     extract_dates := λ _, [] |}.

Definition empty_store `{Collaborators} : Store :=
  {| embeddings_table := []; dates_table := []; next_pk := 0 |}.

(** An entry whose fields are its text, in a file. *)
Definition sample_entry (text file : string) : Entry :=
  mkEntry text text "" file 0%N.

(** A model that answers every call with no vector at all. *)
Definition broken_collaborators : Collaborators :=
  {| Vector := nat;
     Date := nat;
     md5_hexdigest := λ s, s;
     embed_documents := λ _, [];
     extract_dates := λ _, [] |}.


(** The store after indexing text x in a.org as org. *)
Definition store_x_in_a : Store (H := sample_collaborators) :=
  db (run_update (H := sample_collaborators)
        [sample_entry "x" "a.org"] "org" key_compiled None None false
        empty_store).2.


(** Or the same text x is indexed in b.md as markdown. *)
Definition store_x_twice : Store (H := sample_collaborators) :=
  db (run_update (H := sample_collaborators)
        [sample_entry "x" "b.md"] "markdown" key_compiled None None false
        store_x_in_a).2.

(** A date filter that reads one date from every text, its length. *)
Definition dated_collaborators : Collaborators :=
  {| Vector := nat;
     Date := nat;
     md5_hexdigest := λ s, s;
     embed_documents := map String.length;
     extract_dates := λ s, [String.length s] |}.

(** The store after indexing text x in a.org as org, with its date. *)
Definition store_x_dated : Store (H := dated_collaborators) :=
  db (run_update (H := dated_collaborators)
        [sample_entry "x" "a.org"] "org" key_compiled None None false
        empty_store).2.

Local Close Scope string_scope.

(** ** Notions the statements use *)

Fixpoint has_char (c : ascii) (s : string) : Prop :=
  match s with
  | EmptyString => False
  | String c' s' => c' = c ∨ has_char c s'
  end.

(** Whitespace as [str.split()] and [str.isspace] have it, among the
    characters of this model: tab to carriage return, the four
    separators, and the space. *)
Definition is_whitespace (c : ascii) : bool :=
  let n := nat_of_ascii c in
  (9 <=? n) && (n <=? 13) || (28 <=? n) && (n <=? 31) || (n =? 32).

(** The words of a text as the claim about non-empty chunks has them,
    "splitting on whitespace": the maximal runs of characters that are no
    whitespace. The code does not do this; it splits on the space
    character ([py_split space]). *)
Fixpoint words_by_whitespace_go (word s : string) : list string :=
  match s with
  | EmptyString => match word with EmptyString => [] | _ => [word] end
  | String c s' =>
      if is_whitespace c then
        match word with EmptyString => [] | _ => [word] end
        ++ words_by_whitespace_go EmptyString s'
      else words_by_whitespace_go (word +:+ String c EmptyString) s'
  end.

Definition words_by_whitespace (s : string) : list string :=
  words_by_whitespace_go EmptyString s.

Definition within_bounds (max_tokens max_word_length : Z) (text : string) : Prop :=
  (Z.of_nat (length (py_split space text)) ≤ max_tokens)%Z
  ∧ Forall (λ word, (Z.of_nat (String.length word) ≤ max_word_length)%Z)
           (py_split space text).

(** What one entry gives: nothing for a negative bound or an empty word
    list, else a first chunk within the bounds and later chunks that are
    the heading snippet, a period, a newline and a body within them. *)
Definition chunks_shape (entry : Entry) (cid : UUID)
    (max_tokens max_word_length : Z) (chunks : list Entry) : Prop :=
  Forall (λ c, raw c = raw entry ∧ heading c = heading entry
               ∧ file c = file entry ∧ corpus_id c = cid
               ∧ compiled c ≠ EmptyString) chunks
  ∧ (compiled_entry_words entry max_word_length = [] → chunks = [])
  ∧ match chunks with
    | [] => True
    | first :: others =>
        within_bounds max_tokens max_word_length (compiled first)
        ∧ Forall (λ c, ∃ body,
                    compiled c
                    = py_last_chars 100 (heading entry) +:+ "." +:+ newline +:+ body
                    ∧ within_bounds max_tokens max_word_length body) others
    end.

(** The chunks come out entry by entry, in input order, the entry at
    position [i] under the [i]-th identifier drawn. *)
Definition grouped_by_entry (uuid4 : nat → UUID) (entries : list Entry)
    (first_call : nat)
    (max_tokens max_word_length : Z) (groups : list (list Entry)) : Prop :=
  length groups = length entries
  ∧ ∀ i entry chunks,
      entries !! i = Some entry → groups !! i = Some chunks →
      chunk_entry entry (uuid4 (first_call + i)) max_tokens max_word_length
      = Ok chunks.


Section Notions.

Context `{Collaborators}.

(** A list of (position, entry) pairs that holds one entry for each hash
    of [hashes], under the first position of that hash among [entries],
    in strictly ascending order of position. *)
Definition ordered_by_position (key : Key) (entries : list Entry)
    (hashes : gset Hash) (indexed : list (Z * Entry)) : Prop :=
  map (λ p, hash_func key p.2) indexed ≡ₚ elements hashes
  ∧ Forall (λ p, p.2 ∈ entries
                 ∧ ∃ i, p.1 = Z.of_nat i
                        ∧ py_index (hash_func key p.2)
                                   (map (hash_func key) entries) = Ok i)
           indexed
  ∧ StronglySorted (λ p q, (p.1 < q.1)%Z) indexed.

(** The row [update_embeddings] builds for a hash from an entry. *)
Definition row_of (user : KhojUser) (file_type : string) (entry : Entry)
    (h : Hash) (r : Embeddings.t) : Prop :=
  Embeddings.user r = user
  ∧ Embeddings.raw r = raw entry
  ∧ Embeddings.compiled r = compiled entry
  ∧ Embeddings.heading r = py_first_chars 1000 (heading entry)
  ∧ Embeddings.file_path r = file entry
  ∧ Embeddings.file_type r = file_type
  ∧ Embeddings.hashed_value r = h
  ∧ Embeddings.corpus_id r = corpus_id entry.

(** The row was built for the hash from the entry the dictionary holds
    for it. *)
Definition made_from (user : KhojUser) (file_type : string)
    (hash_to_current_entries : gmap Hash Entry) (h : Hash) (r : Embeddings.t)
    : Prop :=
  ∃ entry, hash_to_current_entries !! h = Some entry
           ∧ row_of user file_type entry h r.

(** The texts sent to the embedding model for a list of hashes. *)
Definition data_to_embed (hash_to_current_entries : gmap Hash Entry)
    (key : Key) (hashes : list Hash) : list string :=
  map (λ entry, getattr entry key) (omap (hash_to_current_entries !!.) hashes).

(** The rows handed to [bulk_create] in a list of calls. *)
Definition created_rows (cs : list Call) : list Embeddings.t :=
  flat_map (λ c, match c with
                 | BulkCreate rows => rows
                 | EmbedDocuments _ => []
                 end) cs.

(** What [hashes_by_file] holds for a list of entries: a key for every
    file of an entry, and under each key the hashes of the entries of that
    file. *)
Definition hashes_by_file_ok (key : Key) (entries : list Entry)
    (hashes_by_file : list (string * gset Hash)) : Prop :=
  (∀ entry, entry ∈ entries → file entry ∈ map fst hashes_by_file)
  ∧ ∀ f hs, (f, hs) ∈ hashes_by_file →
      (∃ entry, entry ∈ entries ∧ file entry = f)
      ∧ ∀ h, h ∈ hs ↔ ∃ entry, entry ∈ entries ∧ file entry = f
                              ∧ hash_func key entry = h.

(** The store once the regeneration step is over. *)
Definition after_regenerate (user : KhojUser) (file_type : string)
    (regenerate : bool) (s : Store) : Store :=
  if regenerate then (delete_all_embeddings user file_type s).2 else s.

(** The hashes the stale pass deletes for a file. *)
Definition stale_hashes (user : KhojUser) (item : string * gset Hash)
    (s : Store) : gset Hash :=
  list_to_set (get_existing_entry_hashes_by_file user item.1 s) ∖ item.2.




(** The rows a run has handed to [bulk_create] so far belong to pairwise
    distinct hashes, were built from the dictionary entry of their hash,
    and each has a saved counterpart the next existence check will see. *)
Definition rows_invariant (user : KhojUser) (file_type : string)
    (d : gmap Hash Entry) (st : Run) : Prop :=
  ∃ hs, NoDup hs
        ∧ Forall2 (made_from user file_type d) hs (created_rows (calls st))
        ∧ ∀ h, h ∈ hs →
            ∃ r, r ∈ embeddings_table (db st)
                 ∧ Embeddings.user r = user
                 ∧ Embeddings.file_type r = file_type
                 ∧ Embeddings.hashed_value r = h.

(** Every model call logged so far was answered with one vector per text. *)
Definition answers_match (cs : list Call) : Prop :=
  ∀ texts, EmbedDocuments texts ∈ cs →
           length (embed_documents texts) = length texts.

(** The state a mismatch leaves: the files before [item] were processed
    and left [st]; the model was then called with the texts of [item] and
    answered with another number of vectors; nothing else happened. *)
Definition aborted_at (current : list Entry) (file_type : string) (key : Key)
    (user : KhojUser) (start : Run) (texts : list string) (final : Run) : Prop :=
  ∃ pre item rest n st,
    build_hashes_by_file current key = pre ++ item :: rest
    ∧ foldM (process_file user file_type key (hash_to_entries key current))
            0 pre start = (Ok n, st)
    ∧ answers_match (calls st)
    ∧ texts = data_to_embed (hash_to_entries key current) key
                (elements (hashes_to_process user file_type item.2 (db st)))
    ∧ length (embed_documents texts) ≠ length texts
    ∧ final = {| db := db st; calls := calls st ++ [EmbedDocuments texts] |}.

(** The store holds a row of the owner and content type for the hash. *)
Definition has_row (user : KhojUser) (file_type : string) (h : Hash)
    (s : Store) : Prop :=
  ∃ r, r ∈ embeddings_table s
       ∧ Embeddings.user r = user
       ∧ Embeddings.file_type r = file_type
       ∧ Embeddings.hashed_value r = h.

(** Every hash of the listed files has its row. *)
Definition all_stored (user : KhojUser) (file_type : string)
    (files : list (string * gset Hash)) (s : Store) : Prop :=
  ∀ f hs h, (f, hs) ∈ files → h ∈ hs → has_row user file_type h s.

(** No row of the owner stored under a listed file has a hash the file
    does not have. *)
Definition none_stale (user : KhojUser) (files : list (string * gset Hash))
    (s : Store) : Prop :=
  ∀ f hs r, (f, hs) ∈ files → r ∈ embeddings_table s →
            Embeddings.user r = user → Embeddings.file_path r = f →
            Embeddings.hashed_value r ∈ hs.

(** A row of the owner is misfiled for a list of entries when its file is
    the file of some entry and its hash the hash of some entry, but of no
    entry of that file: the text has moved to another file. *)
Definition misfiled (user : KhojUser) (key : Key) (current : list Entry)
    (r : Embeddings.t) : Prop :=
  Embeddings.user r = user
  ∧ (∃ e, e ∈ current ∧ file e = Embeddings.file_path r)
  ∧ (∃ e, e ∈ current ∧ hash_func key e = Embeddings.hashed_value r)
  ∧ ¬ ∃ e, e ∈ current ∧ file e = Embeddings.file_path r
           ∧ hash_func key e = Embeddings.hashed_value r.

Definition no_misfiled (user : KhojUser) (key : Key) (current : list Entry)
    (s : Store) : Prop :=
  ∀ r, r ∈ embeddings_table s → ¬ misfiled user key current r.

End Notions.

(** ** Notions of the further properties *)

Section NotionsMore.

Context `{Collaborators}.

(** The rows of everybody but [user]. *)
Definition rows_of_others (user : KhojUser) (s : Store) : list Embeddings.t :=
  filter (λ r, Embeddings.user r ≠ user) (embeddings_table s).

(** The hashes the store holds for an owner and content type: what the
    existence check of the first loop can find. *)
Definition stored_hashes (user : KhojUser) (file_type : string) (s : Store)
    : gset Hash :=
  list_to_set
    (map Embeddings.hashed_value
       (objects_filter (λ r, Embeddings.user r = user
                             ∧ Embeddings.file_type r = file_type) s)).

(** Every date row belongs to an embedding row of the store. *)
Definition dates_linked (s : Store) : Prop :=
  Forall (λ d, EmbeddingsDates.embeddings d ∈ embeddings_table s)
         (dates_table s).

(** The store holds a date row for every date read from the raw text of
    the row. *)
Definition has_its_dates (s : Store) (r : Embeddings.t) : Prop :=
  ∀ date, date ∈ extract_dates (Embeddings.raw r) →
          {| EmbeddingsDates.date := date; EmbeddingsDates.embeddings := r |}
          ∈ dates_table s.

(** The store holds no row of the owner under one of the file names. *)
Definition no_row_under (user : KhojUser) (filenames : list string) (s : Store)
    : Prop :=
  ∀ r, r ∈ embeddings_table s → Embeddings.user r = user →
       Embeddings.file_path r ∉ filenames.

End NotionsMore.

(** ** Worked examples *)

Example split_small :
  split_entries_by_max_tokens sample_uuid4
    [mkEntry "r" "a b  c" "x y z" "f" 0%N] 2 3
  = Ok [mkEntry "r" "a b" "x y z" "f" 0%N;
        mkEntry "r" ("x y z." +:+ newline +:+ "c") "x y z" "f" 0%N].
Proof. reflexivity. Qed.

Example split_zero_tokens :
  split_entries_by_max_tokens sample_uuid4 [sample_entry "a" "f"] 0 3
  = Raise ValueError.
Proof. reflexivity. Qed.

Example mark_with_deletion :
  mark_entries_for_update (H := sample_collaborators)
    [sample_entry "b" "f"; sample_entry "c" "f"]
    [sample_entry "a" "f"; sample_entry "b" "g"] key_compiled (Some {["g"%string]})
  = Ok [(0%Z, sample_entry "a" "f"); ((-1)%Z, sample_entry "c" "f")].
Proof. vm_compute. reflexivity. Qed.

Example update_then_edit :
  (run_update (H := sample_collaborators) [sample_entry "a b c" "f1"] "org"
     key_compiled None None false
     (db (run_update (H := sample_collaborators) [sample_entry "a b" "f1"]
            "org" key_compiled None None false empty_store).2)).1
  = Ok (1, 1).
Proof. vm_compute. reflexivity. Qed.

(** ** Facts about the Python helpers *)

Lemma elem_of_concat {A} (x : A) (ls : list (list A)) :
  x ∈ concat ls ↔ ∃ l, x ∈ l ∧ l ∈ ls.
Proof.
  induction ls as [|l ls IH]; simpl.
  - split; [by intros ?%elem_of_nil | by intros (? & _ & ?%elem_of_nil)].
  - rewrite elem_of_app, IH. split.
    + intros [Hx | (l' & Hx & Hl')].
      * exists l. split; [done | left].
      * exists l'. split; [done | by right].
    + intros (l' & Hx & Hl'). apply elem_of_cons in Hl' as [-> | Hl'].
      * by left.
      * right. by exists l'.
Qed.

Lemma py_split_nonempty sep s : py_split sep s ≠ [].
Proof.
  destruct s as [|c s]; simpl; [done|].
  case_decide; [done|]. by destruct (py_split sep s).
Qed.

Lemma py_split_no_sep sep s : Forall (λ w, ¬ has_char sep w) (py_split sep s).
Proof.
  induction s as [|c s IH]; simpl.
  - constructor; [tauto | constructor].
  - case_decide as Hc.
    + constructor; [simpl; tauto | done].
    + destruct (py_split sep s) as [|w ws].
      * constructor; [simpl; tauto | constructor].
      * inversion IH; subst. constructor; [simpl; tauto | done].
Qed.

Lemma py_split_word sep w : ¬ has_char sep w → py_split sep w = [w].
Proof.
  induction w as [|c w IH]; simpl; [done|].
  intros Hn. case_decide; [tauto|].
  rewrite IH; [done | tauto].
Qed.

Lemma py_split_app sep w s :
  ¬ has_char sep w →
  py_split sep (w +:+ String sep s) = w :: py_split sep s.
Proof.
  induction w as [|c w IH]; simpl; intros Hn.
  - by rewrite decide_True.
  - case_decide; [tauto|]. rewrite IH; [done | tauto].
Qed.

Lemma py_split_join sep ws :
  ws ≠ [] → Forall (λ w, ¬ has_char sep w) ws →
  py_split sep (py_join (String sep EmptyString) ws) = ws.
Proof.
  induction ws as [|w ws IH]; [done|].
  intros _ Hall. inversion Hall as [|? ? Hw Hws]; subst.
  destruct ws as [|w' ws].
  - simpl. by apply py_split_word.
  - change (py_join (String sep EmptyString) (w :: w' :: ws))
      with (w +:+ String sep (py_join (String sep EmptyString) (w' :: ws))).
    rewrite py_split_app by done. f_equal. by apply IH.
Qed.

Lemma py_join_nonempty sep ws :
  ws ≠ [] → Forall (λ w, w ≠ EmptyString) ws → py_join sep ws ≠ EmptyString.
Proof.
  destruct ws as [|w ws]; [done|].
  intros _ Hall. inversion Hall as [|? ? Hw Hws]; subst.
  destruct ws; simpl; [done|].
  destruct w; [done | discriminate].
Qed.

Lemma string_app_nonempty_r s t : t ≠ EmptyString → s +:+ t ≠ EmptyString.
Proof. destruct s; simpl; [done | discriminate]. Qed.

Lemma py_range0_zero stop : py_range0 stop 0 = Raise ValueError.
Proof. done. Qed.

Lemma py_range0_neg stop step : (step < 0)%Z → py_range0 stop step = Ok [].
Proof.
  intros Hs. unfold py_range0.
  rewrite decide_False by lia. by rewrite decide_True.
Qed.

Lemma py_range0_pos stop step :
  (0 < step)%Z →
  py_range0 stop step
  = Ok (map (λ k, k * Z.to_nat step) (seq 0 ((stop + Z.to_nat step - 1) / Z.to_nat step))).
Proof.
  intros Hs. unfold py_range0.
  rewrite decide_False by lia. by rewrite decide_False by lia.
Qed.

Lemma range_index_lt stop st k :
  0 < st → k < (stop + st - 1) / st → k * st < stop.
Proof.
  intros Hst Hk.
  pose proof (Nat.Div0.mul_div_le (stop + st - 1) st) as Hle.
  assert (st * (k + 1) ≤ st * ((stop + st - 1) / st)) by (apply Nat.mul_le_mono_l; lia).
  nia.
Qed.

Lemma range_count_zero st : 0 < st → (0 + st - 1) / st = 0.
Proof. intros. apply Nat.div_small. lia. Qed.

(** ** The chunker *)

Section ChunkerFacts.

Context (uuid4 : nat → UUID).

Lemma compiled_entry_words_spec entry max_word_length :
  Forall (λ w, w ≠ EmptyString
               ∧ (Z.of_nat (String.length w) ≤ max_word_length)%Z
               ∧ ¬ has_char space w)
         (compiled_entry_words entry max_word_length).
Proof.
  unfold compiled_entry_words. apply Forall_forall. intros w Hw.
  apply list_elem_of_filter in Hw as [Hlen Hw].
  apply list_elem_of_filter in Hw as [Hne Hw].
  split_and!; [done | done |].
  pose proof (py_split_no_sep space (compiled entry)) as Hall.
  rewrite Forall_forall in Hall. by apply Hall.
Qed.

(** The words of the chunk at a position inside the word list. *)
Lemma chunk_words_spec entry max_tokens max_word_length chunk_index :
  (0 < max_tokens)%Z →
  chunk_index < length (compiled_entry_words entry max_word_length) →
  let ws := take (Z.to_nat max_tokens)
                 (drop chunk_index (compiled_entry_words entry max_word_length)) in
  ws ≠ []
  ∧ py_join (String space EmptyString) ws ≠ EmptyString
  ∧ within_bounds max_tokens max_word_length (py_join (String space EmptyString) ws).
Proof.
  intros Hmt Hidx ws.
  pose proof (compiled_entry_words_spec entry max_word_length) as Hall.
  assert (Hsub : ws ⊆ compiled_entry_words entry max_word_length).
  { intros w Hw. unfold ws in Hw.
    apply subseteq_take in Hw. by apply subseteq_drop in Hw. }
  assert (Hws : Forall (λ w, w ≠ EmptyString
               ∧ (Z.of_nat (String.length w) ≤ max_word_length)%Z
               ∧ ¬ has_char space w) ws).
  { apply Forall_forall. intros w Hw. rewrite Forall_forall in Hall. auto. }
  assert (Hne : ws ≠ []).
  { unfold ws. intros Hnil. apply (f_equal length) in Hnil.
    rewrite length_take, length_drop in Hnil. simpl in Hnil. lia. }
  split; [done|]. split.
  - apply py_join_nonempty; [done|]. eapply Forall_impl; [exact Hws|]. by intros w (? & ? & ?).
  - unfold within_bounds. rewrite py_split_join; [|done|].
    + split.
      * unfold ws. rewrite length_take. lia.
      * eapply Forall_impl; [exact Hws|]. by intros w (? & ? & ?).
    + eapply Forall_impl; [exact Hws|]. by intros w (? & ? & ?).
Qed.

Lemma make_chunk_first entry cid max_tokens ws :
  compiled (make_chunk entry cid max_tokens ws 0)
  = py_join (String space EmptyString) (take (Z.to_nat max_tokens) (drop 0 ws)).
Proof. done. Qed.

Lemma make_chunk_later entry cid max_tokens ws i :
  0 < i →
  compiled (make_chunk entry cid max_tokens ws i)
  = py_last_chars 100 (heading entry) +:+ "." +:+ newline
    +:+ py_join (String space EmptyString) (take (Z.to_nat max_tokens) (drop i ws)).
Proof. intros Hi. unfold make_chunk. simpl. by rewrite decide_True. Qed.

Lemma chunk_entry_zero entry cid max_word_length :
  chunk_entry entry cid 0 max_word_length = Raise ValueError.
Proof. done. Qed.

Lemma chunk_entry_shape entry cid max_tokens max_word_length :
  max_tokens ≠ 0%Z →
  ∃ chunks, chunk_entry entry cid max_tokens max_word_length = Ok chunks
            ∧ chunks_shape entry cid max_tokens max_word_length chunks.
Proof.
  intros Hnz. unfold chunk_entry.
  destruct (decide (max_tokens < 0)%Z) as [Hneg|Hpos].
  { rewrite py_range0_neg by done. simpl. eexists; split; [done|].
    unfold chunks_shape. by split_and!. }
  assert (Hmt : (0 < max_tokens)%Z) by lia.
  rewrite py_range0_pos by done. simpl. eexists; split; [done|].
  set (ws := compiled_entry_words entry max_word_length).
  set (st := Z.to_nat max_tokens).
  assert (Hst : 0 < st) by (unfold st; lia).
  set (n := (length ws + st - 1) / st).
  assert (Hidx : ∀ k, k < n → k * st < length ws).
  { intros k Hk. by apply range_index_lt. }
  unfold chunks_shape. split_and!.
  - apply Forall_forall. intros c Hc.
    apply list_elem_of_fmap in Hc as [i [-> Hi]].
    apply list_elem_of_fmap in Hi as [k [-> Hk]].
    apply elem_of_seq in Hk.
    split_and!; try done.
    destruct (chunk_words_spec entry max_tokens max_word_length (k * st) Hmt)
      as (_ & Hne & _); [apply Hidx; lia|].
    destruct (decide (0 < k * st)) as [Hp|Hz].
    + rewrite make_chunk_later by done.
      do 3 apply string_app_nonempty_r. exact Hne.
    + replace (k * st) with 0 in * by lia. rewrite make_chunk_first. exact Hne.
  - intros Hnil. unfold n, ws. rewrite Hnil. simpl.
    rewrite Nat.div_small by lia. done.
  - clearbody n. destruct n as [|n']; [done|].
    simpl seq. simpl map.
    split.
    + rewrite make_chunk_first.
      destruct (chunk_words_spec entry max_tokens max_word_length 0 Hmt)
        as (_ & _ & Hb); [apply (Hidx 0); lia|]. exact Hb.
    + apply Forall_forall. intros c Hc.
      apply list_elem_of_fmap in Hc as [i [-> Hi]].
      apply list_elem_of_fmap in Hi as [k [-> Hk]].
      apply elem_of_seq in Hk.
      rewrite make_chunk_later by nia.
      eexists; split; [done|].
      destruct (chunk_words_spec entry max_tokens max_word_length (k * st) Hmt)
        as (_ & _ & Hb); [apply Hidx; lia|]. exact Hb.
Qed.

Lemma chunk_entry_Ok_shape entry cid max_tokens max_word_length chunks :
  chunk_entry entry cid max_tokens max_word_length = Ok chunks →
  chunks_shape entry cid max_tokens max_word_length chunks.
Proof.
  intros Hok. destruct (decide (max_tokens = 0%Z)) as [->|Hnz].
  - by rewrite chunk_entry_zero in Hok.
  - destruct (chunk_entry_shape entry cid max_tokens max_word_length Hnz)
      as (chunks' & Heq & Hshape).
    rewrite Hok in Heq. by injection Heq as ->.
Qed.

Lemma split_entries_loop_zero entries calls max_word_length acc :
  entries ≠ [] →
  split_entries_loop uuid4 entries calls 0 max_word_length acc = Raise ValueError.
Proof. by destruct entries. Qed.

Lemma split_entries_loop_groups entries calls max_tokens max_word_length acc :
  max_tokens ≠ 0%Z →
  ∃ groups,
    split_entries_loop uuid4 entries calls max_tokens max_word_length acc
    = Ok (acc ++ concat groups)
    ∧ grouped_by_entry uuid4 entries calls max_tokens max_word_length groups.
Proof.
  intros Hnz. revert calls acc.
  induction entries as [|entry entries IH]; intros calls acc.
  - exists []. simpl. rewrite app_nil_r. split; [done|]. split; [done|].
    intros i ? ? Hl. by rewrite lookup_nil in Hl.
  - destruct (chunk_entry_shape entry (uuid4 calls) max_tokens max_word_length Hnz)
      as (chunks & Hchunks & _).
    destruct (IH (S calls) (acc ++ chunks)) as (groups & Hloop & Hlen & Hgroups).
    exists (chunks :: groups). simpl. rewrite Hchunks. simpl.
    rewrite Hloop, <- app_assoc. split; [done|]. split; [simpl; by rewrite Hlen|].
    intros [|i] e g He Hg; simpl in He, Hg.
    + injection He as <-. injection Hg as <-. by rewrite Nat.add_0_r.
    + replace (calls + S i) with (S calls + i) by lia. by eapply Hgroups.
Qed.

Lemma split_entries_cases entries max_tokens max_word_length :
  match split_entries_by_max_tokens uuid4 entries max_tokens max_word_length with
  | Ok chunked_entries =>
      ∃ groups, chunked_entries = concat groups
                ∧ grouped_by_entry uuid4 entries 0 max_tokens max_word_length groups
  | Raise e => e = ValueError ∧ max_tokens = 0%Z ∧ entries ≠ []
  end.
Proof.
  unfold split_entries_by_max_tokens.
  destruct (decide (max_tokens = 0%Z)) as [->|Hnz].
  - destruct entries as [|entry entries].
    + simpl. exists []. split; [done|]. split; [done|].
      intros i ? ? Hl. by rewrite lookup_nil in Hl.
    + by rewrite split_entries_loop_zero.
  - destruct (split_entries_loop_groups entries 0 max_tokens max_word_length [] Hnz)
      as (groups & -> & Hgroups).
    by exists groups.
Qed.

End ChunkerFacts.

(** ** Claims about the chunker *)

(** C9, as the code has it. No chunk that [split_entries_by_max_tokens]
    returns has an empty [compiled] field, and an entry with no word left
    after the split on the space character and the filter on word length
    gives no chunk at all; a tab or a newline is a character of a word
    like any other. The call raises only for [max_tokens = 0] on a
    non-empty input. *)
Theorem split_entries_chunks_nonempty (uuid4 : nat → UUID)
    (entries : list Entry) (max_tokens max_word_length : Z) :
  match split_entries_by_max_tokens uuid4 entries max_tokens max_word_length with
  | Ok chunked_entries =>
      Forall (λ chunk, compiled chunk ≠ EmptyString) chunked_entries
      ∧ ∃ groups,
          chunked_entries = concat groups
          ∧ grouped_by_entry uuid4 entries 0 max_tokens max_word_length groups
          ∧ ∀ i entry chunks,
              entries !! i = Some entry → groups !! i = Some chunks →
              compiled_entry_words entry max_word_length = [] → chunks = []
  | Raise e => e = ValueError ∧ max_tokens = 0%Z ∧ entries ≠ []
  end.
Proof.
  pose proof (split_entries_cases uuid4 entries max_tokens max_word_length) as Hc.
  destruct (split_entries_by_max_tokens uuid4 entries max_tokens max_word_length)
    as [chunked|e]; [|done].
  destruct Hc as (groups & -> & Hlen & Hgroups).
  split.
  - apply Forall_forall. intros c Hc.
    apply elem_of_concat in Hc as (g & Hcg & Hg).
    apply list_elem_of_lookup in Hg as [i Hi].
    destruct (lookup_lt_is_Some_2 entries i) as [entry He].
    { rewrite <- Hlen. by eapply lookup_lt_Some. }
    pose proof (chunk_entry_Ok_shape _ _ _ _ _ (Hgroups i entry g He Hi))
      as (Hall & _).
    rewrite Forall_forall in Hall. by destruct (Hall c Hcg) as (_ & _ & _ & _ & ?).
  - exists groups. split; [done|]. split; [done|].
    intros i entry chunks He Hi.
    by pose proof (chunk_entry_Ok_shape _ _ _ _ _ (Hgroups i entry chunks He Hi))
      as (_ & Hempty & _).
Qed.

(** C9 as stated fails: a text of one newline has no word when split on
    whitespace, yet the entry gives a chunk, with that text. *)
Lemma split_entries_chunks_nonempty_counterexample :
  words_by_whitespace newline = []
  ∧ split_entries_by_max_tokens sample_uuid4
      [mkEntry "r" newline "h" "f" 0%N] 256 500
    = Ok [mkEntry "r" newline "h" "f" 0%N].
Proof. split; reflexivity. Qed.

(** C2, as the code has it. The first chunk of every entry holds at most
    [max_tokens] words, none longer than [max_word_length]; every later
    chunk is the last 100 characters of the heading, a period and a
    newline, followed by a body within the same two bounds. The prefix
    itself is counted against neither bound. *)
Theorem split_entries_chunk_bound (uuid4 : nat → UUID)
    (entries : list Entry) (max_tokens max_word_length : Z) :
  match split_entries_by_max_tokens uuid4 entries max_tokens max_word_length with
  | Ok chunked_entries =>
      ∃ groups,
        chunked_entries = concat groups
        ∧ grouped_by_entry uuid4 entries 0 max_tokens max_word_length groups
        ∧ ∀ i entry chunks,
            entries !! i = Some entry → groups !! i = Some chunks →
            match chunks with
            | [] => True
            | first :: others =>
                within_bounds max_tokens max_word_length (compiled first)
                ∧ Forall
                    (λ chunk, ∃ body,
                       compiled chunk
                       = py_last_chars 100 (heading entry) +:+ "." +:+ newline
                         +:+ body
                       ∧ within_bounds max_tokens max_word_length body)
                    others
            end
  | Raise e => e = ValueError ∧ max_tokens = 0%Z ∧ entries ≠ []
  end.
Proof.
  pose proof (split_entries_cases uuid4 entries max_tokens max_word_length) as Hc.
  destruct (split_entries_by_max_tokens uuid4 entries max_tokens max_word_length)
    as [chunked|e]; [|done].
  destruct Hc as (groups & -> & Hlen & Hgroups).
  exists groups. split; [done|]. split; [done|].
  intros i entry chunks He Hi.
  by pose proof (chunk_entry_Ok_shape _ _ _ _ _ (Hgroups i entry chunks He Hi))
    as (_ & _ & Hshape).
Qed.

(** C2 as stated fails: with [max_tokens = 2] and [max_word_length = 3]
    the second chunk of one entry has three words, one of four characters. *)
Lemma split_entries_chunk_bound_counterexample :
  ∃ chunk,
    split_entries_by_max_tokens sample_uuid4
      [mkEntry "r" "a b c" "x y z" "f" 0%N] 2 3
    = Ok [mkEntry "r" "a b" "x y z" "f" 0%N; chunk]
    ∧ py_split space (compiled chunk) = ["x"; "y"; "z." +:+ newline +:+ "c"]
    ∧ ¬ (Z.of_nat (length (py_split space (compiled chunk))) ≤ 2)%Z
    ∧ ¬ Forall (λ word, (Z.of_nat (String.length word) ≤ 3)%Z)
               (py_split space (compiled chunk)).
Proof.
  eexists. split; [reflexivity|]. split; [reflexivity|]. split.
  - vm_compute. intros Hle. by apply Hle.
  - intros Hall. simpl in Hall.
    inversion Hall as [|? ? _ Hall1]; subst.
    inversion Hall1 as [|? ? _ Hall2]; subst.
    inversion Hall2 as [|? ? Hlen _]; subst.
    vm_compute in Hlen. by apply Hlen.
Qed.

(** C8. When the identifiers [uuid4] draws are pairwise distinct, two
    chunks carry the same [corpus_id] exactly when they come from the
    same input entry. *)
Theorem split_entries_shared_corpus_id (uuid4 : nat → UUID)
    (entries : list Entry) (max_tokens max_word_length : Z)
    (chunked_entries : list Entry) :
  (∀ m n, uuid4 m = uuid4 n → m = n) →
  split_entries_by_max_tokens uuid4 entries max_tokens max_word_length
  = Ok chunked_entries →
  ∃ groups,
    chunked_entries = concat groups
    ∧ grouped_by_entry uuid4 entries 0 max_tokens max_word_length groups
    ∧ ∀ i j chunks_i chunks_j chunk_i chunk_j,
        groups !! i = Some chunks_i → groups !! j = Some chunks_j →
        chunk_i ∈ chunks_i → chunk_j ∈ chunks_j →
        corpus_id chunk_i = corpus_id chunk_j ↔ i = j.
Proof.
  intros Hinj Hok.
  pose proof (split_entries_cases uuid4 entries max_tokens max_word_length) as Hc.
  rewrite Hok in Hc. destruct Hc as (groups & -> & Hlen & Hgroups).
  exists groups. split; [done|]. split; [done|].
  assert (Hid : ∀ i chunks chunk,
            groups !! i = Some chunks → chunk ∈ chunks →
            corpus_id chunk = uuid4 i).
  { intros i chunks chunk Hi Hin.
    destruct (lookup_lt_is_Some_2 entries i) as [entry He].
    { rewrite <- Hlen. by eapply lookup_lt_Some. }
    pose proof (chunk_entry_Ok_shape _ _ _ _ _ (Hgroups i entry chunks He Hi))
      as (Hall & _).
    rewrite Forall_forall in Hall.
    by destruct (Hall chunk Hin) as (_ & _ & _ & ? & _). }
  intros i j gi gj ci cj Hi Hj Hci Hcj.
  rewrite (Hid i gi ci Hi Hci), (Hid j gj cj Hj Hcj).
  split; [apply Hinj | by intros ->].
Qed.

(** C8 at work: two entries, the first cut in two chunks. *)
Lemma split_entries_shared_corpus_id_witness :
  ∃ groups,
    [mkEntry "r1" "a b" "h1" "f" 0%N;
     mkEntry "r1" ("h1." +:+ newline +:+ "c") "h1" "f" 0%N;
     mkEntry "r2" "d" "h2" "g" 1%N] = concat groups
    ∧ grouped_by_entry sample_uuid4
        [mkEntry "r1" "a b c" "h1" "f" 7%N; mkEntry "r2" "d" "h2" "g" 7%N]
        0 2 500 groups
    ∧ ∀ i j chunks_i chunks_j chunk_i chunk_j,
        groups !! i = Some chunks_i → groups !! j = Some chunks_j →
        chunk_i ∈ chunks_i → chunk_j ∈ chunks_j →
        corpus_id chunk_i = corpus_id chunk_j ↔ i = j.
Proof.
  apply (split_entries_shared_corpus_id sample_uuid4
           [mkEntry "r1" "a b c" "h1" "f" 7%N; mkEntry "r2" "d" "h2" "g" 7%N]
           2 500).
  - unfold sample_uuid4. intros m n Hmn. lia.
  - reflexivity.
Defined.

Lemma result_mapM_Forall2 {A B} (f : A → result B) (R : A → B → Prop) l :
  (∀ x, x ∈ l → ∃ y, f x = Ok y ∧ R x y) →
  ∃ ys, result_mapM f l = Ok ys ∧ Forall2 R l ys.
Proof.
  induction l as [|x l IH]; intros Hf.
  - exists []. by split.
  - destruct (Hf x) as (y & Hy & HR); [left|].
    destruct IH as (ys & Hys & HRs). { intros x' Hx'. apply Hf. by right. }
    exists (y :: ys). simpl. rewrite Hy. simpl. rewrite Hys. simpl.
    split; [done | by constructor].
Qed.

Lemma py_dict_snoc {K V} `{Countable K} (pairs : list (K * V)) k v :
  py_dict (pairs ++ [(k, v)]) = <[k := v]> (py_dict pairs).
Proof. unfold py_dict. by rewrite foldl_app. Qed.

(** [dict(pairs)[k]] is the value of the last pair with key [k]. *)
Lemma py_dict_lookup {K V} `{Countable K} (pairs : list (K * V)) k :
  py_dict pairs !! k = last (filter (λ kv, kv.1 = k) pairs) ≫= λ kv, Some kv.2.
Proof.
  induction pairs as [|[k' v'] pairs IH] using rev_ind.
  - done.
  - rewrite py_dict_snoc, filter_app. simpl.
    destruct (decide (k' = k)) as [->|Hne].
    + rewrite lookup_insert_eq. rewrite filter_cons_True by done.
      rewrite filter_nil. by rewrite last_snoc.
    + rewrite lookup_insert_ne by done. rewrite filter_cons_False by done.
      rewrite filter_nil, app_nil_r. exact IH.
Qed.

Lemma py_dict_lookup_Some {K V} `{Countable K} (pairs : list (K * V)) k v :
  py_dict pairs !! k = Some v → (k, v) ∈ pairs.
Proof.
  rewrite py_dict_lookup. intros Hl.
  match type of Hl with ?o ≫= _ = _ => destruct o as [[k' v']|] eqn:Hlast end;
    [|done].
  simpl in Hl. injection Hl as ->.
  apply last_Some_elem_of in Hlast.
  apply list_elem_of_filter in Hlast as [Hk Hin]. simpl in Hk. by subst.
Qed.

Lemma py_dict_lookup_is_Some {K V} `{Countable K} (pairs : list (K * V)) k :
  k ∈ pairs.*1 → is_Some (py_dict pairs !! k).
Proof.
  intros Hk. rewrite py_dict_lookup.
  apply list_elem_of_fmap in Hk as ([k' v] & -> & Hin). simpl.
  match goal with |- is_Some (?o ≫= _) => destruct o as [kv|] eqn:Hlast end.
  - simpl. by eexists.
  - apply last_None in Hlast.
    assert (Hf : (k', v) ∈ filter (λ kv : K * V, kv.1 = k') pairs).
    { by apply list_elem_of_filter. }
    rewrite Hlast in Hf. by apply elem_of_nil in Hf.
Qed.

Lemma py_index_Ok {A} `{EqDecision A} (x : A) l i :
  py_index x l = Ok i ↔ l !! i = Some x ∧ ∀ j, j < i → l !! j ≠ Some x.
Proof.
  revert i. induction l as [|y l IH]; intros i; simpl.
  - split; [done | by intros [? _]].
  - case_decide as Hy.
    + subst. split.
      * intros [= <-]. split; [done | lia].
      * intros [Hi Hfirst]. destruct i as [|i]; [done|].
        by destruct (Hfirst 0 ltac:(lia)).
    + destruct i as [|i].
      * split.
        -- by destruct (py_index x l).
        -- intros [Hi _]. simpl in Hi. congruence.
      * specialize (IH i). split.
        -- intros Hr. destruct (py_index x l) as [i'|] eqn:E; simpl in Hr; [|done].
           injection Hr as ->. destruct IH as [IH _].
           destruct (IH eq_refl) as [Hi Hfirst]. split; [done|].
           intros [|j] Hj; simpl; [congruence | apply Hfirst; lia].
        -- intros [Hi Hfirst]. simpl in Hi. destruct IH as [_ IH].
           rewrite IH; [done|]. split; [done|].
           intros j Hj. apply (Hfirst (S j)). lia.
Qed.

Lemma py_index_elem_of {A} `{EqDecision A} (x : A) l :
  x ∈ l → ∃ i, py_index x l = Ok i.
Proof.
  induction l as [|y l IH]; [by intros ?%elem_of_nil|].
  intros Hx. simpl. case_decide; [by eexists|].
  apply elem_of_cons in Hx as [->|Hx]; [done|].
  destruct (IH Hx) as [i ->]. by eexists.
Qed.

Lemma py_index_inj {A} `{EqDecision A} (x y : A) l i :
  py_index x l = Ok i → py_index y l = Ok i → x = y.
Proof. rewrite !py_index_Ok. intros [Hx _] [Hy _]. congruence. Qed.

(** [sorted] rearranges its input and orders it by the key. *)
Lemma insert_by_perm {A} (key : A → Z) x l : insert_by key x l ≡ₚ x :: l.
Proof.
  induction l as [|y l IH]; simpl; [done|].
  case_decide; [done|]. rewrite IH. apply perm_swap.
Qed.

Lemma py_sorted_perm {A} (key : A → Z) l : py_sorted key l ≡ₚ l.
Proof.
  induction l as [|x l IH]; simpl; [done|].
  rewrite insert_by_perm. by constructor.
Qed.

Lemma insert_by_sorted {A} (key : A → Z) x l :
  StronglySorted (λ a b, (key a ≤ key b)%Z) l →
  StronglySorted (λ a b, (key a ≤ key b)%Z) (insert_by key x l).
Proof.
  induction 1 as [|y l Hl IH Hy]; simpl.
  - repeat constructor.
  - case_decide as Hxy.
    + constructor; [by constructor|].
      constructor; [done|]. eapply Forall_impl; [exact Hy|]. simpl. lia.
    + constructor; [done|].
      rewrite insert_by_perm. constructor; [lia | done].
Qed.

Lemma py_sorted_sorted {A} (key : A → Z) l :
  StronglySorted (λ a b, (key a ≤ key b)%Z) (py_sorted key l).
Proof.
  induction l as [|x l IH]; simpl; [constructor|]. by apply insert_by_sorted.
Qed.

Lemma sorted_strict {A} (key : A → Z) l :
  NoDup (map key l) →
  StronglySorted (λ a b, (key a ≤ key b)%Z) l →
  StronglySorted (λ a b, (key a < key b)%Z) l.
Proof.
  induction 2 as [|x l Hl IH Hx]; [constructor|].
  simpl in H. apply NoDup_cons in H as [Hnin Hnd].
  constructor; [by apply IH|].
  apply Forall_forall. intros y Hy. rewrite Forall_forall in Hx.
  specialize (Hx y Hy).
  assert (key x ≠ key y).
  { intros Heq. apply Hnin. rewrite Heq. apply list_elem_of_fmap. by exists y. }
  lia.
Qed.

Lemma py_sorted_strict {A} (key : A → Z) l :
  NoDup (map key l) →
  StronglySorted (λ a b, (key a < key b)%Z) (py_sorted key l).
Proof.
  intros Hnd. apply sorted_strict; [|apply py_sorted_sorted].
  by rewrite (py_sorted_perm key l).
Qed.

Lemma NoDup_fmap_transfer {A B C} (f : A → B) (g : A → C) (l : list A) :
  NoDup (map g l) →
  (∀ x y, x ∈ l → y ∈ l → f x = f y → g x = g y) →
  NoDup (map f l).
Proof.
  induction l as [|x l IH]; simpl; intros Hnd Hfg; [constructor|].
  apply NoDup_cons in Hnd as [Hnin Hnd]. apply NoDup_cons. split.
  - intros Hin. apply list_elem_of_fmap in Hin as (y & Hxy & Hy).
    apply Hnin. apply list_elem_of_fmap. exists y. split; [|done].
    apply Hfg; [left | by right | done].
  - apply IH; [done|]. intros a b Ha Hb. apply Hfg; by right.
Qed.

Lemma zip_map_self {A B} (f : A → B) (l : list A) :
  zip (map f l) l = map (λ x, (f x, x)) l.
Proof. induction l as [|x l IH]; simpl; [done | by rewrite IH]. Qed.

(** ** The diff engine *)

Section DiffFacts.

Context `{Collaborators}.

Lemma hash_dict_lookup key entries h entry :
  hash_to_entries key entries !! h = Some entry →
  entry ∈ entries ∧ hash_func key entry = h.
Proof.
  intros Hl%py_dict_lookup_Some. rewrite zip_map_self in Hl.
  apply list_elem_of_fmap in Hl as (e & [= -> ->] & He). done.
Qed.

Lemma hash_dict_is_Some key entries h :
  h ∈ map (hash_func key) entries →
  is_Some (hash_to_entries key entries !! h).
Proof.
  intros Hh. apply py_dict_lookup_is_Some.
  rewrite zip_map_self. rewrite <- list_fmap_compose.
  exact Hh.
Qed.

Lemma index_and_entry_Ok key entries h :
  h ∈ map (hash_func key) entries →
  ∃ p, index_and_entry (map (hash_func key) entries)
         (hash_to_entries key entries) h = Ok p
       ∧ hash_func key p.2 = h
       ∧ p.2 ∈ entries
       ∧ ∃ i, p.1 = Z.of_nat i
              ∧ py_index h (map (hash_func key) entries) = Ok i.
Proof.
  intros Hh. unfold index_and_entry.
  destruct (py_index_elem_of h _ Hh) as [i Hi].
  destruct (hash_dict_is_Some key entries h Hh) as [entry He].
  rewrite Hi. simpl. unfold py_getitem. rewrite He. simpl.
  destruct (hash_dict_lookup key entries h entry He) as [Hin Hhash].
  eexists. split; [done|]. simpl. split_and!; [done | done |].
  by exists i.
Qed.

Lemma sorted_indexed key entries (hashes : gset Hash) :
  hashes ⊆ list_to_set (map (hash_func key) entries) →
  ∃ indexed,
    result_mapM (index_and_entry (map (hash_func key) entries)
                   (hash_to_entries key entries))
                (elements hashes) = Ok indexed
    ∧ ordered_by_position key entries hashes (py_sorted fst indexed).
Proof.
  intros Hsub.
  destruct (result_mapM_Forall2
              (index_and_entry (map (hash_func key) entries)
                 (hash_to_entries key entries))
              (λ h p, hash_func key p.2 = h ∧ p.2 ∈ entries
                      ∧ ∃ i, p.1 = Z.of_nat i
                             ∧ py_index h (map (hash_func key) entries) = Ok i)
              (elements hashes)) as (indexed & Hmap & Hrel).
  { intros h Hh. apply index_and_entry_Ok.
    apply elem_of_elements in Hh. apply Hsub in Hh.
    by apply elem_of_list_to_set in Hh. }
  exists indexed. split; [done|].
  assert (Hhashes : map (λ p, hash_func key p.2) indexed = elements hashes).
  { clear Hmap. induction Hrel as [|h p hs ps (Hp & _) _ IH]; simpl; [done|].
    by rewrite Hp, IH. }
  assert (Hall : Forall (λ p, p.2 ∈ entries
                 ∧ ∃ i, p.1 = Z.of_nat i
                        ∧ py_index (hash_func key p.2)
                                   (map (hash_func key) entries) = Ok i)
                   indexed).
  { clear Hmap Hhashes.
    induction Hrel as [|h p hs ps (Hp & Hin & Hi) _ IH]; constructor; [|done].
    split; [done|]. by rewrite Hp. }
  unfold ordered_by_position. split_and!.
  - rewrite <- Hhashes. apply fmap_Permutation, py_sorted_perm.
  - rewrite (py_sorted_perm fst indexed). exact Hall.
  - apply py_sorted_strict.
    apply (NoDup_fmap_transfer fst (λ p, hash_func key p.2)).
    + rewrite Hhashes. apply NoDup_elements.
    + intros p q Hp Hq Hpq. rewrite Forall_forall in Hall.
      destruct (Hall p Hp) as (_ & i & Hi & Hidx).
      destruct (Hall q Hq) as (_ & j & Hj & Hjdx).
      assert (i = j) as -> by lia.
      by eapply py_index_inj.
Qed.

Lemma preserving_subseteq current previous key deletion_filenames :
  preserving_entry_hashes current previous key deletion_filenames
  ⊆ list_to_set (map (hash_func key) previous).
Proof.
  unfold preserving_entry_hashes, existing_entry_hashes, remaining_entry_hashes.
  intros h.
  destruct deletion_filenames; [case_decide|];
    rewrite ?elem_of_union, ?elem_of_intersection, ?elem_of_difference; tauto.
Qed.

Lemma new_subseteq current previous key :
  new_entry_hashes current previous key
  ⊆ list_to_set (map (hash_func key) current).
Proof. unfold new_entry_hashes. intros h. rewrite elem_of_difference. tauto. Qed.

(** The output in one piece: the preserved pairs in order of previous
    position, then the new entries in order of current position, their
    position replaced by [-1]. *)
Lemma mark_entries_for_update_spec current previous key deletion_filenames :
  ∃ preserved new,
    mark_entries_for_update current previous key deletion_filenames
    = Ok (preserved ++ map (λ p, ((-1)%Z, p.2)) new)
    ∧ ordered_by_position key previous
        (preserving_entry_hashes current previous key deletion_filenames)
        preserved
    ∧ ordered_by_position key current
        (new_entry_hashes current previous key) new.
Proof.
  destruct (sorted_indexed key current (new_entry_hashes current previous key))
    as (new & Hnew & Hnew_ord); [apply new_subseteq|].
  destruct (sorted_indexed key previous
              (preserving_entry_hashes current previous key deletion_filenames))
    as (pres & Hpres & Hpres_ord); [apply preserving_subseteq|].
  exists (py_sorted fst pres), (py_sorted fst new).
  unfold mark_entries_for_update. rewrite Hnew. simpl. rewrite Hpres. simpl.
  done.
Qed.

End DiffFacts.

Lemma preserved_part_spec `{Collaborators} key entries hashes preserved
    (new : list (Z * Entry)) :
  ordered_by_position key entries hashes preserved →
  preserved_part (preserved ++ map (λ p, ((-1)%Z, p.2)) new) = preserved.
Proof.
  intros (_ & Hall & _). unfold preserved_part. rewrite filter_app.
  assert (Hnew : filter (λ p : Z * Entry, p.1 ≠ (-1)%Z)
                        (map (λ p : Z * Entry, ((-1)%Z, p.2)) new) = []).
  { induction new as [|p new IH]; simpl; [done|].
    by rewrite filter_cons_False by (simpl; auto). }
  rewrite Hnew, app_nil_r. clear Hnew.
  induction Hall as [|p ps (_ & i & Hi & _) _ IH]; [done|].
  rewrite filter_cons_True by lia. by rewrite IH.
Qed.

Lemma preserving_entry_hashes_cases `{Collaborators} current previous key
    deletion_filenames :
  preserving_entry_hashes current previous key deletion_filenames
  = match deletion_filenames with
    | None => existing_entry_hashes current previous key
    | Some _ =>
        list_to_set (map (hash_func key) previous)
          ∖ to_delete_entry_hashes previous key deletion_filenames
    end.
Proof.
  unfold preserving_entry_hashes. destruct deletion_filenames as [fs|]; [|done].
  case_decide as Hlen; [|done].
  apply nil_length_inv in Hlen.
  unfold to_delete_entry_hashes. rewrite Hlen.
  unfold existing_entry_hashes, remaining_entry_hashes.
  apply set_eq. intros h.
  rewrite elem_of_union, elem_of_intersection, !elem_of_difference,
    elem_of_intersection, !elem_of_list_to_set.
  pose proof (not_elem_of_nil h).
  destruct (decide (h ∈ map (hash_func key) current)); tauto.
Qed.


(** C3, as the code has it. Without a deletion set the preserved part of
    the output holds exactly the hashes present in both lists; previous
    entries missing from the current list are dropped. With a deletion set
    it holds the previous hashes minus [to_delete]. *)
Theorem mark_entries_preserve_rule `{Collaborators}
    (current_entries previous_entries : list Entry) (key : Key)
    (deletion_filenames : option (gset string)) :
  ∃ entries_with_ids,
    mark_entries_for_update current_entries previous_entries key
      deletion_filenames = Ok entries_with_ids
    ∧ list_to_set (map (λ p, hash_func key p.2) (preserved_part entries_with_ids))
      = match deletion_filenames with
        | None => existing_entry_hashes current_entries previous_entries key
        | Some _ =>
            list_to_set (map (hash_func key) previous_entries)
              ∖ to_delete_entry_hashes previous_entries key deletion_filenames
        end.
Proof.
  destruct (mark_entries_for_update_spec current_entries previous_entries key
              deletion_filenames) as (preserved & new & Hout & Hpres & _).
  eexists. split; [exact Hout|].
  rewrite (preserved_part_spec key previous_entries _ preserved new Hpres).
  destruct Hpres as (Hperm & _).
  rewrite <- preserving_entry_hashes_cases.
  apply set_eq. intros h. rewrite elem_of_list_to_set, Hperm.
  apply elem_of_elements.
Qed.

(** C3 as stated fails: without a deletion set, a previous entry that is
    missing from the current list is not kept. *)
Lemma mark_entries_preserve_rule_counterexample :
  ∃ entries_with_ids,
    mark_entries_for_update (H := sample_collaborators)
      [mkEntry "b" "b" "" "f" 0%N; mkEntry "c" "c" "" "f" 0%N]
      [mkEntry "a" "a" "" "f" 0%N; mkEntry "b" "b" "" "f" 0%N]
      key_compiled None
    = Ok entries_with_ids
    ∧ entries_with_ids
      = [(1%Z, mkEntry "b" "b" "" "f" 0%N); ((-1)%Z, mkEntry "c" "c" "" "f" 0%N)]
    ∧ list_to_set (map (λ p, hash_func (H := sample_collaborators) key_compiled p.2)
                       (preserved_part entries_with_ids))
      ≠ existing_entry_hashes (H := sample_collaborators)
          [mkEntry "b" "b" "" "f" 0%N; mkEntry "c" "c" "" "f" 0%N]
          [mkEntry "a" "a" "" "f" 0%N; mkEntry "b" "b" "" "f" 0%N] key_compiled
        ∪ remaining_entry_hashes (H := sample_collaborators)
          [mkEntry "b" "b" "" "f" 0%N; mkEntry "c" "c" "" "f" 0%N]
          [mkEntry "a" "a" "" "f" 0%N; mkEntry "b" "b" "" "f" 0%N] key_compiled.
Proof.
  eexists. split; [vm_compute; reflexivity|]. split; [reflexivity|].
  intros Heq.
  assert (Hin : "a"%string
                ∈@{gset Hash}
                list_to_set
                  (map (λ p, hash_func (H := sample_collaborators) key_compiled p.2)
                     (preserved_part
                        [(1%Z, mkEntry "b" "b" "" "f" 0%N);
                         ((-1)%Z, mkEntry "c" "c" "" "f" 0%N)]))).
  { rewrite Heq. apply elem_of_union. right. unfold remaining_entry_hashes.
    apply elem_of_difference. rewrite !elem_of_list_to_set. simpl.
    rewrite !elem_of_cons, !elem_of_nil.
    split; [by left|]. intros [?|[?|[]]]; discriminate. }
  apply elem_of_list_to_set in Hin. vm_compute in Hin.
  apply list_elem_of_singleton in Hin. discriminate.
Qed.

(** ** The local [grouper] *)

Lemma grouper_go_spec {A} (max_n : nat) (chunk l : list A) :
  length chunk < max_n →
  concat (grouper_go max_n chunk l) = chunk ++ l
  ∧ Forall (λ b, 0 < length b ≤ max_n) (grouper_go max_n chunk l).
Proof.
  revert chunk. induction l as [|x l IH]; intros chunk Hlen; simpl.
  - destruct chunk as [|y chunk]; simpl.
    + by split.
    + rewrite !app_nil_r. split; [done|].
      constructor; [simpl in *; lia | constructor].
  - case_decide as Hfull.
    + destruct (IH []) as [Hc Hall]; [simpl; lia|].
      simpl. rewrite Hc. simpl. rewrite <- app_assoc. split; [done|].
      constructor; [|done]. rewrite Hfull. lia.
    + rewrite length_app in Hfull. simpl in Hfull.
      destruct (IH (chunk ++ [x])) as [Hc Hall].
      { rewrite length_app. simpl. lia. }
      rewrite Hc, <- app_assoc. by split.
Qed.

Lemma grouper_spec {A} (l : list A) (max_n : nat) :
  (l = [] ∨ 0 < max_n) →
  concat (grouper l max_n) = l
  ∧ Forall (λ b, 0 < length b ≤ max_n) (grouper l max_n).
Proof.
  intros Hl. unfold grouper. case_decide as Hz.
  - destruct Hl as [->|?]; [by split | lia].
  - apply (grouper_go_spec max_n [] l). simpl. lia.
Qed.

Lemma grouper_go_fill {A} (max_n : nat) (chunk l1 l2 : list A) :
  length chunk + length l1 < max_n →
  grouper_go max_n chunk (l1 ++ l2) = grouper_go max_n (chunk ++ l1) l2.
Proof.
  revert chunk. induction l1 as [|x l1 IH]; intros chunk Hlen; simpl.
  - by rewrite app_nil_r.
  - simpl in Hlen. rewrite decide_False by (rewrite length_app; simpl; lia).
    rewrite IH by (rewrite length_app; simpl; lia).
    by rewrite <- app_assoc.
Qed.

Lemma grouper_go_full {A} (max_n : nat) (l1 l2 : list A) :
  0 < max_n → length l1 = max_n →
  grouper_go max_n [] (l1 ++ l2) = l1 :: grouper_go max_n [] l2.
Proof.
  intros Hpos Hlen.
  destruct (decide (l1 = [])) as [->|Hne]; [simpl in Hlen; lia|].
  destruct (exists_last Hne) as (front & x & ->).
  rewrite length_app in Hlen. simpl in Hlen.
  rewrite <- app_assoc. rewrite grouper_go_fill by (simpl; lia).
  simpl. rewrite decide_True by (rewrite length_app; simpl; lia). done.
Qed.

Lemma grouper_go_short {A} (max_n : nat) (l : list A) :
  length l < max_n → l ≠ [] → grouper_go max_n [] l = [l].
Proof.
  intros Hlen Hne. rewrite <- (app_nil_r l) at 1.
  rewrite grouper_go_fill by (simpl; lia). simpl.
  by destruct l.
Qed.

Lemma grouper_go_lookup {A} (max_n : nat) (l : list A) (i : nat) :
  0 < max_n →
  grouper_go max_n [] l !! i
  = if decide (i * max_n < length l)
    then Some (take max_n (drop (i * max_n) l)) else None.
Proof.
  intros Hpos. revert l. induction i as [|i IH]; intros l.
  - simpl. rewrite drop_0. destruct (decide (0 < length l)) as [Hl|Hl].
    + destruct (decide (length l < max_n)) as [Hshort|Hlong].
      * rewrite grouper_go_short; [|done|by destruct l; [simpl in Hl; lia|]].
        simpl. by rewrite take_ge by lia.
      * rewrite <- (take_drop max_n l) at 1.
        rewrite grouper_go_full; [done|done|].
        rewrite length_take. lia.
    + destruct l; [done | simpl in Hl; lia].
  - destruct (decide (length l < max_n)) as [Hshort|Hlong].
    + rewrite decide_False by nia.
      destruct (decide (l = [])) as [->|Hne]; [done|].
      by rewrite grouper_go_short.
    + rewrite <- (take_drop max_n l) at 1.
      rewrite grouper_go_full; [|done|rewrite length_take; lia].
      simpl. rewrite IH, length_drop, drop_drop.
      replace (max_n + i * max_n) with (S i * max_n) by lia.
      destruct (decide (i * max_n < length l - max_n));
        [rewrite decide_True by lia | rewrite decide_False by lia]; done.
Qed.






(** ** The monad *)

Section MonadFacts.

Context `{Collaborators}.

Lemma bind_Ok {A B} (m : M A) (k : A → M B) st a st' :
  m st = (Ok a, st') → bind m k st = k a st'.
Proof. unfold bind. by intros ->. Qed.

Lemma bind_Raise {A B} (m : M A) (k : A → M B) st e st' :
  m st = (Raise e, st') → bind m k st = (Raise e, st').
Proof. unfold bind. by intros ->. Qed.

(** Loop invariants: [I] holds of the items done, the counter and the
    state after every turn that returns; [E] holds of the state a raise
    leaves behind. *)
Lemma foldM_invariant {A B} (I : list A → B → Run → Prop)
    (E : exn → Run → Prop) (body : B → A → M B) (l : list A) :
  (∀ pre x rest acc st,
     l = pre ++ x :: rest → I pre acc st →
     match body acc x st with
     | (Ok acc', st') => I (pre ++ [x]) acc' st'
     | (Raise e, st') => E e st'
     end) →
  ∀ acc st, I [] acc st →
  match foldM body acc l st with
  | (Ok acc', st') => I l acc' st'
  | (Raise e, st') => E e st'
  end.
Proof.
  intros Hbody.
  assert (Hgen : ∀ rest pre acc st,
            l = pre ++ rest → I pre acc st →
            match foldM body acc rest st with
            | (Ok acc', st') => I l acc' st'
            | (Raise e, st') => E e st'
            end).
  { induction rest as [|x rest IH]; intros pre acc st Hl HI; simpl.
    - unfold ret. rewrite app_nil_r in Hl. by subst.
    - specialize (Hbody pre x rest acc st Hl HI). unfold bind.
      destruct (body acc x st) as [[acc'|e] st']; [|done].
      apply (IH (pre ++ [x])); [|done]. by rewrite <- app_assoc. }
  intros acc st HI. by apply (Hgen l []).
Qed.

Lemma foldM_total {A B} (I : list A → B → Run → Prop)
    (body : B → A → M B) (l : list A) :
  (∀ pre x rest acc st,
     l = pre ++ x :: rest → I pre acc st →
     ∃ acc' st', body acc x st = (Ok acc', st') ∧ I (pre ++ [x]) acc' st') →
  ∀ acc st, I [] acc st →
  ∃ acc' st', foldM body acc l st = (Ok acc', st') ∧ I l acc' st'.
Proof.
  intros Hbody acc st HI.
  pose proof (foldM_invariant I (λ _ _, False) body l) as Hinv.
  destruct (foldM body acc l st) as [[acc'|e] st'] eqn:Hrun.
  - exists acc', st'. split; [done|].
    specialize (Hinv ltac:(intros pre x rest a s Hl Ha;
      destruct (Hbody pre x rest a s Hl Ha) as (a' & s' & -> & ?); done)
      acc st HI).
    by rewrite Hrun in Hinv.
  - exfalso.
    specialize (Hinv ltac:(intros pre x rest a s Hl Ha;
      destruct (Hbody pre x rest a s Hl Ha) as (a' & s' & -> & ?); done)
      acc st HI).
    by rewrite Hrun in Hinv.
Qed.

End MonadFacts.

(** ** The index updater *)

Section UpdaterFacts.

Context `{Collaborators}.

Lemma created_rows_app cs1 cs2 :
  created_rows (cs1 ++ cs2) = created_rows cs1 ++ created_rows cs2.
Proof. unfold created_rows. apply flat_map_app. Qed.

Lemma created_rows_bulk rowss :
  created_rows (map BulkCreate rowss) = concat rowss.
Proof.
  induction rowss as [|rows rowss IH]; [done|].
  change (created_rows (map BulkCreate (rows :: rowss)))
    with (rows ++ created_rows (map BulkCreate rowss)).
  by rewrite IH.
Qed.

Lemma getitems_Ok (d : gmap Hash Entry) hashes :
  (∀ h, h ∈ hashes → is_Some (d !! h)) →
  result_mapM (py_getitem d) hashes = Ok (omap (d !!.) hashes)
  ∧ length (omap (d !!.) hashes) = length hashes.
Proof.
  induction hashes as [|h hashes IH]; intros Hd; simpl; [done|].
  destruct (Hd h) as [entry He]; [left|].
  destruct IH as [IH1 IH2]. { intros h' Hh'. apply Hd. by right. }
  unfold py_getitem at 1. rewrite He. simpl. rewrite IH1. simpl.
  split; [reflexivity | f_equal; exact IH2].
Qed.

Lemma made_from_with_pk user file_type d h r n :
  made_from user file_type d h r → made_from user file_type d h (with_pk n r).
Proof. intros (entry & He & Hrow). by exists entry. Qed.

Lemma Forall2_imap_with_pk {A} (P : A → Embeddings.t → Prop) (g : nat → nat) l rows :
  (∀ x r n, P x r → P x (with_pk n r)) →
  Forall2 P l rows →
  Forall2 P l (imap (λ i r, with_pk (g i) r) rows).
Proof.
  intros HP Hall. revert g.
  induction Hall as [|x r l rows Hxr _ IH]; intros g; simpl; [constructor|].
  constructor; [by apply HP|]. apply (IH (g ∘ S)).
Qed.

Lemma new_embeddings_Ok user file_type d (batch : list (Hash * Vector)) :
  (∀ hv, hv ∈ batch → is_Some (d !! hv.1)) →
  ∃ rows, result_mapM (new_embedding user file_type d) batch = Ok rows
          ∧ Forall2 (λ hv r, made_from user file_type d hv.1 r) batch rows.
Proof.
  intros Hd. apply result_mapM_Forall2. intros hv Hhv.
  destruct (Hd hv Hhv) as [entry He].
  unfold new_embedding, py_getitem. rewrite He. simpl.
  eexists. split; [done|]. exists entry. split; [done|].
  by unfold row_of.
Qed.

Lemma create_batch_Ok user file_type d n batch st rows :
  result_mapM (new_embedding user file_type d) batch = Ok rows →
  create_batch user file_type d n batch st
  = (Ok (n + length rows),
     {| db :=
          {| embeddings_table :=
               embeddings_table (db st)
               ++ imap (λ i r, with_pk (next_pk (db st) + i) r) rows;
             dates_table :=
               dates_table (db st)
               ++ dates_of (imap (λ i r, with_pk (next_pk (db st) + i) r) rows);
             next_pk := next_pk (db st) + length rows |};
        calls := calls st ++ [BulkCreate rows] |}).
Proof.
  intros Hrows. unfold create_batch, bind, lift, log_call, write_db, ret.
  rewrite Hrows. simpl. by rewrite length_imap.
Qed.

Lemma create_batches_spec user file_type d batches :
  ∀ n st,
  (∀ b hv, b ∈ batches → hv ∈ b → is_Some (d !! hv.1)) →
  ∃ rowss saved st',
    foldM (create_batch user file_type d) n batches st
    = (Ok (n + length (concat batches)), st')
    ∧ calls st' = calls st ++ map BulkCreate rowss
    ∧ Forall2 (λ b rows, length b = length rows) batches rowss
    ∧ Forall2 (λ hv r, made_from user file_type d hv.1 r)
              (concat batches) (concat rowss)
    ∧ embeddings_table (db st') = embeddings_table (db st) ++ saved
    ∧ Forall2 (λ hv r, made_from user file_type d hv.1 r)
              (concat batches) saved.
Proof.
  induction batches as [|b batches IH]; intros n st Hd; simpl.
  - exists [], [], st. unfold ret. rewrite Nat.add_0_r, !app_nil_r.
    split_and!; by try constructor.
  - destruct (new_embeddings_Ok user file_type d b) as (rows & Hrows & Hmade).
    { intros hv Hhv. eapply Hd; [left | done]. }
    pose proof (Forall2_length _ _ _ Hmade) as Hlen.
    rewrite (bind_Ok _ _ _ _ _ (create_batch_Ok user file_type d n b st rows Hrows)).
    match goal with |- context [foldM _ ?n' batches ?st1] =>
      destruct (IH n' st1) as (rowss & saved & st' & Hrun & Hcalls & Hlens
                               & Hmade_rows & Htable & Hmade_saved)
    end.
    { intros b' hv Hb' Hhv. eapply Hd; [by right | done]. }
    exists (rows :: rowss),
      (imap (λ i r, with_pk (next_pk (db st) + i) r) rows ++ saved), st'.
    rewrite Hrun, Hcalls, Htable. simpl.
    rewrite length_app, <- !app_assoc. simpl.
    split_and!.
    + do 2 f_equal. lia.
    + done.
    + by constructor.
    + by apply Forall2_app.
    + done.
    + apply Forall2_app; [|done].
      apply Forall2_imap_with_pk; [|done].
      intros. by apply made_from_with_pk.
Qed.

Lemma Forall2_zip_fst {A B C} (P : A → C → Prop) (l : list A) (k : list B) rows :
  length l = length k →
  Forall2 (λ ab r, P ab.1 r) (zip l k) rows → Forall2 P l rows.
Proof.
  revert k rows. induction l as [|a l IH]; intros [|b k] rows Hlen Hall;
    simpl in *; try done.
  - by inversion Hall.
  - inversion Hall; subst. constructor; [done|]. eapply IH; [|done]. lia.
Qed.

Lemma Forall2_same_length_Forall {A B} (P : nat → Prop)
    (ls : list (list A)) (ks : list (list B)) :
  Forall2 (λ l k, length l = length k) ls ks →
  Forall (λ l, P (length l)) ls → Forall (λ k, P (length k)) ks.
Proof.
  induction 1 as [|l k ls ks Hlk _ IH]; intros Hall; [constructor|].
  inversion Hall; subst. constructor; [by rewrite <- Hlk | by apply IH].
Qed.

(** One turn of the first loop. When the model answers with as many
    vectors as texts, the turn saves one row for every hash the store
    lacked, in batches of at most [min 200 n]; otherwise it raises after
    the model call, with the store as it was. *)
Lemma process_file_cases user file_type key d n (item : string * gset Hash) st :
  (∀ h, h ∈ item.2 → is_Some (d !! h)) →
  let hashes := elements (hashes_to_process user file_type item.2 (db st)) in
  let texts := data_to_embed d key hashes in
  if decide (length (embed_documents texts) = length texts) then
    ∃ rowss saved st',
      process_file user file_type key d n item st
      = (Ok (n + length hashes), st')
      ∧ calls st' = calls st ++ EmbedDocuments texts :: map BulkCreate rowss
      ∧ length (concat rowss) = length texts
      ∧ Forall (λ rows, 0 < length rows ≤ 200 `min` length texts) rowss
      ∧ Forall2 (made_from user file_type d) hashes (concat rowss)
      ∧ embeddings_table (db st') = embeddings_table (db st) ++ saved
      ∧ Forall2 (made_from user file_type d) hashes saved
  else
    process_file user file_type key d n item st
    = (Raise AssertionError,
       {| db := db st; calls := calls st ++ [EmbedDocuments texts] |}).
Proof.
  intros Hd hashes texts.
  assert (Hdh : ∀ h, h ∈ hashes → is_Some (d !! h)).
  { intros h Hh. apply Hd. apply elem_of_elements in Hh.
    unfold hashes_to_process in Hh. by apply elem_of_difference in Hh as [Hh _]. }
  destruct (getitems_Ok d hashes Hdh) as [Hget Hlen].
  assert (Htexts : length texts = length hashes).
  { unfold texts, data_to_embed. by rewrite length_map. }
  assert (Hstep :
    process_file user file_type key d n item st
    = (if decide (length texts = length (embed_documents texts)) then
         foldM (create_batch user file_type d) n
           (grouper (zip hashes (embed_documents texts))
                    (200 `min` length texts))
       else raise AssertionError)
        {| db := db st; calls := calls st ++ [EmbedDocuments texts] |}).
  { unfold process_file, read_db, lift, log_call, bind. fold hashes.
    rewrite Hget. fold (data_to_embed d key hashes). fold texts.
    change (size (hashes_to_process user file_type item.2 (db st)))
      with (length hashes).
    by rewrite <- Htexts. }
  rewrite Hstep. clear Hstep.
  destruct (decide (length (embed_documents texts) = length texts)) as [Heq|Hne].
  - rewrite decide_True by done.
    set (zipped := zip hashes (embed_documents texts)).
    assert (Hzlen : length zipped = length texts).
    { unfold zipped. rewrite length_zip. lia. }
    destruct (grouper_spec zipped (200 `min` length texts)) as [Hconcat Hsizes].
    { destruct zipped; [by left|]. right. simpl in Hzlen. lia. }
    match goal with |- context [foldM _ n ?bs ?st1] =>
      destruct (create_batches_spec user file_type d bs n st1)
        as (rowss & saved & st' & Hrun & Hcalls & Hlens & Hmade_rows
            & Htable & Hmade_saved)
    end.
    { intros b hv Hb Hhv. apply Hdh.
      assert (Hin : hv ∈ zipped).
      { rewrite <- Hconcat. apply elem_of_concat. by exists b. }
      unfold zipped in Hin. destruct hv as [h v].
      apply elem_of_zip_l in Hin. exact Hin. }
    rewrite Hconcat in Hrun, Hmade_rows, Hmade_saved.
    exists rowss, saved, st'. rewrite Hrun, Hcalls, Htable. simpl.
    rewrite <- app_assoc. simpl.
    assert (Hzh : length hashes = length (embed_documents texts)) by lia.
    split_and!.
    + do 2 f_equal. lia.
    + done.
    + apply Forall2_length in Hmade_rows. lia.
    + exact (Forall2_same_length_Forall
               (λ m, 0 < m ≤ 200 `min` length texts) _ _ Hlens Hsizes).
    + by apply (Forall2_zip_fst _ _ _ _ Hzh).
    + done.
    + by apply (Forall2_zip_fst _ _ _ _ Hzh).
  - rewrite decide_False by congruence. done.
Qed.

(** *** [hashes_by_file] *)

Lemma setdefault_add_fst f h l f' :
  f' ∈ map fst (setdefault_add f h l) ↔ f' ∈ map fst l ∨ f' = f.
Proof.
  induction l as [|[g hs] l IH]; simpl.
  - rewrite list_elem_of_singleton. split; [by right|].
    by intros [?%elem_of_nil|?].
  - case_decide as Hg; simpl.
    + subst. rewrite !elem_of_cons. tauto.
    + rewrite !elem_of_cons, IH. tauto.
Qed.

Lemma setdefault_add_NoDup f h l :
  NoDup (map fst l) → NoDup (map fst (setdefault_add f h l)).
Proof.
  induction l as [|[g hs] l IH]; simpl; intros Hnd.
  - apply NoDup_singleton.
  - apply NoDup_cons in Hnd as [Hnin Hnd]. case_decide as Hg; simpl.
    + by apply NoDup_cons.
    + apply NoDup_cons. split; [|by apply IH].
      rewrite setdefault_add_fst. intros [?|?]; [done | by subst].
Qed.

Lemma setdefault_add_elem f h l f' hs' :
  NoDup (map fst l) →
  (f', hs') ∈ setdefault_add f h l →
  ((f', hs') ∈ l ∧ f' ≠ f)
  ∨ (f' = f ∧ ∃ hs, hs' = hs ∪ {[h]}
                    ∧ ((f, hs) ∈ l ∨ (hs = ∅ ∧ f ∉ map fst l))).
Proof.
  induction l as [|[g hs] l IH]; simpl; intros Hnd.
  - intros Hin%list_elem_of_singleton. injection Hin as -> ->.
    right. split; [done|]. exists ∅. split; [by rewrite union_empty_l_L|].
    right. split; [done | apply not_elem_of_nil].
  - apply NoDup_cons in Hnd as [Hnin Hnd]. case_decide as Hg.
    + subst. intros [Heq|Hin]%elem_of_cons.
      * injection Heq as -> ->. right. split; [done|].
        exists hs. split; [done|]. left. left.
      * left. split; [by right|]. intros ->. apply Hnin.
        apply list_elem_of_fmap. by exists (f, hs').
    + intros [Heq|Hin]%elem_of_cons.
      * injection Heq as -> ->. left. split; [left | done].
      * destruct (IH Hnd Hin) as [[Hl Hne]|(-> & hs0 & -> & Hcase)].
        -- left. split; [by right | done].
        -- right. split; [done|]. exists hs0. split; [done|].
           destruct Hcase as [Hl|[-> Hnin']].
           ++ left. by right.
           ++ right. split; [done|]. rewrite not_elem_of_cons. done.
Qed.

Lemma build_hashes_by_file_snoc entries entry key :
  build_hashes_by_file (entries ++ [entry]) key
  = setdefault_add (file entry) (hash_func key entry)
      (build_hashes_by_file entries key).
Proof. unfold build_hashes_by_file. by rewrite foldl_app. Qed.

Lemma build_hashes_by_file_NoDup entries key :
  NoDup (map fst (build_hashes_by_file entries key)).
Proof.
  induction entries as [|entry entries IH] using rev_ind.
  - constructor.
  - rewrite build_hashes_by_file_snoc. by apply setdefault_add_NoDup.
Qed.

Lemma elem_of_snoc {A} (l : list A) (x y : A) :
  y ∈ l ++ [x] ↔ y ∈ l ∨ y = x.
Proof. by rewrite elem_of_app, list_elem_of_singleton. Qed.

Lemma build_hashes_by_file_ok entries key :
  hashes_by_file_ok key entries (build_hashes_by_file entries key).
Proof.
  induction entries as [|entry entries [IHkeys IHsets]] using rev_ind.
  - split; [by intros ? ?%elem_of_nil | by intros ? ? ?%elem_of_nil].
  - rewrite build_hashes_by_file_snoc. split.
    + intros e [He| ->]%elem_of_snoc;
        apply setdefault_add_fst; [left; by apply IHkeys | by right].
    + intros f hs Hin.
      apply setdefault_add_elem in Hin
          as [[Hl Hne]|(-> & hs0 & -> & Hcase)];
        [| |apply build_hashes_by_file_NoDup].
      * destruct (IHsets f hs Hl) as [(e & He & Hf) Hhs]. split.
        { exists e. split; [apply elem_of_snoc; by left | done]. }
        intros h. rewrite Hhs. split.
        -- intros (e' & He' & Hf' & Hh').
           exists e'. split; [apply elem_of_snoc; by left | done].
        -- intros (e' & [He'| ->]%elem_of_snoc & Hf' & Hh');
             [by exists e' | done].
      * split.
        { exists entry. split; [apply elem_of_snoc; by right | done]. }
        intros h. rewrite elem_of_union, elem_of_singleton.
        destruct Hcase as [Hl|[-> Hnin]].
        -- destruct (IHsets _ hs0 Hl) as [_ Hhs]. rewrite Hhs. split.
           ++ intros [(e' & He' & Hf' & Hh')| ->].
              ** exists e'. split; [apply elem_of_snoc; by left | done].
              ** exists entry. split; [apply elem_of_snoc; by right | done].
           ++ intros (e' & [He'| ->]%elem_of_snoc & Hf' & Hh');
                [left; by exists e' | by right].
        -- split.
           ++ intros [?%not_elem_of_empty| ->]; [done|].
              exists entry. split; [apply elem_of_snoc; by right | done].
           ++ intros (e' & [He'| ->]%elem_of_snoc & Hf' & Hh'); [|by right].
              exfalso. apply Hnin. rewrite <- Hf'. by apply IHkeys.
Qed.

Lemma hashes_by_file_in_dict entries key f hs h :
  (f, hs) ∈ build_hashes_by_file entries key → h ∈ hs →
  is_Some (hash_to_entries key entries !! h).
Proof.
  intros Hin Hh.
  destruct (build_hashes_by_file_ok entries key) as [_ Hsets].
  destruct (Hsets f hs Hin) as [_ Hhs].
  apply Hhs in Hh as (e & He & _ & <-).
  apply hash_dict_is_Some. apply list_elem_of_fmap. by exists e.
Qed.

Lemma filter_map_iff {A B} (f : A → B) (P : B → Prop) (Q : A → Prop)
    `{∀ y, Decision (P y)} `{∀ x, Decision (Q x)} (l : list A) :
  (∀ x, Q x ↔ P (f x)) →
  filter P (map f l) = map f (filter Q l).
Proof.
  intros HPQ. induction l as [|x l IH]; simpl; [done|].
  rewrite !filter_cons. destruct (decide (P (f x))) as [HP|HP].
  - rewrite decide_True by (by apply HPQ). simpl. by rewrite IH.
  - rewrite decide_False by (by rewrite HPQ). exact IH.
Qed.

(** [hash_to_entries[h]] is the last entry of the list with hash [h]. *)
Lemma hash_to_entries_last key entries h :
  hash_to_entries key entries !! h
  = last (filter (λ entry, hash_func key entry = h) entries).
Proof.
  unfold hash_to_entries. rewrite py_dict_lookup, zip_map_self.
  rewrite (filter_map_iff (λ x, (hash_func key x, x))
             (λ kv : Hash * Entry, kv.1 = h)
             (λ entry, hash_func key entry = h)) by done.
  rewrite fmap_last.
  by destruct (last (filter _ entries)).
Qed.

End UpdaterFacts.

Section RunFacts.

Context `{Collaborators}.

Lemma delete_stale_run user nd item st :
  delete_stale user nd item st
  = (Ok (nd + size (stale_hashes user item (db st))),
     {| db := (delete_embedding_by_hash user
                 (elements (stale_hashes user item (db st))) (db st)).2;
        calls := calls st |}).
Proof. done. Qed.

Lemma delete_file_run user nd file_path st :
  delete_file user nd file_path st
  = (Ok (nd + (delete_embedding_by_file user file_path (db st)).1),
     {| db := (delete_embedding_by_file user file_path (db st)).2;
        calls := calls st |}).
Proof. done. Qed.

Lemma stale_loop_total user files nd st :
  ∃ nd' st', foldM (delete_stale user) nd files st = (Ok nd', st')
             ∧ calls st' = calls st.
Proof.
  apply (foldM_total (λ _ _ st', calls st' = calls st)); [|done].
  intros pre item rest acc st1 _ Hc. rewrite delete_stale_run.
  by eexists _, _.
Qed.

Lemma deletion_loop_total user files nd st :
  ∃ nd' st', foldM (delete_file user) nd files st = (Ok nd', st')
             ∧ calls st' = calls st.
Proof.
  apply (foldM_total (λ _ _ st', calls st' = calls st)); [|done].
  intros pre item rest acc st1 _ Hc. rewrite delete_file_run.
  by eexists _, _.
Qed.

(** A run is the creation loop, and, when that returns, the two deletion
    loops, which always return and call no collaborator. *)
Lemma update_embeddings_run current file_type key deletion_filenames user
    regenerate st :
  match foldM (process_file user file_type key (hash_to_entries key current))
              0 (build_hashes_by_file current key)
              {| db := after_regenerate user file_type regenerate (db st);
                 calls := calls st |} with
  | (Raise e, stB) =>
      update_embeddings current file_type key deletion_filenames user
        regenerate st = (Raise e, stB)
  | (Ok num_new, stB) =>
      ∃ nd nd' stC stD,
        foldM (delete_stale user) nd (build_hashes_by_file current key) stB
        = (Ok nd', stC)
        ∧ match deletion_filenames with
          | Some filenames =>
              ∃ nd'', foldM (delete_file user) nd' (elements filenames) stC
                      = (Ok nd'', stD)
                      ∧ update_embeddings current file_type key
                          deletion_filenames user regenerate st
                        = (Ok (num_new, nd''), stD)
          | None =>
              stD = stC
              ∧ update_embeddings current file_type key deletion_filenames
                  user regenerate st = (Ok (num_new, nd'), stD)
          end
        ∧ calls stD = calls stB
        ∧ (regenerate = false → nd = 0)
  end.
Proof.
  unfold update_embeddings.
  set (stA := {| db := after_regenerate user file_type regenerate (db st);
                 calls := calls st |}).
  set (nd := if regenerate
             then (delete_all_embeddings user file_type (db st)).1 else 0).
  assert (HA : (if regenerate
                then write_db (delete_all_embeddings user file_type)
                else ret 0) st = (Ok nd, stA)).
  { unfold stA, nd, after_regenerate. destruct regenerate.
    - unfold write_db. by destruct (delete_all_embeddings user file_type (db st)).
    - unfold ret. by destruct st. }
  rewrite (bind_Ok _ _ _ _ _ HA).
  destruct (foldM (process_file user file_type key (hash_to_entries key current))
              0 (build_hashes_by_file current key) stA)
    as [[num_new|e] stB] eqn:HB.
  - rewrite (bind_Ok _ _ _ _ _ HB).
    destruct (stale_loop_total user (build_hashes_by_file current key) nd stB)
      as (nd' & stC & HC & HcC).
    rewrite (bind_Ok _ _ _ _ _ HC).
    destruct deletion_filenames as [filenames|].
    + destruct (deletion_loop_total user (elements filenames) nd' stC)
        as (nd'' & stD & HD & HcD).
      rewrite (bind_Ok _ _ _ _ _ HD).
      exists nd, nd', stC, stD. split; [done|]. split; [by exists nd''|].
      split; [congruence|]. intros ->. done.
    + exists nd, nd', stC, stC. split; [done|]. split; [done|].
      split; [done|]. intros ->. done.
  - by rewrite (bind_Raise _ _ _ _ _ HB).
Qed.

Lemma item_in_dict current key (pre rest : list (string * gset Hash)) item :
  build_hashes_by_file current key = pre ++ item :: rest →
  ∀ h, h ∈ item.2 → is_Some (hash_to_entries key current !! h).
Proof.
  intros Hsplit h Hh. destruct item as [f hs].
  apply (hashes_by_file_in_dict current key f hs); [|done].
  rewrite Hsplit. apply elem_of_app. right. left.
Qed.

Lemma Forall2_elem_of_l {A B} (P : A → B → Prop) l k x :
  Forall2 P l k → x ∈ l → ∃ y, y ∈ k ∧ P x y.
Proof.
  induction 1 as [|a b l k Hab _ IH]; [by intros ?%elem_of_nil|].
  intros [->|Hx]%elem_of_cons.
  - exists b. split; [left | done].
  - destruct (IH Hx) as (y & Hy & HP). exists y. split; [by right | done].
Qed.

Lemma hashes_to_process_spec user file_type (hs : gset Hash) s h :
  h ∈ hashes_to_process user file_type hs s
  ↔ h ∈ hs
    ∧ ¬ ∃ r, r ∈ embeddings_table s
             ∧ Embeddings.user r = user
             ∧ Embeddings.file_type r = file_type
             ∧ Embeddings.hashed_value r = h.
Proof.
  unfold hashes_to_process, objects_filter.
  rewrite elem_of_difference, elem_of_list_to_set, list_elem_of_fmap.
  split; intros [Hh Hno]; (split; [done|]).
  - intros (r & Hr & Hu & Ht & Hhash). apply Hno. exists r. split; [done|].
    apply list_elem_of_filter. subst. done.
  - intros (r & -> & Hr). apply list_elem_of_filter in Hr as [(Hu & _ & Ht) Hr].
    apply Hno. by exists r.
Qed.

Lemma made_from_fields user file_type d h r :
  made_from user file_type d h r →
  Embeddings.user r = user ∧ Embeddings.file_type r = file_type
  ∧ Embeddings.hashed_value r = h.
Proof. intros (entry & _ & Hrow). unfold row_of in Hrow. tauto. Qed.

Lemma creation_loop_rows current file_type key user st :
  calls st = [] →
  match foldM (process_file user file_type key (hash_to_entries key current))
              0 (build_hashes_by_file current key) st with
  | (_, st') => rows_invariant user file_type (hash_to_entries key current) st'
  end.
Proof.
  intros Hstart.
  pose proof (foldM_invariant
           (λ _ _ st', rows_invariant user file_type
                         (hash_to_entries key current) st')
           (λ _ st', rows_invariant user file_type
                       (hash_to_entries key current) st')
           (process_file user file_type key (hash_to_entries key current))
           (build_hashes_by_file current key)) as Hinv.
  match goal with |- match ?run with _ => _ end =>
    assert (Hgoal : match run with
                    | (Ok _, st') | (Raise _, st') =>
                        rows_invariant user file_type
                          (hash_to_entries key current) st'
                    end); [|by destruct run as [[?|?] ?]]
  end.
  apply Hinv; clear Hinv.
  - intros pre item rest n st1 Hsplit (hs & Hnd & Hmade & Hsaved).
    pose proof (process_file_cases user file_type key
                  (hash_to_entries key current) n item st1
                  (item_in_dict current key pre rest item Hsplit)) as Hcase.
    simpl in Hcase. case_decide as Hmatch.
    + destruct Hcase as (rowss & saved & st' & -> & Hcalls' & _ & _
                         & Hmade_rows & Htable & Hmade_saved).
      exists (hs ++ elements (hashes_to_process user file_type item.2 (db st1))).
      split_and!.
      * apply NoDup_app. split; [done|]. split; [|apply NoDup_elements].
        intros h Hh Hnew. apply elem_of_elements in Hnew.
        apply hashes_to_process_spec in Hnew as [_ Hno]. apply Hno.
        by apply Hsaved.
      * rewrite Hcalls', created_rows_app.
        change (created_rows (EmbedDocuments ?t :: ?cs)) with (created_rows cs).
        rewrite created_rows_bulk. by apply Forall2_app.
      * intros h [Hh|Hh]%elem_of_app.
        -- destruct (Hsaved h Hh) as (r & Hr & Hfields).
           exists r. split; [|done]. rewrite Htable. apply elem_of_app. by left.
        -- destruct (Forall2_elem_of_l _ _ _ _ Hmade_saved Hh) as (r & Hr & Hm).
           exists r. split; [rewrite Htable; apply elem_of_app; by right|].
           by apply (made_from_fields _ _ _ _ _ Hm).
    + rewrite Hcase. exists hs. split; [done|]. simpl. split; [|done].
      rewrite created_rows_app. simpl. by rewrite app_nil_r.
  - exists []. rewrite Hstart. split; [constructor|]. split; [constructor|].
    by intros h ?%elem_of_nil.
Qed.

End RunFacts.

(** C10. Among the rows one run hands to [bulk_create] no two have the
    same hash, whatever files the entries with that hash belong to, and
    every such row takes its owner, content type, [raw], [compiled],
    [file_path] and [corpus_id], and the first 1000 characters of its
    heading, from the last entry of the input list with that hash. *)
Theorem update_embeddings_one_row_per_hash `{Collaborators}
    (current_entries : list Entry) (file_type : string) (key : Key)
    (deletion_filenames : option (gset string)) (user : KhojUser)
    (regenerate : bool) (s : Store) :
  let rows :=
    created_rows
      (calls (run_update current_entries file_type key deletion_filenames
                user regenerate s).2) in
  NoDup (map Embeddings.hashed_value rows)
  ∧ Forall
      (λ r, ∃ entry,
         last (filter (λ e, hash_func key e = Embeddings.hashed_value r)
                      current_entries) = Some entry
         ∧ row_of user file_type entry (Embeddings.hashed_value r) r)
      rows.
Proof.
  unfold run_update.
  pose proof (update_embeddings_run current_entries file_type key
                deletion_filenames user regenerate {| db := s; calls := [] |})
    as Hphases.
  pose proof (creation_loop_rows current_entries file_type key user
                {| db := after_regenerate user file_type regenerate s;
                   calls := [] |} eq_refl) as Hloop.
  simpl in Hphases.
  destruct (foldM _ 0 _ _) as [[num_new|e] stB].
  - destruct Hphases as (nd & nd' & stC & stD & _ & Hrest & HcD & _).
    assert (Hcalls : calls (update_embeddings current_entries file_type key
                deletion_filenames user regenerate {| db := s; calls := [] |}).2
                     = calls stB).
    { destruct deletion_filenames.
      - destruct Hrest as (nd'' & _ & ->). done.
      - destruct Hrest as [_ ->]. done. }
    simpl. rewrite Hcalls. clear Hcalls Hrest.
    destruct Hloop as (hs & Hnd & Hmade & _).
    split.
    + assert (map Embeddings.hashed_value (created_rows (calls stB)) = hs) as ->;
        [|done].
      clear Hnd. induction Hmade as [|h r hs rows Hm _ IH]; simpl; [done|].
      destruct (made_from_fields _ _ _ _ _ Hm) as (_ & _ & ->). by rewrite IH.
    + clear Hnd. induction Hmade as [|h r hs rows Hm _ IH]; constructor; [|done].
      destruct Hm as (entry & Hd & Hrow). exists entry.
      assert (Embeddings.hashed_value r = h) as -> by (unfold row_of in Hrow; tauto).
      split; [|done]. by rewrite <- hash_to_entries_last.
  - rewrite Hphases. simpl.
    destruct Hloop as (hs & Hnd & Hmade & _).
    split.
    + assert (map Embeddings.hashed_value (created_rows (calls stB)) = hs) as ->;
        [|done].
      clear Hnd. induction Hmade as [|h r hs rows Hm _ IH]; simpl; [done|].
      destruct (made_from_fields _ _ _ _ _ Hm) as (_ & _ & ->). by rewrite IH.
    + clear Hnd. induction Hmade as [|h r hs rows Hm _ IH]; constructor; [|done].
      destruct Hm as (entry & Hd & Hrow). exists entry.
      assert (Embeddings.hashed_value r = h) as -> by (unfold row_of in Hrow; tauto).
      split; [|done]. by rewrite <- hash_to_entries_last.
Qed.

Section MismatchFacts.

Context `{Collaborators}.

Lemma foldM_app {A B} (body : B → A → M B) acc l1 l2 st :
  foldM body acc (l1 ++ l2) st
  = match foldM body acc l1 st with
    | (Ok acc', st') => foldM body acc' l2 st'
    | (Raise e, st') => (Raise e, st')
    end.
Proof.
  revert acc st. induction l1 as [|x l1 IH]; intros acc st; simpl; [done|].
  unfold bind. destruct (body acc x st) as [[acc'|e] st']; [apply IH | done].
Qed.

Lemma creation_loop_mismatch current file_type key user st :
  calls st = [] →
  match foldM (process_file user file_type key (hash_to_entries key current))
              0 (build_hashes_by_file current key) st with
  | (Ok _, st') => answers_match (calls st')
  | (Raise e, st') =>
      e = AssertionError
      ∧ ∃ texts, aborted_at current file_type key user st texts st'
  end.
Proof.
  intros Hstart.
  match goal with |- match ?run with _ => _ end =>
    assert (Hgoal : match run with
                    | (Ok n, st') =>
                        foldM (process_file user file_type key
                                 (hash_to_entries key current)) 0
                              (build_hashes_by_file current key) st
                        = (Ok n, st')
                        ∧ answers_match (calls st')
                    | (Raise e, st') =>
                        e = AssertionError
                        ∧ ∃ texts, aborted_at current file_type key user st
                                     texts st'
                    end); [|by destruct run as [[?|?] ?]; [destruct Hgoal|]]
  end.
  apply (foldM_invariant
           (λ pre n st',
              foldM (process_file user file_type key
                       (hash_to_entries key current)) 0 pre st = (Ok n, st')
              ∧ answers_match (calls st'))
           (λ e st',
              e = AssertionError
              ∧ ∃ texts, aborted_at current file_type key user st texts st')).
  - intros pre item rest n st1 Hsplit [Hpre Hans].
    pose proof (process_file_cases user file_type key
                  (hash_to_entries key current) n item st1
                  (item_in_dict current key pre rest item Hsplit)) as Hcase.
    simpl in Hcase. case_decide as Hmatch.
    + destruct Hcase as (rowss & saved & st' & Hstep & Hcalls' & _).
      rewrite Hstep. split.
      * rewrite foldM_app, Hpre. simpl. unfold bind. rewrite Hstep. done.
      * intros texts Hin. rewrite Hcalls' in Hin.
        apply elem_of_app in Hin as [Hin|Hin]; [by apply Hans|].
        apply elem_of_cons in Hin as [Heq|Hin].
        -- by injection Heq as ->.
        -- apply list_elem_of_fmap in Hin as (? & ? & _). discriminate.
    + rewrite Hcase. split; [done|]. eexists.
      exists pre, item, rest, n, st1. split_and!; done.
  - split; [done|]. rewrite Hstart. by intros texts ?%elem_of_nil.
Qed.

End MismatchFacts.

(** C6. If in a run the embedding model answers a call with a number of
    vectors other than the number of texts it was sent, the run raises
    [AssertionError]; it stops right after that call, with the store as
    the files before had left it, so that no row is built from those
    vectors and nothing handles the error. *)
Theorem update_embeddings_mismatch_fatal `{Collaborators}
    (current_entries : list Entry) (file_type : string) (key : Key)
    (deletion_filenames : option (gset string)) (user : KhojUser)
    (regenerate : bool) (s : Store) (texts : list string) :
  EmbedDocuments texts
  ∈ calls (run_update current_entries file_type key deletion_filenames user
             regenerate s).2 →
  length (embed_documents texts) ≠ length texts →
  (run_update current_entries file_type key deletion_filenames user
     regenerate s).1 = Raise AssertionError
  ∧ aborted_at current_entries file_type key user
      {| db := after_regenerate user file_type regenerate s; calls := [] |}
      texts
      (run_update current_entries file_type key deletion_filenames user
         regenerate s).2.
Proof.
  unfold run_update. intros Hin Hne.
  pose proof (update_embeddings_run current_entries file_type key
                deletion_filenames user regenerate {| db := s; calls := [] |})
    as Hphases.
  pose proof (creation_loop_mismatch current_entries file_type key user
                {| db := after_regenerate user file_type regenerate s;
                   calls := [] |} eq_refl) as Hloop.
  simpl in Hphases.
  destruct (foldM _ 0 _ _) as [[num_new|e] stB].
  - exfalso.
    destruct Hphases as (nd & nd' & stC & stD & _ & Hrest & HcD & _).
    assert (Hcalls : calls (update_embeddings current_entries file_type key
                deletion_filenames user regenerate {| db := s; calls := [] |}).2
                     = calls stB).
    { destruct deletion_filenames.
      - destruct Hrest as (nd'' & _ & ->). done.
      - destruct Hrest as [_ ->]. done. }
    rewrite Hcalls in Hin. apply Hne. by apply Hloop.
  - rewrite Hphases in *. simpl in *.
    destruct Hloop as (-> & texts' & Hab). split; [done|].
    destruct Hab as (pre & item & rest & n & st & Hsplit & Hpre & Hans
                     & Htexts & Hne' & ->).
    simpl in Hin. apply elem_of_app in Hin as [Hin|Hin].
    + by destruct (Hne (Hans texts Hin)).
    + apply list_elem_of_singleton in Hin. injection Hin as Heq.
      exists pre, item, rest, n, st. subst texts'. by split_and!.
Qed.

Lemma filter_all {A} (P : A → Prop) `{∀ x, Decision (P x)} (l : list A) :
  (∀ x, x ∈ l → P x) → filter P l = l.
Proof.
  induction l as [|x l IH]; intros Hall; [done|].
  rewrite filter_cons_True by (apply Hall; left).
  f_equal. apply IH. intros y Hy. apply Hall. by right.
Qed.

Section StaleFacts.

Context `{Collaborators}.

Lemma stale_hashes_spec user (item : string * gset Hash) s h :
  h ∈ stale_hashes user item s
  ↔ (h ∉ item.2)
    ∧ ∃ r0, r0 ∈ embeddings_table s
            ∧ Embeddings.user r0 = user
            ∧ Embeddings.file_path r0 = item.1
            ∧ Embeddings.hashed_value r0 = h.
Proof.
  unfold stale_hashes, get_existing_entry_hashes_by_file.
  rewrite elem_of_difference, elem_of_list_to_set, list_elem_of_fmap.
  split.
  - intros [(r0 & -> & Hr0) Hh]. split; [done|].
    apply list_elem_of_filter in Hr0 as [[Hu Hf] Hr0]. by exists r0.
  - intros [Hh (r0 & Hr0 & Hu & Hf & <-)]. split; [|done].
    exists r0. split; [done|]. by apply list_elem_of_filter.
Qed.

Lemma delete_embedding_by_hash_table user hashed_values s :
  embeddings_table (delete_embedding_by_hash user hashed_values s).2
  = filter (λ r, ¬ (Embeddings.user r = user
                    ∧ Embeddings.hashed_value r ∈ hashed_values))
           (embeddings_table s).
Proof. done. Qed.


(** What the stale pass over one file does to the table: it removes the
    rows of the owner whose hash is stale for that file, and nothing else. *)
Lemma delete_stale_table user nd item st :
  ∃ nd' st',
    delete_stale user nd item st = (Ok nd', st')
    ∧ calls st' = calls st
    ∧ nd' = nd + size (stale_hashes user item (db st))
    ∧ embeddings_table (db st')
      = filter (λ r, ¬ (Embeddings.user r = user
                        ∧ Embeddings.hashed_value r
                          ∈ stale_hashes user item (db st)))
               (embeddings_table (db st)).
Proof.
  rewrite delete_stale_run. eexists _, _. split; [done|]. simpl.
  split; [done|]. split; [done|].
  apply list_filter_iff. intros r. by rewrite elem_of_elements.
Qed.

End StaleFacts.

(** C4, as the code has it. The stale pass over one file removes exactly
    the rows of the owner whose hash is absent from the file's current
    hashes and carried by a row of the owner stored under that file; such
    a row goes whatever file it is stored under itself. All other rows
    stay, unaltered and in their order. *)
Theorem delete_stale_frame `{Collaborators} (user : KhojUser)
    (num_deleted_embeddings : nat) (item : string * gset Hash) (st : Run) :
  ∃ num_deleted_embeddings' st',
    delete_stale user num_deleted_embeddings item st
    = (Ok num_deleted_embeddings', st')
    ∧ sublist (embeddings_table (db st')) (embeddings_table (db st))
    ∧ ∀ r, r ∈ embeddings_table (db st) →
        (r ∈ embeddings_table (db st')
         ↔ ¬ (Embeddings.user r = user
              ∧ (Embeddings.hashed_value r ∉ item.2)
              ∧ ∃ r0, r0 ∈ embeddings_table (db st)
                      ∧ Embeddings.user r0 = user
                      ∧ Embeddings.file_path r0 = item.1
                      ∧ Embeddings.hashed_value r0
                        = Embeddings.hashed_value r)).
Proof.
  destruct (delete_stale_table user num_deleted_embeddings item st)
    as (nd' & st' & Hrun & _ & _ & Htable).
  exists nd', st'. split; [done|]. rewrite Htable. split.
  - apply sublist_filter.
  - intros r Hr. rewrite list_elem_of_filter, stale_hashes_spec.
    split.
    + intros [Hkeep _] (Hu & Hh & Hr0). apply Hkeep. done.
    + intros Hkeep. split; [|done]. intros (Hu & Hh & Hr0). apply Hkeep. done.
Qed.

Section Idempotence.

Context `{Collaborators}.

Lemma after_regenerate_subseteq user file_type regenerate s r :
  r ∈ embeddings_table (after_regenerate user file_type regenerate s) →
  r ∈ embeddings_table s.
Proof.
  unfold after_regenerate. destruct regenerate; [|done]. simpl.
  by intros [_ ?]%list_elem_of_filter.
Qed.

Lemma not_to_process user file_type (hs : gset Hash) s h :
  h ∈ hs → h ∉ hashes_to_process user file_type hs s →
  has_row user file_type h s.
Proof.
  unfold hashes_to_process, objects_filter. intros Hh Hnot.
  rewrite elem_of_difference in Hnot.
  match type of Hnot with ¬ (_ ∧ ¬ ?h ∈ ?X) =>
    destruct (decide (h ∈ X)) as [Hex|Hnex]; [|tauto]
  end.
  apply elem_of_list_to_set, list_elem_of_fmap in Hex as (r & -> & Hr).
  apply list_elem_of_filter in Hr as [(Hu & _ & Ht) Hr]. by exists r.
Qed.

Lemma Forall2_elem_of_r {A B} (P : A → B → Prop) l k y :
  Forall2 P l k → y ∈ k → ∃ x, x ∈ l ∧ P x y.
Proof.
  induction 1 as [|a b l k Hab _ IH]; [by intros ?%elem_of_nil|].
  intros [->|Hy]%elem_of_cons.
  - exists a. split; [left | done].
  - destruct (IH Hy) as (x & Hx & HP). exists x. split; [by right | done].
Qed.

(** The creation loop of a run whose model keeps its contract returns;
    afterwards every current hash has its row, and no row is misfiled if
    none was. *)
Lemma creation_loop_stores current file_type key user st :
  (∀ texts, length (embed_documents texts) = length texts) →
  no_misfiled user key current (db st) →
  ∃ n st',
    foldM (process_file user file_type key (hash_to_entries key current))
          0 (build_hashes_by_file current key) st = (Ok n, st')
    ∧ no_misfiled user key current (db st')
    ∧ all_stored user file_type (build_hashes_by_file current key) (db st').
Proof.
  intros Hcontract Hstart.
  apply (foldM_total
           (λ pre _ st', no_misfiled user key current (db st')
                         ∧ all_stored user file_type pre (db st')));
    [|split; [done | by intros ? ? ? ?%elem_of_nil]].
  intros pre item rest n st1 Hsplit [Hmis Hall].
  pose proof (process_file_cases user file_type key
                (hash_to_entries key current) n item st1
                (item_in_dict current key pre rest item Hsplit)) as Hcase.
  simpl in Hcase. rewrite decide_True in Hcase by apply Hcontract.
  destruct Hcase as (rowss & saved & st' & Hstep & _ & _ & _ & _
                     & Htable & Hmade).
  eexists _, st'. split; [exact Hstep|]. split.
  - intros r Hr. rewrite Htable in Hr.
    apply elem_of_app in Hr as [Hr|Hr]; [by apply Hmis|].
    destruct (Forall2_elem_of_r _ _ _ _ Hmade Hr) as (h & _ & entry & Hd & Hrow).
    apply hash_dict_lookup in Hd as [Hin Hhash].
    intros (_ & _ & _ & Hno). apply Hno. exists entry.
    unfold row_of in Hrow. destruct Hrow as (_ & _ & _ & _ & -> & _ & -> & _).
    done.
  - intros f hs h [Hin|Hin]%elem_of_snoc Hh.
    + destruct (Hall f hs h Hin Hh) as (r & Hr & Hfields).
      exists r. split; [|done]. rewrite Htable. apply elem_of_app. by left.
    + subst item. simpl in *.
      destruct (decide (h ∈ hashes_to_process user file_type hs (db st1)))
        as [Hnew|Hold].
      * apply elem_of_elements in Hnew.
        destruct (Forall2_elem_of_l _ _ _ _ Hmade Hnew) as (r & Hr & Hm).
        exists r. split; [rewrite Htable; apply elem_of_app; by right|].
        by apply (made_from_fields _ _ _ _ _ Hm).
      * destruct (not_to_process user file_type hs (db st1) h Hh Hold)
          as (r & Hr & Hfields).
        exists r. split; [|done]. rewrite Htable. apply elem_of_app. by left.
Qed.

(** The stale loop after such a creation loop deletes no row of a current
    hash, and leaves no stale row under a current file. *)
Lemma stale_loop_keeps current file_type key user nd st :
  no_misfiled user key current (db st) →
  all_stored user file_type (build_hashes_by_file current key) (db st) →
  ∃ nd' st',
    foldM (delete_stale user) nd (build_hashes_by_file current key) st
    = (Ok nd', st')
    ∧ all_stored user file_type (build_hashes_by_file current key) (db st')
    ∧ none_stale user (build_hashes_by_file current key) (db st').
Proof.
  intros Hmis Hall.
  destruct (foldM_total
           (λ pre _ st',
              no_misfiled user key current (db st')
              ∧ all_stored user file_type (build_hashes_by_file current key)
                  (db st')
              ∧ none_stale user pre (db st'))
           (delete_stale user) (build_hashes_by_file current key))
    with (acc := nd) (st := st) as (nd' & st' & Hrun & _ & Hall' & Hstale').
  - intros pre item rest n st1 Hsplit (Hmis1 & Hall1 & Hstale1).
    destruct (delete_stale_table user n item st1)
      as (n' & st' & Hstep & _ & _ & Htable).
    exists n', st'. split; [done|].
    assert (Hitem : item ∈ build_hashes_by_file current key).
    { rewrite Hsplit. apply elem_of_app. right. left. }
    assert (Hsub : ∀ r, r ∈ embeddings_table (db st') →
                        r ∈ embeddings_table (db st1)).
    { intros r Hr. rewrite Htable in Hr.
      by apply list_elem_of_filter in Hr as [_ ?]. }
    assert (Hcur : ∀ f hs h, (f, hs) ∈ build_hashes_by_file current key →
                             h ∈ hs → h ∉ stale_hashes user item (db st1)).
    { intros f hs h Hf Hh Hst. apply stale_hashes_spec in Hst as [Hnot Hr0].
      destruct Hr0 as (r0 & Hr0 & Hu & Hfp & Hhash).
      destruct (build_hashes_by_file_ok current key) as [_ Hsets].
      destruct item as [fi hsi]. simpl in *.
      destruct (Hsets fi hsi Hitem) as [(ei & Hei & Hfi) Hhsi].
      destruct (Hsets f hs Hf) as [_ Hhs].
      apply Hhs in Hh as (e & He & _ & Heh).
      apply (Hmis1 r0 Hr0). split; [done|]. split.
      { exists ei. by rewrite Hfp. }
      split.
      { exists e. by rewrite Hhash. }
      intros (e' & He' & Hf' & Hh'). apply Hnot. apply Hhsi.
      exists e'. split; [done|]. split; congruence. }
    split_and!.
    + intros r Hr. apply Hmis1. by apply Hsub.
    + intros f hs h Hf Hh. destruct (Hall1 f hs h Hf Hh) as (r & Hr & Hu & Ht & Hhash).
      exists r. split; [|done]. rewrite Htable. apply list_elem_of_filter.
      split; [|done]. intros [_ Hst]. rewrite Hhash in Hst.
      by apply (Hcur f hs h).
    + intros f hs r [Hin|Hin]%elem_of_snoc Hr Hu Hf.
      * apply (Hstale1 f hs r Hin); [by apply Hsub | done | done].
      * subst item. simpl in *.
        rewrite Htable in Hr. apply list_elem_of_filter in Hr as [Hkeep Hr].
        destruct (decide (Embeddings.hashed_value r ∈ hs)) as [|Hnot]; [done|].
        exfalso. apply Hkeep. split; [done|]. apply stale_hashes_spec.
        split; [done|]. by exists r.
  - split; [done|]. split; [done|]. by intros ? ? ? ?%elem_of_nil.
  - by exists nd', st'.
Qed.





End Idempotence.




(** C4 as stated fails: x is indexed in a.org as org and in b.md as
    markdown; when a.org changes to y, the stale pass over a.org, the only
    file of the run, removes the row of b.md as well. *)
Lemma delete_stale_frame_counterexample :
  ∃ row,
    row ∈ embeddings_table store_x_twice
    ∧ Embeddings.file_path row = "b.md"%string
    ∧ map fst (build_hashes_by_file (H := sample_collaborators)
                 [sample_entry "y" "a.org"] key_compiled) = ["a.org"%string]
    ∧ row ∉ embeddings_table
              (db (run_update (H := sample_collaborators)
                     [sample_entry "y" "a.org"] "org" key_compiled None None
                     false store_x_twice).2).
Proof.
  eexists. split; [vm_compute; right; left|].
  split; [reflexivity|]. split; [reflexivity|].
  intros Hin. vm_compute in Hin.
  apply list_elem_of_singleton in Hin. discriminate.
Qed.


(** C6 at work: a model that answers one text with no vector. *)
Lemma update_embeddings_mismatch_fatal_witness :
  (run_update (H := broken_collaborators)
     [sample_entry "x" "a.org"] "org" key_compiled None None false
     empty_store).1 = Raise AssertionError
  ∧ aborted_at (H := broken_collaborators)
      [sample_entry "x" "a.org"] "org" key_compiled None
      {| db := after_regenerate None "org" false empty_store; calls := [] |}
      ["x"%string]
      (run_update (H := broken_collaborators)
         [sample_entry "x" "a.org"] "org" key_compiled None None false
         empty_store).2.
Proof.
  apply (update_embeddings_mismatch_fatal (H := broken_collaborators)).
  - vm_compute. left.
  - simpl. lia.
Defined.

(** ** The batches of a file *)

Section BatchFacts.

Context `{Collaborators}.



End BatchFacts.



(** * Further properties *)

(** ** More on the chunker *)

(** Cutting a list into windows of [st] loses nothing: the windows at
    positions [0], [st], [2 st], ... put end to end are the list. *)
Lemma windows_concat {A} (l : list A) (st : nat) :
  0 < st →
  concat (map (λ i, take st (drop i l))
              (map (λ k, k * st) (seq 0 ((length l + st - 1) / st)))) = l.
Proof.
  intros Hst.
  remember (length l) as n eqn:Hn. revert l Hn.
  induction n as [n IH] using lt_wf_ind. intros l Hn.
  destruct (decide (n = 0)) as [->|Hpos].
  { destruct l; [|done]. simpl.
    rewrite Nat.div_small by lia. done. }
  assert (Hdiv : (n + st - 1) / st = S ((n - st + st - 1) / st)
                 ∧ (n ≤ st → (n - st + st - 1) / st = 0)).
  { destruct (decide (n ≤ st)) as [Hle|Hgt].
    - replace (n - st) with 0 by lia. simpl.
      rewrite (Nat.div_small (st - 1) st) by lia.
      split; [|done].
      replace (n + st - 1) with (1 * st + (n - 1)) by lia.
      rewrite Nat.div_add_l by lia. rewrite Nat.div_small by lia. done.
    - split; [|lia].
      replace (n + st - 1) with (1 * st + (n - st + st - 1)) by lia.
      rewrite Nat.div_add_l by lia. done. }
  destruct Hdiv as [-> _].
  rewrite <- cons_seq, <- fmap_S_seq. simpl.
  rewrite drop_0.
  transitivity (take st l ++ drop st l); [|apply take_drop]. f_equal.
  specialize (IH (n - st) ltac:(lia) (drop st l)
                ltac:(rewrite length_drop; lia)).
  etransitivity; [|exact IH].
  f_equal. rewrite <- !list_fmap_compose.
  apply list_fmap_ext. intros _ k _. simpl.
  rewrite drop_drop. done.
Qed.

Lemma py_join_split sep s :
  py_join (String sep EmptyString) (py_split sep s) = s.
Proof.
  induction s as [|c s IH]; simpl; [done|].
  case_decide as Hc.
  - subst. pose proof (py_split_nonempty sep s) as Hne.
    destruct (py_split sep s) as [|w ws] eqn:Hs; [done|].
    simpl. by rewrite <- IH.
  - destruct (py_split sep s) as [|w ws] eqn:Hs.
    + by destruct (py_split_nonempty sep s).
    + rewrite <- IH. simpl. by destruct ws.
Qed.

Lemma chunk_entry_pos entry cid max_tokens max_word_length :
  (0 < max_tokens)%Z →
  chunk_entry entry cid max_tokens max_word_length
  = Ok (map (make_chunk entry cid max_tokens
               (compiled_entry_words entry max_word_length))
            (map (λ k, k * Z.to_nat max_tokens)
                 (seq 0 ((length (compiled_entry_words entry max_word_length)
                          + Z.to_nat max_tokens - 1) / Z.to_nat max_tokens)))).
Proof. intros Hpos. unfold chunk_entry. by rewrite py_range0_pos. Qed.

(** X1. With a positive [max_tokens] the chunks of an entry hold the
    surviving words of the entry, each once and in order: the word list
    is cut into consecutive windows, the first chunk is the first window
    joined by spaces, every later chunk its window joined by spaces after
    the heading prefix; raw, heading and file are those of the entry. *)
Theorem chunk_entry_keeps_words (entry : Entry) (cid : UUID)
    (max_tokens max_word_length : Z) (chunks : list Entry) :
  (0 < max_tokens)%Z →
  chunk_entry entry cid max_tokens max_word_length = Ok chunks →
  ∃ windows,
    concat windows = compiled_entry_words entry max_word_length
    ∧ map compiled chunks
      = imap (λ k ws,
                if decide (k = 0) then py_join " " ws
                else py_last_chars 100 (heading entry) +:+ "." +:+ newline
                     +:+ py_join " " ws) windows
    ∧ Forall (λ chunk, raw chunk = raw entry ∧ heading chunk = heading entry
                       ∧ file chunk = file entry ∧ corpus_id chunk = cid)
             chunks.
Proof.
  intros Hpos Hok. rewrite chunk_entry_pos in Hok by done.
  injection Hok as <-.
  set (ws := compiled_entry_words entry max_word_length).
  set (st := Z.to_nat max_tokens).
  assert (Hst : 0 < st) by (unfold st; lia).
  exists (map (λ i, take st (drop i ws))
              (map (λ k, k * st) (seq 0 ((length ws + st - 1) / st)))).
  split; [by apply windows_concat|]. split.
  - apply list_eq. intros k.
    rewrite list_lookup_imap, !list_lookup_fmap.
    destruct (seq 0 ((length ws + st - 1) / st) !! k) as [k'|] eqn:Hk;
      simpl; [|done].
    apply lookup_seq in Hk as [-> _]. simpl. f_equal.
    destruct (decide (k = 0)) as [->|Hk].
    + done.
    + unfold make_chunk. simpl. rewrite decide_True by nia. done.
  - apply Forall_forall. intros c Hc.
    apply list_elem_of_fmap in Hc as (i & -> & _). done.
Qed.

(** X1 at work: five words in windows of two. *)
Lemma chunk_entry_keeps_words_witness :
  ∃ windows,
    concat windows
    = compiled_entry_words (mkEntry "r" "a b  c d e" "h" "f" 0%N) 9
    ∧ map compiled
        [mkEntry "r" "a b" "h" "f" 7%N;
         mkEntry "r" ("h." +:+ newline +:+ "c d") "h" "f" 7%N;
         mkEntry "r" ("h." +:+ newline +:+ "e") "h" "f" 7%N]
      = imap (λ k ws,
                if decide (k = 0) then py_join " " ws
                else py_last_chars 100 "h" +:+ "." +:+ newline
                     +:+ py_join " " ws) windows
    ∧ Forall (λ chunk, raw chunk = "r"%string ∧ heading chunk = "h"%string
                       ∧ file chunk = "f"%string ∧ corpus_id chunk = 7%N)
        [mkEntry "r" "a b" "h" "f" 7%N;
         mkEntry "r" ("h." +:+ newline +:+ "c d") "h" "f" 7%N;
         mkEntry "r" ("h." +:+ newline +:+ "e") "h" "f" 7%N].
Proof.
  apply (chunk_entry_keeps_words (mkEntry "r" "a b  c d e" "h" "f" 0%N)
           7%N 2 9).
  - lia.
  - reflexivity.
Defined.

(** X2. A negative [max_tokens] is not an error: the call returns no
    chunk at all, whatever the entries hold. *)
Theorem split_entries_negative_max_tokens (uuid4 : nat → UUID)
    (entries : list Entry) (p : positive) (max_word_length : Z) :
  split_entries_by_max_tokens uuid4 entries (Z.neg p) max_word_length = Ok [].
Proof.
  unfold split_entries_by_max_tokens. generalize 0.
  induction entries as [|entry entries IH]; intros calls; [done|].
  cbn [split_entries_loop]. unfold chunk_entry.
  rewrite py_range0_neg by lia. apply IH.
Qed.

(** X3. An entry that is already within the bounds comes back as it is,
    under its new identifier: when the compiled text splits on single
    spaces into at most [max_tokens] words, none empty and none longer
    than [max_word_length], the entry gives one chunk with the same
    compiled text, raw text, heading and file. *)
Theorem chunk_entry_within_bounds (entry : Entry) (cid : UUID)
    (max_tokens max_word_length : Z) :
  (Z.of_nat (length (py_split space (compiled entry))) ≤ max_tokens)%Z →
  Forall (λ word, word ≠ EmptyString
                  ∧ (Z.of_nat (String.length word) ≤ max_word_length)%Z)
         (py_split space (compiled entry)) →
  chunk_entry entry cid max_tokens max_word_length
  = Ok [mkEntry (raw entry) (compiled entry) (heading entry) (file entry) cid].
Proof.
  intros Hcount Hwords.
  pose proof (py_split_nonempty space (compiled entry)) as Hne.
  assert (Hws : compiled_entry_words entry max_word_length
                = py_split space (compiled entry)).
  { unfold compiled_entry_words.
    rewrite !filter_all; [done| |].
    - intros w Hw. rewrite Forall_forall in Hwords. by apply Hwords.
    - intros w Hw. rewrite filter_all in Hw.
      + rewrite Forall_forall in Hwords. by apply Hwords.
      + intros w' Hw'. rewrite Forall_forall in Hwords. by apply Hwords. }
  assert (Hlen : 0 < length (py_split space (compiled entry))).
  { destruct (py_split space (compiled entry)); [done | simpl; lia]. }
  rewrite chunk_entry_pos by lia. rewrite Hws.
  set (ws := py_split space (compiled entry)) in *.
  set (st := Z.to_nat max_tokens).
  assert ((length ws + st - 1) / st = 1) as ->.
  { assert (length ws ≤ st) by (unfold st; lia).
    replace (length ws + st - 1) with (1 * st + (length ws - 1)) by lia.
    rewrite Nat.div_add_l by lia. rewrite Nat.div_small by lia. done. }
  simpl. unfold make_chunk. simpl. rewrite drop_0.
  rewrite take_ge by (unfold st; lia).
  unfold ws. by rewrite (py_join_split space).
Qed.

(** X3 at work: three short words under a bound of four. *)
Lemma chunk_entry_within_bounds_witness :
  chunk_entry (mkEntry "r" "a bc d" "h" "f" 0%N) 7%N 4 2
  = Ok [mkEntry "r" "a bc d" "h" "f" 7%N].
Proof.
  apply (chunk_entry_within_bounds (mkEntry "r" "a bc d" "h" "f" 0%N) 7%N 4 2).
  - vm_compute. discriminate.
  - repeat constructor; simpl; try discriminate; lia.
Defined.

(** ** More on the diff engine *)

Section DiffMore.

Context `{Collaborators}.

Lemma mark_entries_hashes current previous key deletion_filenames :
  ∃ out,
    mark_entries_for_update current previous key deletion_filenames = Ok out
    ∧ map (λ p, hash_func key p.2) out
      ≡ₚ elements (preserving_entry_hashes current previous key
                     deletion_filenames
                   ∪ new_entry_hashes current previous key).
Proof.
  destruct (mark_entries_for_update_spec current previous key
              deletion_filenames)
    as (preserved & new & Hout & (Hpres & _) & (Hnew & _)).
  exists (preserved ++ map (λ p, ((-1)%Z, p.2)) new). split; [done|].
  rewrite map_app, map_map. simpl. rewrite Hpres, Hnew.
  symmetry. apply elements_disj_union.
  intros h Hp Hn.
  apply preserving_subseteq in Hp. unfold new_entry_hashes in Hn.
  apply elem_of_difference in Hn as [_ Hn]. done.
Qed.

Lemma index_and_entry_last key entries h :
  h ∈ map (hash_func key) entries →
  ∃ p, index_and_entry (map (hash_func key) entries)
         (hash_to_entries key entries) h = Ok p
       ∧ hash_to_entries key entries !! hash_func key p.2 = Some p.2.
Proof.
  intros Hh. unfold index_and_entry.
  destruct (py_index_elem_of h _ Hh) as [i Hi].
  destruct (hash_dict_is_Some key entries h Hh) as [entry He].
  rewrite Hi. simpl. unfold py_getitem. rewrite He. simpl.
  destruct (hash_dict_lookup key entries h entry He) as [_ Hhash].
  eexists. split; [done|]. simpl. by rewrite Hhash.
Qed.

Lemma sorted_indexed_last key entries (hashes : gset Hash) :
  hashes ⊆ list_to_set (map (hash_func key) entries) →
  ∃ indexed,
    result_mapM (index_and_entry (map (hash_func key) entries)
                   (hash_to_entries key entries))
                (elements hashes) = Ok indexed
    ∧ Forall (λ p, hash_to_entries key entries !! hash_func key p.2 = Some p.2)
             (py_sorted fst indexed).
Proof.
  intros Hsub.
  destruct (result_mapM_Forall2
              (index_and_entry (map (hash_func key) entries)
                 (hash_to_entries key entries))
              (λ _ p, hash_to_entries key entries !! hash_func key p.2
                      = Some p.2)
              (elements hashes)) as (indexed & Hmap & Hrel).
  { intros h Hh. apply index_and_entry_last.
    apply elem_of_elements in Hh. apply Hsub in Hh.
    by apply elem_of_list_to_set in Hh. }
  exists indexed. split; [done|].
  rewrite (py_sorted_perm fst indexed).
  clear Hmap. induction Hrel; constructor; done.
Qed.

End DiffMore.

(** X4. Without a deletion set the output of [mark_entries_for_update]
    holds exactly one entry for every distinct hash of the current list:
    its hashes are those of the current entries, each once. *)
Theorem mark_entries_covers_current `{Collaborators}
    (current_entries previous_entries : list Entry) (key : Key) :
  ∃ entries_with_ids,
    mark_entries_for_update current_entries previous_entries key None
    = Ok entries_with_ids
    ∧ map (λ p, hash_func key p.2) entries_with_ids
      ≡ₚ elements (list_to_set (map (hash_func key) current_entries)
                   : gset Hash).
Proof.
  destruct (mark_entries_hashes current_entries previous_entries key None)
    as (out & Hout & Hperm).
  exists out. split; [done|]. rewrite Hperm.
  assert (preserving_entry_hashes current_entries previous_entries key None
          ∪ new_entry_hashes current_entries previous_entries key
          = list_to_set (map (hash_func key) current_entries)) as ->; [|done].
  unfold preserving_entry_hashes, existing_entry_hashes, new_entry_hashes.
  apply set_eq. intros h.
  rewrite elem_of_union, elem_of_intersection, elem_of_difference.
  destruct (decide (h ∈@{gset Hash}
                    list_to_set (map (hash_func key) previous_entries)));
    tauto.
Qed.

(** X5. With a deletion set no two output entries have the same hash,
    and the hash of a previous entry of a deleted file is the hash of no
    output entry, not even when a current entry has that hash. *)
Theorem mark_entries_drops_deleted `{Collaborators}
    (current_entries previous_entries : list Entry) (key : Key)
    (filenames : gset string) :
  ∃ entries_with_ids,
    mark_entries_for_update current_entries previous_entries key
      (Some filenames) = Ok entries_with_ids
    ∧ NoDup (map (λ p, hash_func key p.2) entries_with_ids)
    ∧ ∀ entry, entry ∈ previous_entries → file entry ∈ filenames →
               hash_func key entry
               ∉ map (λ p, hash_func key p.2) entries_with_ids.
Proof.
  destruct (mark_entries_hashes current_entries previous_entries key
              (Some filenames)) as (out & Hout & Hperm).
  exists out. split; [done|]. split.
  - rewrite Hperm. apply NoDup_elements.
  - intros entry Hin Hfile. rewrite Hperm, elem_of_elements.
    assert (Hdel : hash_func key entry
                   ∈ deletion_entry_hashes previous_entries key
                       (Some filenames)).
    { unfold deletion_entry_hashes. apply list_elem_of_fmap.
      exists entry. split; [done|]. by apply list_elem_of_filter. }
    assert (Hprev : hash_func key entry
                    ∈ map (hash_func key) previous_entries).
    { apply list_elem_of_fmap. by exists entry. }
    unfold preserving_entry_hashes, new_entry_hashes, to_delete_entry_hashes.
    rewrite decide_False.
    + rewrite elem_of_union, !elem_of_difference, elem_of_intersection,
        !elem_of_list_to_set. tauto.
    + intros Hlen. apply nil_length_inv in Hlen. rewrite Hlen in Hdel.
      by apply elem_of_nil in Hdel.
Qed.

(** X6. Which entry stands for a hash: an output entry with the sentinel
    [-1] is the last entry of the current list with its hash; any other
    output entry is the last entry of the previous list with its hash,
    while its id is the position of the first one. *)
Theorem mark_entries_last_entry_wins `{Collaborators}
    (current_entries previous_entries : list Entry) (key : Key)
    (deletion_filenames : option (gset string)) :
  ∃ entries_with_ids,
    mark_entries_for_update current_entries previous_entries key
      deletion_filenames = Ok entries_with_ids
    ∧ Forall
        (λ p,
           if decide (p.1 = (-1)%Z) then
             last (filter (λ e, hash_func key e = hash_func key p.2)
                          current_entries) = Some p.2
           else
             last (filter (λ e, hash_func key e = hash_func key p.2)
                          previous_entries) = Some p.2
             ∧ py_index (hash_func key p.2)
                        (map (hash_func key) previous_entries)
               = Ok (Z.to_nat p.1))
        entries_with_ids.
Proof.
  destruct (sorted_indexed_last key current_entries
              (new_entry_hashes current_entries previous_entries key))
    as (new & Hnew & Hnew_last); [apply new_subseteq|].
  destruct (sorted_indexed_last key previous_entries
              (preserving_entry_hashes current_entries previous_entries key
                 deletion_filenames))
    as (pres & Hpres & Hpres_last); [apply preserving_subseteq|].
  destruct (sorted_indexed key previous_entries
              (preserving_entry_hashes current_entries previous_entries key
                 deletion_filenames))
    as (pres' & Hpres' & (_ & Hpos & _)); [apply preserving_subseteq|].
  rewrite Hpres in Hpres'. injection Hpres' as <-.
  eexists. split.
  { unfold mark_entries_for_update. rewrite Hnew. simpl. rewrite Hpres. done. }
  apply Forall_app. split.
  - rewrite Forall_forall in Hpos, Hpres_last. apply Forall_forall.
    intros p Hp. destruct (Hpos p Hp) as (_ & i & Hi & Hidx).
    rewrite decide_False by lia.
    rewrite <- hash_to_entries_last. split; [by apply Hpres_last|].
    rewrite Hi, Nat2Z.id. done.
  - apply Forall_forall. intros p Hp.
    apply list_elem_of_fmap in Hp as (q & -> & Hq). simpl.
    rewrite <- hash_to_entries_last.
    rewrite Forall_forall in Hnew_last. by apply Hnew_last.
Qed.

(** ** More on the index updater *)

(** X7. The local [grouper] cuts its input into consecutive runs of
    [max_n] items, the last one shorter when the length is no multiple:
    batch [i] is the items from position [i * max_n] on, [max_n] of them
    at most. With [max_n = 0] it yields no batch, whatever the input. *)
Theorem grouper_batches {A} (iterable : list A) (max_n i : nat) :
  grouper iterable max_n !! i
  = if decide (0 < max_n ∧ i * max_n < length iterable)
    then Some (take max_n (drop (i * max_n) iterable)) else None.
Proof.
  unfold grouper. destruct (decide (max_n = 0)) as [->|Hpos].
  - rewrite decide_False by lia. done.
  - rewrite grouper_go_lookup by lia.
    destruct (decide (i * max_n < length iterable));
      [rewrite decide_True by lia | rewrite decide_False by lia]; done.
Qed.

Section UpdaterMore.

Context `{Collaborators}.

Lemma filter_filter_weaker {A} (P Q : A → Prop)
    `{∀ x, Decision (P x)} `{∀ x, Decision (Q x)} (l : list A) :
  (∀ x, Q x → P x) → filter Q (filter P l) = filter Q l.
Proof.
  intros HQP. induction l as [|x l IH]; [done|].
  rewrite !(filter_cons _ x). destruct (decide (P x)) as [HP|HP].
  - rewrite filter_cons. destruct (decide (Q x)); by rewrite IH.
  - rewrite decide_False by (intros HQ; by apply HP, HQP). exact IH.
Qed.

Lemma objects_delete_others (P : Embeddings.t → Prop) `{∀ r, Decision (P r)}
    user s :
  (∀ r, P r → Embeddings.user r = user) →
  rows_of_others user (objects_delete P s).2 = rows_of_others user s.
Proof.
  intros HP. unfold rows_of_others, objects_delete. simpl.
  apply filter_filter_weaker. intros r Hr HPr. apply Hr. by apply HP.
Qed.

Lemma after_regenerate_others user file_type regenerate s :
  rows_of_others user (after_regenerate user file_type regenerate s)
  = rows_of_others user s.
Proof.
  unfold after_regenerate. destruct regenerate; [|done].
  apply objects_delete_others. by intros r [? _].
Qed.

Lemma made_rows_not_others user file_type d hs rows :
  Forall2 (made_from user file_type d) hs rows →
  filter (λ r, Embeddings.user r ≠ user) rows = [].
Proof.
  induction 1 as [|h r hs rows Hm _ IH]; [done|].
  rewrite filter_cons_False; [exact IH|].
  destruct (made_from_fields _ _ _ _ _ Hm) as [Hu _].
  intros Hne. by apply Hne.
Qed.

Lemma creation_loop_others current file_type key user st :
  match foldM (process_file user file_type key (hash_to_entries key current))
              0 (build_hashes_by_file current key) st with
  | (_, st') => rows_of_others user (db st') = rows_of_others user (db st)
  end.
Proof.
  match goal with |- match ?run with _ => _ end =>
    assert (Hgoal : match run with
                    | (Ok _, st') | (Raise _, st') =>
                        rows_of_others user (db st')
                        = rows_of_others user (db st)
                    end); [|by destruct run as [[?|?] ?]]
  end.
  apply (foldM_invariant
           (λ _ _ st', rows_of_others user (db st')
                       = rows_of_others user (db st))
           (λ _ st', rows_of_others user (db st')
                     = rows_of_others user (db st))); [|done].
  intros pre item rest n st1 Hsplit Hsame.
  pose proof (process_file_cases user file_type key
                (hash_to_entries key current) n item st1
                (item_in_dict current key pre rest item Hsplit)) as Hcase.
  simpl in Hcase. case_decide as Hmatch.
  - destruct Hcase as (rowss & saved & st' & -> & _ & _ & _ & _
                       & Htable & Hmade).
    rewrite <- Hsame. unfold rows_of_others. rewrite Htable, filter_app.
    rewrite (made_rows_not_others _ _ _ _ _ Hmade). by rewrite app_nil_r.
  - by rewrite Hcase.
Qed.

Lemma stale_loop_others user files nd st nd' st' :
  foldM (delete_stale user) nd files st = (Ok nd', st') →
  rows_of_others user (db st') = rows_of_others user (db st).
Proof.
  intros Hrun.
  pose proof (foldM_invariant
           (λ _ _ st1, rows_of_others user (db st1)
                       = rows_of_others user (db st))
           (λ _ _, True) (delete_stale user) files) as Hinv.
  specialize (Hinv ltac:(intros pre item rest n st1 _ Hsame;
    rewrite delete_stale_run; simpl; rewrite <- Hsame;
    apply objects_delete_others; by intros r [? _]) nd st eq_refl).
  by rewrite Hrun in Hinv.
Qed.

Lemma deletion_loop_others user files nd st nd' st' :
  foldM (delete_file user) nd files st = (Ok nd', st') →
  rows_of_others user (db st') = rows_of_others user (db st).
Proof.
  intros Hrun.
  pose proof (foldM_invariant
           (λ _ _ st1, rows_of_others user (db st1)
                       = rows_of_others user (db st))
           (λ _ _, True) (delete_file user) files) as Hinv.
  specialize (Hinv ltac:(intros pre item rest n st1 _ Hsame;
    rewrite delete_file_run; simpl; rewrite <- Hsame;
    apply objects_delete_others; by intros r [? _]) nd st eq_refl).
  by rewrite Hrun in Hinv.
Qed.

End UpdaterMore.

(** X8. Owner isolation: whatever a run of [update_embeddings] does for
    one owner, and however it ends, the rows of every other owner are
    afterwards what they were, in their order. *)
Theorem update_embeddings_owner_isolation `{Collaborators}
    (current_entries : list Entry) (file_type : string) (key : Key)
    (deletion_filenames : option (gset string)) (user : KhojUser)
    (regenerate : bool) (s : Store) :
  rows_of_others user
    (db (run_update current_entries file_type key deletion_filenames user
           regenerate s).2)
  = rows_of_others user s.
Proof.
  unfold run_update.
  pose proof (update_embeddings_run current_entries file_type key
                deletion_filenames user regenerate {| db := s; calls := [] |})
    as Hphases.
  pose proof (creation_loop_others current_entries file_type key user
                {| db := after_regenerate user file_type regenerate s;
                   calls := [] |}) as Hloop.
  simpl in Hphases, Hloop. rewrite after_regenerate_others in Hloop.
  destruct (foldM _ 0 _ _) as [[num_new|e] stB].
  - destruct Hphases as (nd & nd' & stC & stD & HC & Hrest & _ & _).
    apply stale_loop_others in HC.
    destruct deletion_filenames as [filenames|].
    + destruct Hrest as (nd'' & HD & ->). simpl.
      apply deletion_loop_others in HD. congruence.
    + destruct Hrest as [-> ->]. simpl. congruence.
  - rewrite Hphases. done.
Qed.

Section PhaseFacts.

Context `{Collaborators}.

(** A run, phase by phase. *)
Lemma update_embeddings_phases current file_type key deletion_filenames user
    regenerate st :
  update_embeddings current file_type key deletion_filenames user regenerate st
  = match foldM (process_file user file_type key (hash_to_entries key current))
                0 (build_hashes_by_file current key)
                {| db := after_regenerate user file_type regenerate (db st);
                   calls := calls st |} with
    | (Raise e, stB) => (Raise e, stB)
    | (Ok num_new, stB) =>
        match foldM (delete_stale user)
                (if regenerate
                 then (delete_all_embeddings user file_type (db st)).1 else 0)
                (build_hashes_by_file current key) stB with
        | (Raise e, stC) => (Raise e, stC)
        | (Ok nd, stC) =>
            match deletion_filenames with
            | Some filenames =>
                match foldM (delete_file user) nd (elements filenames) stC with
                | (Ok nd', stD) => (Ok (num_new, nd'), stD)
                | (Raise e, stD) => (Raise e, stD)
                end
            | None => (Ok (num_new, nd), stC)
            end
        end
    end.
Proof.
  unfold update_embeddings.
  set (stA := {| db := after_regenerate user file_type regenerate (db st);
                 calls := calls st |}).
  set (nd := if regenerate
             then (delete_all_embeddings user file_type (db st)).1 else 0).
  assert (HA : (if regenerate
                then write_db (delete_all_embeddings user file_type)
                else ret 0) st = (Ok nd, stA)).
  { unfold stA, nd, after_regenerate. destruct regenerate.
    - unfold write_db. by destruct (delete_all_embeddings user file_type (db st)).
    - unfold ret. by destruct st. }
  rewrite (bind_Ok _ _ _ _ _ HA).
  destruct (foldM (process_file user file_type key (hash_to_entries key current))
              0 (build_hashes_by_file current key) stA)
    as [[num_new|e] stB] eqn:HB.
  - rewrite (bind_Ok _ _ _ _ _ HB).
    destruct (foldM (delete_stale user) nd (build_hashes_by_file current key) stB)
      as [[nd'|e] stC] eqn:HC.
    + rewrite (bind_Ok _ _ _ _ _ HC).
      destruct deletion_filenames as [filenames|]; [|done].
      destruct (foldM (delete_file user) nd' (elements filenames) stC)
        as [[nd''|e] stD] eqn:HD.
      * by rewrite (bind_Ok _ _ _ _ _ HD).
      * by rewrite (bind_Raise _ _ _ _ _ HD).
    + by rewrite (bind_Raise _ _ _ _ _ HC).
  - by rewrite (bind_Raise _ _ _ _ _ HB).
Qed.

Lemma length_filter_split {A} (P : A → Prop) `{∀ x, Decision (P x)} (l : list A) :
  length (filter P l) + length (filter (λ x, ¬ P x) l) = length l.
Proof.
  induction l as [|x l IH]; [done|].
  rewrite !filter_cons. destruct (decide (P x)) as [HP|HP].
  - rewrite decide_False by tauto. simpl. lia.
  - rewrite decide_True by done. simpl. lia.
Qed.

Lemma size_list_to_set_le (l : list Hash) :
  size (list_to_set l : gset Hash) ≤ length l.
Proof.
  induction l as [|h l IH].
  - change (size (∅ : gset Hash) ≤ 0). by rewrite size_empty.
  - change (size ({[h]} ∪ list_to_set l : gset Hash) ≤ S (length l)).
    rewrite size_union_alt, size_singleton.
    assert (size (list_to_set l ∖ {[h]} : gset Hash) ≤ size (list_to_set l : gset Hash)).
    { apply subseteq_size. intros x. rewrite elem_of_difference. tauto. }
    lia.
Qed.

Lemma objects_delete_count (P : Embeddings.t → Prop) `{∀ r, Decision (P r)} s :
  length (embeddings_table (objects_delete P s).2) + (objects_delete P s).1
  = length (embeddings_table s).
Proof.
  unfold objects_delete. simpl.
  pose proof (length_filter_split P (embeddings_table s)). lia.
Qed.

(** The stale pass counts hashes, and removes a row or more for each. *)
Lemma delete_stale_count user nd item st :
  match delete_stale user nd item st with
  | (Ok nd', st') =>
      length (embeddings_table (db st')) + (nd' - nd)
      ≤ length (embeddings_table (db st)) ∧ nd ≤ nd'
  | (Raise _, _) => False
  end.
Proof.
  rewrite delete_stale_run. simpl. split; [|lia].
  replace (nd + size (stale_hashes user item (db st)) - nd)
    with (size (stale_hashes user item (db st))) by lia.
  pose proof (objects_delete_count
                (λ r, Embeddings.user r = user
                      ∧ Embeddings.hashed_value r
                        ∈ elements (stale_hashes user item (db st)))
                (db st)) as Hcount.
  unfold delete_embedding_by_hash.
  assert (size (stale_hashes user item (db st))
          ≤ (objects_delete
               (λ r, Embeddings.user r = user
                     ∧ Embeddings.hashed_value r
                       ∈ elements (stale_hashes user item (db st)))
               (db st)).1); [|unfold objects_delete in *; simpl in *; lia].
  unfold objects_delete. simpl.
  rewrite <- (length_map Embeddings.hashed_value).
  etransitivity; [|apply size_list_to_set_le].
  apply subseteq_size. intros h Hh.
  rewrite elem_of_list_to_set, list_elem_of_fmap.
  pose proof Hh as Hstale.
  apply stale_hashes_spec in Hh as (_ & r0 & Hr0 & Hu & _ & Hhash).
  exists r0. split; [done|]. apply list_elem_of_filter. split; [|done].
  split; [done|]. rewrite Hhash. by apply elem_of_elements.
Qed.

End PhaseFacts.

Section LoopFacts.

Context `{Collaborators}.

(** The first loop returns the number of rows it handed to
    [bulk_create], and the table has grown by as many. *)
Lemma creation_loop_count current file_type key user st :
  calls st = [] →
  match foldM (process_file user file_type key (hash_to_entries key current))
              0 (build_hashes_by_file current key) st with
  | (Ok n, st') =>
      n = length (created_rows (calls st'))
      ∧ length (embeddings_table (db st'))
        = length (embeddings_table (db st)) + n
  | (Raise _, _) => True
  end.
Proof.
  intros Hstart.
  apply (foldM_invariant
           (λ _ n st',
              n = length (created_rows (calls st'))
              ∧ length (embeddings_table (db st'))
                = length (embeddings_table (db st)) + n)
           (λ _ _, True)).
  - intros pre item rest n st1 Hsplit [Hn Hlen].
    pose proof (process_file_cases user file_type key
                  (hash_to_entries key current) n item st1
                  (item_in_dict current key pre rest item Hsplit)) as Hcase.
    simpl in Hcase. case_decide as Hmatch.
    + destruct Hcase as (rowss & saved & st' & -> & Hcalls' & _ & _
                         & Hmade_rows & Htable & Hmade_saved).
      apply Forall2_length in Hmade_rows, Hmade_saved.
      rewrite Hcalls', created_rows_app, Htable, !length_app.
      change (created_rows (EmbedDocuments ?t :: ?cs)) with (created_rows cs).
      rewrite created_rows_bulk. lia.
    + by rewrite Hcase.
  - rewrite Hstart. simpl. split; [done|lia].
Qed.

Lemma stale_loop_count user files nd st :
  match foldM (delete_stale user) nd files st with
  | (Ok nd', st') =>
      length (embeddings_table (db st')) + (nd' - nd)
      ≤ length (embeddings_table (db st)) ∧ nd ≤ nd'
  | (Raise _, _) => False
  end.
Proof.
  apply (foldM_invariant
           (λ _ nd' st',
              length (embeddings_table (db st')) + (nd' - nd)
              ≤ length (embeddings_table (db st)) ∧ nd ≤ nd')
           (λ _ _, False)); [|lia].
  intros pre item rest n st1 _ [Hlen Hle].
  pose proof (delete_stale_count user n item st1) as Hstep.
  destruct (delete_stale user n item st1) as [[n'|e] st']; [lia|done].
Qed.

Lemma deletion_loop_count user files nd st :
  match foldM (delete_file user) nd files st with
  | (Ok nd', st') =>
      length (embeddings_table (db st')) + (nd' - nd)
      = length (embeddings_table (db st)) ∧ nd ≤ nd'
  | (Raise _, _) => False
  end.
Proof.
  apply (foldM_invariant
           (λ _ nd' st',
              length (embeddings_table (db st')) + (nd' - nd)
              = length (embeddings_table (db st)) ∧ nd ≤ nd')
           (λ _ _, False)); [|lia].
  intros pre file_path rest n st1 _ [Hlen Hle].
  rewrite delete_file_run. simpl.
  pose proof (objects_delete_count
                (λ r, Embeddings.user r = user
                      ∧ Embeddings.file_path r = file_path) (db st1)).
  unfold delete_embedding_by_file, objects_delete in *. simpl in *. lia.
Qed.

Lemma deletion_loop_no_row user files nd st :
  match foldM (delete_file user) nd files st with
  | (Ok _, st') => no_row_under user files (db st')
  | (Raise _, _) => False
  end.
Proof.
  apply (foldM_invariant
           (λ pre _ st', no_row_under user pre (db st'))
           (λ _ _, False)).
  - intros pre file_path rest n st1 _ Hpre.
    rewrite delete_file_run. simpl.
    intros r Hr Hu [Hin|Hin%list_elem_of_singleton]%elem_of_app;
      apply list_elem_of_filter in Hr as [Hnot Hr].
    + by apply (Hpre r).
    + by apply Hnot.
  - intros r _ _ Hin. by apply elem_of_nil in Hin.
Qed.

End LoopFacts.

(** X9. A run of [update_embeddings] either returns or raises
    [AssertionError], never the [KeyError] of a dictionary lookup. When it
    returns, every model call was answered with one vector per text; when
    it raises, the last thing it did was a model call that was answered
    with another number of vectors. *)
Theorem update_embeddings_raises_only_on_mismatch `{Collaborators}
    (current_entries : list Entry) (file_type : string) (key : Key)
    (deletion_filenames : option (gset string)) (user : KhojUser)
    (regenerate : bool) (s : Store) :
  match run_update current_entries file_type key deletion_filenames user
          regenerate s with
  | (Ok _, st) => answers_match (calls st)
  | (Raise e, st) =>
      e = AssertionError
      ∧ ∃ texts, last (calls st) = Some (EmbedDocuments texts)
                 ∧ length (embed_documents texts) ≠ length texts
  end.
Proof.
  unfold run_update.
  pose proof (update_embeddings_run current_entries file_type key
                deletion_filenames user regenerate {| db := s; calls := [] |})
    as Hphases.
  pose proof (creation_loop_mismatch current_entries file_type key user
                {| db := after_regenerate user file_type regenerate s;
                   calls := [] |} eq_refl) as Hloop.
  simpl in Hphases, Hloop.
  destruct (foldM _ 0 _ _) as [[num_new|e] stB].
  - destruct Hphases as (nd & nd' & stC & stD & _ & Hrest & Hcalls & _).
    destruct deletion_filenames as [filenames|].
    + destruct Hrest as (nd'' & _ & ->). by rewrite Hcalls.
    + destruct Hrest as [_ ->]. by rewrite Hcalls.
  - rewrite Hphases. destruct Hloop as [-> (texts & Habort)].
    split; [done|]. exists texts.
    destruct Habort as (pre & item & rest & n & st & _ & _ & _ & _ & Hne & ->).
    simpl. by rewrite last_snoc.
Qed.

(** X10. A call that returns leaves no row of the owner under a file
    named in [deletion_filenames], not even a row the same call has
    created for a current entry of that file. *)
Theorem update_embeddings_deletes_named_files `{Collaborators}
    (current_entries : list Entry) (file_type : string) (key : Key)
    (filenames : gset string) (user : KhojUser) (regenerate : bool)
    (s : Store) :
  match run_update current_entries file_type key (Some filenames) user
          regenerate s with
  | (Ok _, st) =>
      Forall (λ r, Embeddings.user r = user
                   → Embeddings.file_path r ∉ filenames)
             (embeddings_table (db st))
  | (Raise _, _) => True
  end.
Proof.
  unfold run_update. rewrite update_embeddings_phases.
  destruct (foldM _ 0 _ _) as [[num_new|e] stB]; [|done].
  destruct (foldM (delete_stale user) _ _ _) as [[nd|e] stC]; [|done].
  pose proof (deletion_loop_no_row user (elements filenames) nd stC) as Hloop.
  destruct (foldM (delete_file user) _ _ _) as [[nd'|e] stD]; [|done].
  apply Forall_forall. intros r Hr Hu Hin.
  apply (Hloop r Hr Hu). by apply elem_of_elements.
Qed.

(** X11. The two counts of a call that returns: the first is the number
    of rows handed to [bulk_create]; the second never exceeds the number
    of rows that are gone, since the stale pass counts hashes and deletes
    every row of the owner that has one of them. *)
Theorem update_embeddings_counts `{Collaborators}
    (current_entries : list Entry) (file_type : string) (key : Key)
    (deletion_filenames : option (gset string)) (user : KhojUser)
    (regenerate : bool) (s : Store) :
  match run_update current_entries file_type key deletion_filenames user
          regenerate s with
  | (Ok (num_new_embeddings, num_deleted_embeddings), st) =>
      num_new_embeddings = length (created_rows (calls st))
      ∧ length (embeddings_table (db st)) + num_deleted_embeddings
        ≤ length (embeddings_table s) + num_new_embeddings
  | (Raise _, _) => True
  end.
Proof.
  unfold run_update. rewrite update_embeddings_phases.
  pose proof (creation_loop_count current_entries file_type key user
                {| db := after_regenerate user file_type regenerate s;
                   calls := [] |} eq_refl) as HB.
  cbn [db calls] in HB |- *.
  destruct (foldM _ 0 _ _) as [[num_new|e] stB]; [|done].
  destruct HB as [Hnew HlenB].
  destruct (stale_loop_total user (build_hashes_by_file current_entries key)
              (if regenerate
               then (delete_all_embeddings user file_type s).1 else 0) stB)
    as (nd1 & stC1 & HC1 & HcallsC).
  pose proof (stale_loop_count user (build_hashes_by_file current_entries key)
                (if regenerate
                 then (delete_all_embeddings user file_type s).1 else 0) stB)
    as HC.
  rewrite HC1 in HC |- *. destruct HC as [HlenC HleC].
  assert (HlenA :
    length (embeddings_table (after_regenerate user file_type regenerate s))
    + (if regenerate then (delete_all_embeddings user file_type s).1 else 0)
    = length (embeddings_table s)).
  { unfold after_regenerate. destruct regenerate; [|lia].
    apply objects_delete_count. }
  destruct deletion_filenames as [filenames|].
  - destruct (deletion_loop_total user (elements filenames) nd1 stC1)
      as (nd2 & stD & HD1 & HcallsD).
    pose proof (deletion_loop_count user (elements filenames) nd1 stC1) as HD.
    rewrite HD1 in HD |- *. destruct HD as [HlenD HleD].
    split; [congruence|lia].
  - split; [congruence|lia].
Qed.

Section CountFacts.

Context `{Collaborators}.

Lemma elem_of_stored_hashes user file_type s h :
  h ∈ stored_hashes user file_type s ↔ has_row user file_type h s.
Proof.
  unfold stored_hashes, objects_filter, has_row.
  rewrite elem_of_list_to_set, list_elem_of_fmap. split.
  - intros (r & -> & Hr). apply list_elem_of_filter in Hr as [[Hu Ht] Hr].
    by exists r.
  - intros (r & Hr & Hu & Ht & Hh). exists r. split; [done|].
    by apply list_elem_of_filter.
Qed.

Lemma hashes_to_process_stored user file_type (hs : gset Hash) s :
  hashes_to_process user file_type hs s
  = hs ∖ stored_hashes user file_type s.
Proof.
  apply set_eq. intros h.
  rewrite hashes_to_process_spec, elem_of_difference, elem_of_stored_hashes.
  done.
Qed.

Lemma stored_hashes_app user file_type d s s' hashes saved :
  embeddings_table s' = embeddings_table s ++ saved →
  Forall2 (made_from user file_type d) hashes saved →
  stored_hashes user file_type s'
  = stored_hashes user file_type s ∪ list_to_set hashes.
Proof.
  intros Htable Hmade. apply set_eq. intros h.
  rewrite elem_of_union, !elem_of_stored_hashes, elem_of_list_to_set.
  unfold has_row. rewrite Htable. split.
  - intros (r & [Hr|Hr]%elem_of_app & Hu & Ht & Hh).
    + left. by exists r.
    + right. destruct (Forall2_elem_of_r _ _ _ _ Hmade Hr) as (h' & Hh' & Hm).
      apply made_from_fields in Hm as (_ & _ & Hhash). congruence.
  - intros [(r & Hr & Hrest)|Hh].
    + exists r. split; [apply elem_of_app; by left | done].
    + destruct (Forall2_elem_of_l _ _ _ _ Hmade Hh) as (r & Hr & Hm).
      exists r. split; [apply elem_of_app; by right|].
      by apply (made_from_fields _ _ _ _ _ Hm).
Qed.

Lemma size_union_difference (U X E : gset Hash) :
  size ((U ∪ X) ∖ E) = size (U ∖ E) + size (X ∖ (E ∪ U)).
Proof.
  rewrite <- size_union.
  - f_equal. apply set_eq. intros h.
    rewrite !elem_of_union, !elem_of_difference, !elem_of_union.
    destruct (decide (h ∈ U)); tauto.
  - intros h. rewrite !elem_of_difference, !elem_of_union. tauto.
Qed.

(** The hashes of the current entries are those of [hashes_by_file]. *)
Lemma hashes_by_file_union current key :
  ⋃ (build_hashes_by_file current key).*2
  = (list_to_set (map (hash_func key) current) : gset Hash).
Proof.
  destruct (build_hashes_by_file_ok current key) as [Hfiles Hsets].
  apply set_eq. intros h.
  rewrite elem_of_union_list, elem_of_list_to_set, list_elem_of_fmap. split.
  - intros (X & HX & Hh). apply list_elem_of_fmap in HX as ([f hs] & -> & Hitem).
    destruct (Hsets f hs Hitem) as [_ Hhs].
    apply Hhs in Hh as (entry & He & _ & Hhash). by exists entry.
  - intros (entry & -> & He).
    pose proof (Hfiles entry He) as Hf.
    apply list_elem_of_fmap in Hf as ([f hs] & Hfile & Hitem). simpl in Hfile.
    exists hs. split; [apply list_elem_of_fmap; by exists (f, hs)|].
    destruct (Hsets f hs Hitem) as [_ Hhs]. apply Hhs. by exists entry.
Qed.

Lemma creation_loop_new_count current file_type key user st :
  match foldM (process_file user file_type key (hash_to_entries key current))
              0 (build_hashes_by_file current key) st with
  | (Ok n, st') =>
      n = size (list_to_set (map (hash_func key) current)
                ∖ stored_hashes user file_type (db st))
  | (Raise _, _) => True
  end.
Proof.
  rewrite <- hashes_by_file_union.
  match goal with |- match ?run with _ => _ end =>
    assert (Hgoal :
      match run with
      | (Ok n, st') =>
          stored_hashes user file_type (db st')
          = stored_hashes user file_type (db st)
            ∪ ⋃ (build_hashes_by_file current key).*2
          ∧ n = size (⋃ (build_hashes_by_file current key).*2
                      ∖ stored_hashes user file_type (db st))
      | (Raise _, _) => True
      end); [|by destruct run as [[? | ?] ?]; [destruct Hgoal|]]
  end.
  apply (foldM_invariant
           (λ pre n st',
              stored_hashes user file_type (db st')
              = stored_hashes user file_type (db st) ∪ ⋃ pre.*2
              ∧ n = size (⋃ pre.*2 ∖ stored_hashes user file_type (db st)))
           (λ _ _, True)).
  - intros pre item rest n st1 Hsplit [Hstored Hn].
    pose proof (process_file_cases user file_type key
                  (hash_to_entries key current) n item st1
                  (item_in_dict current key pre rest item Hsplit)) as Hcase.
    simpl in Hcase. case_decide as Hmatch.
    + destruct Hcase as (rowss & saved & st' & -> & _ & _ & _ & _
                         & Htable & Hmade).
      rewrite (stored_hashes_app _ _ _ _ _ _ _ Htable Hmade).
      assert (⋃ (pre ++ [item]).*2 = ⋃ pre.*2 ∪ item.2) as ->.
      { rewrite fmap_app, union_list_app_L. simpl. by rewrite union_empty_r_L. }
      rewrite list_to_set_elements_L, hashes_to_process_stored, Hstored.
      split.
      * apply set_eq. intros h.
        rewrite !elem_of_union, !elem_of_difference, !elem_of_union.
        destruct (decide (h ∈ stored_hashes user file_type (db st)));
          destruct (decide (h ∈ ⋃ pre.*2)); tauto.
      * rewrite size_union_difference, <- Hn. f_equal.
    + by rewrite Hcase.
  - simpl. split.
    + by rewrite union_empty_r_L.
    + rewrite difference_disjoint_L; [by rewrite size_empty|].
      intros h Hh. by apply elem_of_empty in Hh.
Qed.

Lemma stored_hashes_regenerated user file_type s :
  stored_hashes user file_type (after_regenerate user file_type true s) = ∅.
Proof.
  apply set_eq. intros h. rewrite elem_of_stored_hashes. split.
  - intros (r & Hr & Hu & Ht & _). simpl in Hr.
    apply list_elem_of_filter in Hr as [Hnot _]. by destruct Hnot.
  - by intros ?%elem_of_empty.
Qed.

(** The first count of a call is the count of its first loop. *)
Lemma run_update_num_new current file_type key deletion_filenames user
    regenerate s :
  match run_update current file_type key deletion_filenames user regenerate s
  with
  | (Ok (num_new, _), _) =>
      ∃ stB,
        foldM (process_file user file_type key (hash_to_entries key current))
              0 (build_hashes_by_file current key)
              {| db := after_regenerate user file_type regenerate s;
                 calls := [] |}
        = (Ok num_new, stB)
  | (Raise _, _) => True
  end.
Proof.
  unfold run_update. rewrite update_embeddings_phases. cbn [db calls].
  destruct (foldM _ 0 _ _) as [[num_new|e] stB]; [|done].
  destruct (foldM (delete_stale user) _ _ _) as [[nd|e] stC]; [|done].
  destruct deletion_filenames as [filenames|]; [|by exists stB].
  destruct (foldM (delete_file user) _ _ _) as [[nd'|e] stD]; [|done].
  by exists stB.
Qed.

End CountFacts.

(** X12. How many rows a call creates: one for each distinct hash of
    the current entries that the owner has no row of the content type for
    when the first loop starts. An entry whose text repeats, in its file or
    in another, adds nothing. *)
Theorem update_embeddings_new_count `{Collaborators}
    (current_entries : list Entry) (file_type : string) (key : Key)
    (deletion_filenames : option (gset string)) (user : KhojUser)
    (regenerate : bool) (s : Store) :
  match run_update current_entries file_type key deletion_filenames user
          regenerate s with
  | (Ok (num_new_embeddings, _), _) =>
      num_new_embeddings
      = size (list_to_set (map (hash_func key) current_entries)
              ∖ stored_hashes user file_type
                  (after_regenerate user file_type regenerate s))
  | (Raise _, _) => True
  end.
Proof.
  pose proof (run_update_num_new current_entries file_type key
                deletion_filenames user regenerate s) as Hrun.
  destruct (run_update _ _ _ _ _ _ _) as [[[num_new nd]|e] st]; [|done].
  destruct Hrun as [stB HB].
  pose proof (creation_loop_new_count current_entries file_type key user
                {| db := after_regenerate user file_type regenerate s;
                   calls := [] |}) as Hloop.
  by rewrite HB in Hloop.
Qed.

(** X13. A regenerating call that returns has created one row for each
    distinct hash of the current entries, whatever the store held. *)
Theorem update_embeddings_regenerate_count `{Collaborators}
    (current_entries : list Entry) (file_type : string) (key : Key)
    (deletion_filenames : option (gset string)) (user : KhojUser)
    (s : Store) :
  match run_update current_entries file_type key deletion_filenames user
          true s with
  | (Ok (num_new_embeddings, _), _) =>
      num_new_embeddings
      = size (list_to_set (map (hash_func key) current_entries) : gset Hash)
  | (Raise _, _) => True
  end.
Proof.
  pose proof (run_update_num_new current_entries file_type key
                deletion_filenames user true s) as Hrun.
  destruct (run_update _ _ _ _ _ _ _) as [[[num_new nd]|e] st]; [|done].
  destruct Hrun as [stB HB].
  pose proof (creation_loop_new_count current_entries file_type key user
                {| db := after_regenerate user file_type true s;
                   calls := [] |}) as Hloop.
  rewrite HB in Hloop. cbn [db] in Hloop.
  rewrite stored_hashes_regenerated in Hloop.
  by rewrite difference_empty_L in Hloop.
Qed.

Section TableFacts.

Context `{Collaborators}.

Lemma dates_of_app rows1 rows2 :
  dates_of (rows1 ++ rows2) = dates_of rows1 ++ dates_of rows2.
Proof. unfold dates_of. apply flat_map_app. Qed.

Lemma elem_of_dates_of d rows :
  d ∈ dates_of rows
  ↔ ∃ r date, r ∈ rows ∧ date ∈ extract_dates (Embeddings.raw r)
              ∧ d = {| EmbeddingsDates.date := date;
                       EmbeddingsDates.embeddings := r |}.
Proof.
  unfold dates_of. rewrite list_elem_of_In, in_flat_map. split.
  - intros (r & Hr & Hd). apply list_elem_of_In, list_elem_of_fmap in Hd
      as (date & -> & Hdate).
    exists r, date. by rewrite list_elem_of_In.
  - intros (r & date & Hr & Hdate & ->). exists r.
    rewrite <- !list_elem_of_In. split; [done|].
    apply list_elem_of_fmap. by exists date.
Qed.

(** The batches of a file: what they add to the two tables. *)
Lemma create_batches_tables user file_type d batches :
  ∀ n st,
  (∀ b hv, b ∈ batches → hv ∈ b → is_Some (d !! hv.1)) →
  ∃ saved st',
    foldM (create_batch user file_type d) n batches st
    = (Ok (n + length (concat batches)), st')
    ∧ embeddings_table (db st') = embeddings_table (db st) ++ saved
    ∧ dates_table (db st') = dates_table (db st) ++ dates_of saved.
Proof.
  induction batches as [|b batches IH]; intros n st Hd; simpl.
  - exists [], st. unfold ret. rewrite Nat.add_0_r, !app_nil_r. done.
  - destruct (new_embeddings_Ok user file_type d b) as (rows & Hrows & Hmade).
    { intros hv Hhv. eapply Hd; [left | done]. }
    pose proof (Forall2_length _ _ _ Hmade) as Hlen.
    rewrite (bind_Ok _ _ _ _ _ (create_batch_Ok user file_type d n b st rows Hrows)).
    match goal with |- context [foldM _ ?n' batches ?st1] =>
      destruct (IH n' st1) as (saved & st' & Hrun & Htable & Hdates)
    end.
    { intros b' hv Hb' Hhv. eapply Hd; [by right | done]. }
    exists (imap (λ i r, with_pk (next_pk (db st) + i) r) rows ++ saved), st'.
    rewrite Hrun, Htable, Hdates. simpl.
    rewrite length_app, dates_of_app, <- !app_assoc.
    split_and!; [|done|done]. do 2 f_equal. lia.
Qed.

(** One turn of the first loop, however it ends: what it adds to the
    two tables. *)
Lemma process_file_tables user file_type key d n (item : string * gset Hash) st :
  (∀ h, h ∈ item.2 → is_Some (d !! h)) →
  ∃ saved,
    embeddings_table (db (process_file user file_type key d n item st).2)
    = embeddings_table (db st) ++ saved
    ∧ dates_table (db (process_file user file_type key d n item st).2)
      = dates_table (db st) ++ dates_of saved.
Proof.
  intros Hd.
  set (hashes := elements (hashes_to_process user file_type item.2 (db st))).
  set (texts := data_to_embed d key hashes).
  assert (Hdh : ∀ h, h ∈ hashes → is_Some (d !! h)).
  { intros h Hh. apply Hd. apply elem_of_elements in Hh.
    unfold hashes_to_process in Hh. by apply elem_of_difference in Hh as [Hh _]. }
  destruct (getitems_Ok d hashes Hdh) as [Hget Hlen].
  assert (Htexts : length texts = length hashes).
  { unfold texts, data_to_embed. by rewrite length_map. }
  assert (Hstep :
    process_file user file_type key d n item st
    = (if decide (length texts = length (embed_documents texts)) then
         foldM (create_batch user file_type d) n
           (grouper (zip hashes (embed_documents texts))
                    (200 `min` length texts))
       else raise AssertionError)
        {| db := db st; calls := calls st ++ [EmbedDocuments texts] |}).
  { unfold process_file, read_db, lift, log_call, bind. fold hashes.
    rewrite Hget. fold (data_to_embed d key hashes). fold texts.
    change (size (hashes_to_process user file_type item.2 (db st)))
      with (length hashes).
    by rewrite <- Htexts. }
  rewrite Hstep. clear Hstep.
  destruct (decide (length texts = length (embed_documents texts))) as [Heq|Hne].
  - set (zipped := zip hashes (embed_documents texts)).
    assert (Hzlen : length zipped = length texts).
    { unfold zipped. rewrite length_zip. lia. }
    destruct (grouper_spec zipped (200 `min` length texts)) as [Hconcat Hsizes].
    { destruct zipped; [by left|]. right. simpl in Hzlen. lia. }
    match goal with |- context [foldM _ n ?bs ?st1] =>
      destruct (create_batches_tables user file_type d bs n st1)
        as (saved & st' & Hrun & Htable & Hdates)
    end.
    { intros b hv Hb Hhv. apply Hdh.
      assert (Hin : hv ∈ zipped).
      { rewrite <- Hconcat. apply elem_of_concat. by exists b. }
      unfold zipped in Hin. destruct hv as [h v].
      apply elem_of_zip_l in Hin. exact Hin. }
    exists saved. by rewrite Hrun.
  - exists []. simpl. by rewrite !app_nil_r.
Qed.

(** What every step of a run keeps, the run keeps: deleting rows, each
    with its date rows, and appending rows with theirs. *)
Lemma run_update_preserves (J : Store → Prop) current file_type key
    deletion_filenames user regenerate s :
  (∀ (P : Embeddings.t → Prop) (HP : ∀ r, Decision (P r)) s0,
     J s0 → J (objects_delete P s0).2) →
  (∀ s0 s1 saved,
     J s0 → embeddings_table s1 = embeddings_table s0 ++ saved →
     dates_table s1 = dates_table s0 ++ dates_of saved → J s1) →
  J s →
  J (db (run_update current file_type key deletion_filenames user
           regenerate s).2).
Proof.
  intros Hdel Hadd Hs.
  assert (HA : J (after_regenerate user file_type regenerate s)).
  { unfold after_regenerate. destruct regenerate; [|done]. by apply Hdel. }
  assert (HB : match foldM (process_file user file_type key
                              (hash_to_entries key current))
                       0 (build_hashes_by_file current key)
                       {| db := after_regenerate user file_type regenerate s;
                          calls := [] |} with
               | (Ok _, st') | (Raise _, st') => J (db st')
               end).
  { apply (foldM_invariant (λ _ _ st', J (db st')) (λ _ st', J (db st')));
      [|done].
    intros pre item rest n st1 Hsplit HJ.
    destruct (process_file_tables user file_type key
                (hash_to_entries key current) n item st1
                (item_in_dict current key pre rest item Hsplit))
      as (saved & Htable & Hdates).
    destruct (process_file _ _ _ _ _ _ _) as [[n'|e] st'];
      by apply (Hadd (db st1) _ saved). }
  assert (HC : ∀ nd st, J (db st) →
               match foldM (delete_stale user) nd
                       (build_hashes_by_file current key) st with
               | (Ok _, st') => J (db st')
               | (Raise _, _) => False
               end).
  { intros nd st Hst.
    apply (foldM_invariant (λ _ _ st', J (db st')) (λ _ _, False)); [|done].
    intros pre item rest n st1 _ HJ. rewrite delete_stale_run. simpl.
    by apply Hdel. }
  assert (HD : ∀ files nd st, J (db st) →
               match foldM (delete_file user) nd files st with
               | (Ok _, st') => J (db st')
               | (Raise _, _) => False
               end).
  { intros files nd st Hst.
    apply (foldM_invariant (λ _ _ st', J (db st')) (λ _ _, False)); [|done].
    intros pre item rest n st1 _ HJ. rewrite delete_file_run. simpl.
    by apply Hdel. }
  unfold run_update. rewrite update_embeddings_phases. cbn [db calls].
  destruct (foldM _ 0 _ _) as [[num_new|e] stB]; [|done].
  match goal with |- context [foldM (delete_stale user) ?nd ?l stB] =>
    specialize (HC nd stB HB); destruct (foldM (delete_stale user) nd l stB)
      as [[nd'|e] stC]; [|done]
  end.
  destruct deletion_filenames as [filenames|]; [|done].
  specialize (HD (elements filenames) nd' stC HC).
  by destruct (foldM (delete_file user) _ _ _) as [[nd''|e] stD].
Qed.

End TableFacts.

(** X14. Date rows stay linked: when every date row of the store belongs
    to an embedding row of the store, so it is after a call, returned or
    raised: the date rows of a deleted row go with it, and a new date row
    points to a row the call has saved. *)
Theorem update_embeddings_dates_linked `{Collaborators}
    (current_entries : list Entry) (file_type : string) (key : Key)
    (deletion_filenames : option (gset string)) (user : KhojUser)
    (regenerate : bool) (s : Store) :
  dates_linked s →
  dates_linked
    (db (run_update current_entries file_type key deletion_filenames user
           regenerate s).2).
Proof.
  unfold dates_linked.
  apply (run_update_preserves
           (λ s', Forall (λ d, EmbeddingsDates.embeddings d
                               ∈ embeddings_table s') (dates_table s'))).
  - intros P HP s0 Hs0. simpl. apply Forall_forall. intros d Hd.
    apply list_elem_of_filter in Hd as [Hnot Hd].
    apply list_elem_of_filter. split; [done|].
    rewrite Forall_forall in Hs0. by apply Hs0.
  - intros s0 s1 saved Hs0 Htable Hdates.
    rewrite Htable, Hdates. apply Forall_app. split.
    + eapply Forall_impl; [exact Hs0|]. intros d Hd.
      apply elem_of_app. by left.
    + apply Forall_forall. intros d Hd. apply elem_of_app. right.
      apply elem_of_dates_of in Hd as (r & date & Hr & _ & ->). done.
Qed.

(** X14 at work: a store with a row and its date row, and a call that
    replaces the row. *)
Lemma update_embeddings_dates_linked_witness :
  dates_linked
    (db (run_update (H := dated_collaborators) [sample_entry "y" "a.org"]
           "org" key_compiled None None false store_x_dated).2).
Proof.
  apply (update_embeddings_dates_linked (H := dated_collaborators)).
  repeat constructor.
Defined.

(** X15. Every row a call adds has its date rows: a row of the final
    store that the store did not hold before comes with one date row for
    each date the date filter reads from its raw text. *)
Theorem update_embeddings_dates_of_new_rows `{Collaborators}
    (current_entries : list Entry) (file_type : string) (key : Key)
    (deletion_filenames : option (gset string)) (user : KhojUser)
    (regenerate : bool) (s : Store) :
  let s' := db (run_update current_entries file_type key deletion_filenames
                  user regenerate s).2 in
  Forall (λ r, r ∈ embeddings_table s ∨ has_its_dates s' r)
         (embeddings_table s').
Proof.
  simpl.
  apply (run_update_preserves
           (λ s', Forall (λ r, r ∈ embeddings_table s ∨ has_its_dates s' r)
                         (embeddings_table s'))).
  - intros P HP s0 Hs0. simpl. apply Forall_forall. intros r Hr.
    apply list_elem_of_filter in Hr as [Hnot Hr].
    rewrite Forall_forall in Hs0. destruct (Hs0 r Hr) as [Hold|Hdates].
    + by left.
    + right. intros date Hdate. simpl.
      apply list_elem_of_filter. split; [done | by apply Hdates].
  - intros s0 s1 saved Hs0 Htable Hdates.
    rewrite Htable. apply Forall_app. split.
    + eapply Forall_impl; [exact Hs0|]. intros r [Hold|Hr]; [by left|].
      right. intros date Hdate. rewrite Hdates. apply elem_of_app. left.
      by apply Hr.
    + apply Forall_forall. intros r Hr. right. intros date Hdate.
      rewrite Hdates. apply elem_of_app. right.
      apply elem_of_dates_of. by exists r, date.
  - apply Forall_forall. intros r Hr. by left.
Qed.

Section SyncFacts.

Context `{Collaborators}.

Lemma none_stale_objects_delete (P : Embeddings.t → Prop)
    `{∀ r, Decision (P r)} user files s :
  none_stale user files s → none_stale user files (objects_delete P s).2.
Proof.
  intros Hs f hs r Hitem Hr. simpl in Hr.
  apply list_elem_of_filter in Hr as [_ Hr]. by apply (Hs f hs r).
Qed.

(** The stale pass leaves no row of the owner under a file it has
    visited with a hash the file does not have. *)
Lemma stale_loop_none_stale user files nd st :
  match foldM (delete_stale user) nd files st with
  | (Ok _, st') => none_stale user files (db st')
  | (Raise _, _) => False
  end.
Proof.
  apply (foldM_invariant
           (λ pre _ st', none_stale user pre (db st')) (λ _ _, False)).
  - intros pre item rest n st1 _ Hpre. rewrite delete_stale_run. simpl.
    intros f hs r [Hitem|Hitem%list_elem_of_singleton]%elem_of_app Hr Hu Hf.
    + revert Hr Hu Hf.
      by apply (none_stale_objects_delete _ user pre (db st1) Hpre f hs r).
    + subst item. simpl in Hr.
      apply list_elem_of_filter in Hr as [Hnot Hr].
      destruct (decide (Embeddings.hashed_value r ∈ hs)) as [|Hout]; [done|].
      destruct Hnot. split; [done|]. apply elem_of_elements.
      apply stale_hashes_spec. split; [done|]. by exists r.
  - intros f hs r Hitem. by apply elem_of_nil in Hitem.
Qed.

Lemma deletion_loop_none_stale user files filenames nd st :
  none_stale user files (db st) →
  match foldM (delete_file user) nd filenames st with
  | (Ok _, st') => none_stale user files (db st')
  | (Raise _, _) => False
  end.
Proof.
  intros Hst.
  apply (foldM_invariant
           (λ _ _ st', none_stale user files (db st')) (λ _ _, False));
    [|done].
  intros pre file_path rest n st1 _ Hpre. rewrite delete_file_run. simpl.
  by apply none_stale_objects_delete.
Qed.

(** Every current entry is an entry of its file in [hashes_by_file]. *)
Lemma all_stored_entries user file_type key current s :
  all_stored user file_type (build_hashes_by_file current key) s →
  Forall (λ entry, has_row user file_type (hash_func key entry) s) current.
Proof.
  intros Hall. apply Forall_forall. intros entry He.
  destruct (build_hashes_by_file_ok current key) as [Hfiles Hsets].
  pose proof (Hfiles entry He) as Hf.
  apply list_elem_of_fmap in Hf as ([f hs] & Hfile & Hitem). simpl in Hfile.
  apply (Hall f hs); [done|].
  destruct (Hsets f hs Hitem) as [_ Hhs]. apply Hhs. by exists entry.
Qed.

End SyncFacts.

(** X16. After a call that returns, the store holds no stale row for a
    current file: a row of the owner stored under the file of a current
    entry has the hash of a current entry of that file. *)
Theorem update_embeddings_leaves_none_stale `{Collaborators}
    (current_entries : list Entry) (file_type : string) (key : Key)
    (deletion_filenames : option (gset string)) (user : KhojUser)
    (regenerate : bool) (s : Store) :
  match run_update current_entries file_type key deletion_filenames user
          regenerate s with
  | (Ok _, st) =>
      Forall (λ r, Embeddings.user r = user →
                   ∀ entry, entry ∈ current_entries →
                            file entry = Embeddings.file_path r →
                   ∃ entry', entry' ∈ current_entries
                             ∧ file entry' = Embeddings.file_path r
                             ∧ hash_func key entry' = Embeddings.hashed_value r)
             (embeddings_table (db st))
  | (Raise _, _) => True
  end.
Proof.
  assert (Hgoal :
    match run_update current_entries file_type key deletion_filenames user
            regenerate s with
    | (Ok _, st) =>
        none_stale user (build_hashes_by_file current_entries key) (db st)
    | (Raise _, _) => True
    end).
  { unfold run_update. rewrite update_embeddings_phases.
    destruct (foldM _ 0 _ _) as [[num_new|e] stB]; [|done].
    match goal with |- context [foldM (delete_stale user) ?nd ?l stB] =>
      pose proof (stale_loop_none_stale user l nd stB) as HC;
      destruct (foldM (delete_stale user) nd l stB) as [[nd'|e] stC]; [|done]
    end.
    destruct deletion_filenames as [filenames|]; [|done].
    pose proof (deletion_loop_none_stale user _ (elements filenames) nd' stC HC)
      as HD.
    by destruct (foldM (delete_file user) _ _ _) as [[nd''|e] stD]. }
  destruct (run_update _ _ _ _ _ _ _) as [[counts|e] st]; [|done].
  apply Forall_forall. intros r Hr Hu entry He Hfile.
  destruct (build_hashes_by_file_ok current_entries key) as [Hfiles Hsets].
  pose proof (Hfiles entry He) as Hf.
  apply list_elem_of_fmap in Hf as ([f hs] & Hf & Hitem). simpl in Hf.
  destruct (Hsets f hs Hitem) as [_ Hhs].
  assert (Hin : Embeddings.hashed_value r ∈ hs).
  { apply (Hgoal f hs r Hitem Hr Hu). congruence. }
  apply Hhs in Hin as (entry' & He' & Hf' & Hh').
  exists entry'. split; [done|]. split; congruence.
Qed.

(** X17. A call brings the index up to the current entries: when the
    model answers every call with one vector per text and the store holds
    no misfiled row of the owner, a call without deletion file names
    returns, and the store then holds a row of the owner and content type
    for the hash of every current entry. *)
Theorem update_embeddings_stores_current `{Collaborators}
    (current_entries : list Entry) (file_type : string) (key : Key)
    (user : KhojUser) (regenerate : bool) (s : Store) :
  (∀ texts, length (embed_documents texts) = length texts) →
  no_misfiled user key current_entries s →
  ∃ counts st,
    run_update current_entries file_type key None user regenerate s
    = (Ok counts, st)
    ∧ Forall (λ entry, has_row user file_type (hash_func key entry) (db st))
             current_entries.
Proof.
  intros Hcontract Hmis.
  pose proof (update_embeddings_run current_entries file_type key None user
                regenerate {| db := s; calls := [] |}) as Hphases.
  simpl in Hphases.
  destruct (creation_loop_stores current_entries file_type key user
              {| db := after_regenerate user file_type regenerate s;
                 calls := [] |} Hcontract)
    as (n & stB & HB & HmisB & HallB).
  { intros r Hr. apply Hmis. by apply after_regenerate_subseteq in Hr. }
  rewrite HB in Hphases.
  destruct Hphases as (nd & nd' & stC & stD & HC & [-> Hrun] & _ & _).
  destruct (stale_loop_keeps current_entries file_type key user nd stB
              HmisB HallB) as (nd'' & stC' & HC' & HallC & HstaleC).
  rewrite HC' in HC. injection HC as <- <-.
  exists (n, nd''), stC'. split; [done|]. by apply all_stored_entries.
Qed.

(** X17 at work: a text that two files share, indexed from scratch. *)
Lemma update_embeddings_stores_current_witness :
  ∃ counts st,
    run_update (H := sample_collaborators)
      [sample_entry "x" "a.org"; sample_entry "x" "b.org";
       sample_entry "y" "a.org"] "org" key_compiled None None false empty_store
    = (Ok counts, st)
    ∧ Forall (λ entry, has_row (H := sample_collaborators) None "org"
                         (hash_func (H := sample_collaborators) key_compiled entry)
                         (db st))
             [sample_entry "x" "a.org"; sample_entry "x" "b.org";
              sample_entry "y" "a.org"].
Proof.
  apply (update_embeddings_stores_current (H := sample_collaborators)).
  - intros texts. simpl. apply length_map.
  - intros r Hr. simpl in Hr. by apply elem_of_nil in Hr.
Defined.

Section OrderFacts.

Context `{Collaborators}.

Lemma setdefault_add_keys f h (l : list (string * gset Hash)) :
  map fst (setdefault_add f h l)
  = if decide (f ∈ map fst l) then map fst l else map fst l ++ [f].
Proof.
  induction l as [|[f' hs] l IH].
  - destruct (decide (f ∈ map fst [])) as [Hin|_]; [|done].
    by apply elem_of_nil in Hin.
  - cbn [setdefault_add]. destruct (decide (f' = f)) as [->|Hne].
    + destruct (decide (f ∈ map fst ((f, hs) :: l))) as [_|Hout]; [done|].
      destruct Hout. left.
    + cbn [map fst]. rewrite IH.
      destruct (decide (f ∈ map fst l)) as [Hin|Hout];
        destruct (decide (f ∈ f' :: map fst l)) as [Hin'|Hout']; try done.
      * destruct Hout'. by right.
      * apply elem_of_cons in Hin' as [?|?]; [congruence|done].
Qed.

Lemma hashes_by_file_keys current key :
  map fst (build_hashes_by_file current key)
  = reverse (remove_dups (reverse (map file current))).
Proof.
  induction current as [|entry current IH] using rev_ind.
  { reflexivity. }
  rewrite build_hashes_by_file_snoc, setdefault_add_keys, IH.
  rewrite map_app, reverse_app. cbn [map reverse].
  change (reverse [file entry]) with [file entry]. cbn [app remove_dups].
  destruct (decide_rel elem_of (file entry) (reverse (map file current)))
    as [Hin|Hout].
  - rewrite decide_True; [done|].
    by rewrite elem_of_reverse, elem_of_remove_dups.
  - rewrite decide_False by (by rewrite elem_of_reverse, elem_of_remove_dups).
    by rewrite reverse_cons.
Qed.

End OrderFacts.

(** X18. [hashes_by_file] is the index of the current entries by file:
    it lists the files in the order in which they first appear among the
    entries, each once, and under each file exactly the hashes of the
    entries of that file. The first loop and the stale pass visit the
    files in that order. *)
Theorem hashes_by_file_first_seen `{Collaborators}
    (current_entries : list Entry) (key : Key) :
  map fst (build_hashes_by_file current_entries key)
  = reverse (remove_dups (reverse (map file current_entries)))
  ∧ Forall (λ item,
              ∀ h, h ∈ item.2
                   ↔ ∃ entry, entry ∈ current_entries
                              ∧ file entry = item.1
                              ∧ hash_func key entry = h)
           (build_hashes_by_file current_entries key).
Proof.
  split; [apply hashes_by_file_keys|].
  destruct (build_hashes_by_file_ok current_entries key) as [_ Hsets].
  apply Forall_forall. intros [f hs] Hitem. by destruct (Hsets f hs Hitem).
Qed.

Module ConfigMigrationFacts.
Import ConfigMigration.
Local Open Scope string_scope.
Local Open Scope list_scope.

Lemma with_conversation_id conversation (raw processor : gmap string yaml) :
  raw !! "processor" = Some (YMap processor) →
  processor !! "conversation" = Some conversation →
  with_conversation conversation raw processor = YMap raw.
Proof.
  intros Hraw Hprocessor. unfold with_conversation.
  by rewrite (insert_id processor), (insert_id raw).
Qed.

Lemma with_conversation_again c1 c2 (raw processor : gmap string yaml) :
  set_conversation c2 (with_conversation c1 raw processor)
  = inr (with_conversation c2 raw processor).
Proof.
  unfold set_conversation, with_conversation. cbn [getitem setitem].
  rewrite lookup_insert_eq. cbn [setitem]. by rewrite !insert_insert_eq.
Qed.

Lemma conversation_of_with c (raw processor : gmap string yaml) :
  conversation_of (with_conversation c raw processor) = inr c.
Proof.
  unfold conversation_of, with_conversation. cbn [getitem].
  rewrite lookup_insert_eq. cbn [getitem]. by rewrite lookup_insert_eq.
Qed.

Lemma set_in_conversation_with key x (cm raw processor : gmap string yaml) :
  set_in_conversation key x (with_conversation (YMap cm) raw processor)
  = inr (with_conversation (YMap (<[key := x]> cm)) raw processor).
Proof.
  unfold set_in_conversation, with_conversation. cbn [getitem setitem].
  rewrite lookup_insert_eq. cbn [getitem setitem].
  rewrite lookup_insert_eq. cbn [setitem]. by rewrite !insert_insert_eq.
Qed.

(** The first block on a document with a conversation mapping. *)
Lemma add_enable_local_llm_map (cm raw processor : gmap string yaml) docs :
  add_enable_local_llm
    {| raw_config := with_conversation (YMap cm) raw processor; saved := docs |}
  = (inr tt,
     if decide (is_Some (cm !! "enable-local-llm")) then
       {| raw_config := with_conversation (YMap cm) raw processor;
          saved := docs |}
     else
       let doc := with_conversation
                    (YMap (<["enable-local-llm" := YBool false]> cm))
                    raw processor in
       {| raw_config := doc; saved := docs ++ [doc] |}).
Proof.
  unfold add_enable_local_llm, bind, eval, assign, save_config_to_file, ret.
  cbn [raw_config saved]. rewrite conversation_of_with. cbn [contains].
  destruct (decide (is_Some (cm !! "enable-local-llm"))) as [Hflag|Hflag].
  - by rewrite bool_decide_true.
  - rewrite bool_decide_false by done. cbn [negb raw_config saved].
    by rewrite set_in_conversation_with.
Qed.

(** The second block on a document with a conversation mapping. *)
Lemma move_openai_settings_map (cm raw processor : gmap string yaml) docs :
  move_openai_settings
    {| raw_config := with_conversation (YMap cm) raw processor; saved := docs |}
  = (inr tt,
     if is_none (get_or_null "openai-api-key" cm)
        && is_none (get_or_null "chat-model" cm) then
       {| raw_config := with_conversation (YMap cm) raw processor;
          saved := docs |}
     else
       let doc :=
         with_conversation
           (YMap (<["openai-ai-model" :=
                      YMap (<["chat-model" := get_or_null "chat-model" cm]>
                              (<["openai-api-key" :=
                                   get_or_null "openai-api-key" cm]> ∅))]>
                    (<["conversation-logfile" :=
                         get_or_null "conversation-logfile" cm]> ∅)))
           raw processor in
       {| raw_config := doc; saved := docs ++ [doc] |}).
Proof.
  unfold move_openai_settings, bind, eval, assign, save_config_to_file, ret.
  cbn [raw_config saved]. rewrite !conversation_of_with. cbn [get].
  fold (get_or_null "openai-api-key" cm) (get_or_null "chat-model" cm)
       (get_or_null "conversation-logfile" cm).
  destruct (is_none _ && is_none _); [done|].
  cbn [raw_config saved]. rewrite !conversation_of_with. cbn [get].
  by rewrite with_conversation_again.
Qed.

Lemma get_or_null_flag key (cm : gmap string yaml) x :
  key ≠ "enable-local-llm" →
  get_or_null key (<["enable-local-llm" := x]> cm) = get_or_null key cm.
Proof. intros Hkey. unfold get_or_null. by rewrite lookup_insert_ne. Qed.

(** What a call saves for a document whose [processor] and
    [conversation] are mappings. *)
Lemma migrate_maps (m pm cm : gmap string yaml) :
  m !! "processor" = Some (YMap pm) →
  pm !! "conversation" = Some (YMap cm) →
  migrate_processor_conversation_schema (YMap m)
  = (inr tt,
     (if decide (is_Some (cm !! "enable-local-llm")) then []
      else [with_conversation
              (YMap (<["enable-local-llm" := YBool false]> cm)) m pm])
     ++ (if is_none (get_or_null "openai-api-key" cm)
            && is_none (get_or_null "chat-model" cm) then []
         else [with_conversation
                 (YMap (<["openai-ai-model" :=
                            YMap (<["chat-model" := get_or_null "chat-model" cm]>
                                    (<["openai-api-key" :=
                                         get_or_null "openai-api-key" cm]> ∅))]>
                          (<["conversation-logfile" :=
                               get_or_null "conversation-logfile" cm]> ∅)))
                 m pm])).
Proof.
  intros Hm Hpm.
  unfold migrate_processor_conversation_schema, migrate_body.
  unfold bind at 1, eval at 1. cbn [raw_config contains].
  rewrite Hm, bool_decide_true by done. cbn [negb].
  unfold bind at 1, eval at 1. cbn [raw_config contains getitem].
  rewrite Hm. cbn [contains]. rewrite Hpm, bool_decide_true by done.
  cbn [negb]. unfold bind at 1.
  rewrite <- (with_conversation_id (YMap cm) m pm Hm Hpm).
  rewrite add_enable_local_llm_map.
  destruct (decide (is_Some (cm !! "enable-local-llm"))) as [Hflag|Hflag].
  - rewrite move_openai_settings_map.
    by destruct (is_none _ && is_none _).
  - cbn zeta. rewrite move_openai_settings_map.
    rewrite !get_or_null_flag by done.
    by destruct (is_none _ && is_none _).
Qed.

(** Every other document: the call saves nothing, and what it raises, if
    it raises, is no [KeyError]. *)
Ltac run_shape :=
  repeat first
    [ progress cbn -[lookup insert substring_of existsb bool_decide]
    | match goal with H : _ !! _ = Some _ |- _ => rewrite H end
    | match goal with
      | |- context [substring_of ?pat ?s] => destruct (substring_of pat s)
      end
    | match goal with
      | |- context [existsb ?f ?items] => destruct (existsb f items)
      end ];
  try done.

(** Every other document: the call saves nothing, and what it raises, if
    it raises, is no [KeyError]. *)
Lemma migrate_other_shapes (loaded : yaml) :
  (∀ m pm cm, loaded = YMap m → m !! "processor" = Some (YMap pm) →
              pm !! "conversation" = Some (YMap cm) → False) →
  (migrate_processor_conversation_schema loaded).2 = []
  ∧ (migrate_processor_conversation_schema loaded).1 ≠ inl KeyError.
Proof.
  intros Hshape.
  unfold migrate_processor_conversation_schema, migrate_body,
    add_enable_local_llm, move_openai_settings, conversation_of,
    set_in_conversation, bind, eval, assign, save_config_to_file, ret.
  destruct loaded as [| | | s|items|m]; run_shape.
  destruct (m !! "processor") as [processor|] eqn:Hm;
    [rewrite bool_decide_true by done
    |by rewrite bool_decide_false by (by intros [? ?])].
  destruct processor as [| | | s|items|pm]; run_shape.
  destruct (pm !! "conversation") as [conversation|] eqn:Hpm;
    [rewrite bool_decide_true by done
    |by rewrite bool_decide_false by (by intros [? ?])].
  destruct conversation as [| | | s|items|cm]; run_shape.
  by destruct (Hshape m pm cm).
Qed.

Lemma shape_cases (loaded : yaml) :
  (∃ m pm cm, loaded = YMap m ∧ m !! "processor" = Some (YMap pm)
              ∧ pm !! "conversation" = Some (YMap cm))
  ∨ (∀ m pm cm, loaded = YMap m → m !! "processor" = Some (YMap pm) →
                pm !! "conversation" = Some (YMap cm) → False).
Proof.
  destruct loaded as [| | | s|items|m]; try (by right).
  destruct (m !! "processor") as [[| | | s|items|pm]|] eqn:Hm;
    try (right; intros m' pm' cm' [= <-]; congruence).
  destruct (pm !! "conversation") as [[| | | s|items|cm]|] eqn:Hpm;
    try (right; intros m' pm' cm' [= <-]; congruence).
  left. by exists m, pm, cm.
Qed.

Lemma with_conversation_lookups c (m pm : gmap string yaml) :
  ∃ m' pm', with_conversation c m pm = YMap m'
            ∧ m' !! "processor" = Some (YMap pm')
            ∧ pm' !! "conversation" = Some c
            ∧ ∀ c', with_conversation c' m' pm' = with_conversation c' m pm.
Proof.
  eexists _, _. split; [reflexivity|]. split; [apply lookup_insert_eq|].
  split; [apply lookup_insert_eq|].
  intros c'. unfold with_conversation. by rewrite !insert_insert_eq.
Qed.

(** The document a call leaves when the model settings move. *)
Lemma file_after_moved (m pm cm : gmap string yaml) :
  m !! "processor" = Some (YMap pm) →
  pm !! "conversation" = Some (YMap cm) →
  is_none (get_or_null "openai-api-key" cm)
  && is_none (get_or_null "chat-model" cm) = false →
  file_after (YMap m)
  = with_conversation
      (YMap (<["openai-ai-model" :=
                 YMap (<["chat-model" := get_or_null "chat-model" cm]>
                         (<["openai-api-key" :=
                              get_or_null "openai-api-key" cm]> ∅))]>
               (<["conversation-logfile" :=
                    get_or_null "conversation-logfile" cm]> ∅)))
      m pm.
Proof.
  intros Hm Hpm Hset. unfold file_after.
  rewrite (migrate_maps m pm cm Hm Hpm), Hset. cbn [snd].
  by rewrite last_snoc.
Qed.

(** A conversation mapping of the new format without the flag: the call
    adds the flag and saves once. *)
Lemma migrate_adds_flag (m pm cm : gmap string yaml) :
  m !! "processor" = Some (YMap pm) →
  pm !! "conversation" = Some (YMap cm) →
  cm !! "enable-local-llm" = None →
  is_none (get_or_null "openai-api-key" cm)
  && is_none (get_or_null "chat-model" cm) = true →
  migrate_processor_conversation_schema (YMap m)
  = (inr tt,
     [with_conversation (YMap (<["enable-local-llm" := YBool false]> cm))
        m pm]).
Proof.
  intros Hm Hpm Hflag Hnone.
  rewrite (migrate_maps m pm cm Hm Hpm), Hnone.
  rewrite decide_False by (rewrite Hflag; by intros [? ?]).
  by rewrite app_nil_r.
Qed.

(** A conversation mapping with the flag and no model setting of the old
    format: the call saves nothing. *)
Lemma migrate_settled (m pm cm : gmap string yaml) :
  m !! "processor" = Some (YMap pm) →
  pm !! "conversation" = Some (YMap cm) →
  is_Some (cm !! "enable-local-llm") →
  is_none (get_or_null "openai-api-key" cm)
  && is_none (get_or_null "chat-model" cm) = true →
  migrate_processor_conversation_schema (YMap m) = (inr tt, []).
Proof.
  intros Hm Hpm Hflag Hnone.
  rewrite (migrate_maps m pm cm Hm Hpm), Hnone.
  by rewrite decide_True.
Qed.

(** One call on a document with a conversation mapping: the document it
    leaves has no model setting of the old format in its conversation
    mapping, and has the flag if the document had no such setting. *)
Lemma file_after_maps (m pm cm : gmap string yaml) :
  m !! "processor" = Some (YMap pm) →
  pm !! "conversation" = Some (YMap cm) →
  ∃ cm',
    file_after (YMap m) = with_conversation (YMap cm') m pm
    ∧ is_none (get_or_null "openai-api-key" cm')
      && is_none (get_or_null "chat-model" cm') = true
    ∧ (is_none (get_or_null "openai-api-key" cm)
       && is_none (get_or_null "chat-model" cm) = true →
       is_Some (cm' !! "enable-local-llm")).
Proof.
  intros Hm Hpm. unfold file_after.
  rewrite (migrate_maps m pm cm Hm Hpm). cbn [snd].
  destruct (is_none (get_or_null "openai-api-key" cm)
            && is_none (get_or_null "chat-model" cm)) eqn:Hnone.
  - rewrite app_nil_r.
    destruct (decide (is_Some (cm !! "enable-local-llm"))) as [Hflag|Hflag].
    + exists cm. cbn [last default].
      by rewrite (with_conversation_id (YMap cm) m pm Hm Hpm).
    + exists (<["enable-local-llm" := YBool false]> cm). cbn [last default].
      split; [done|]. rewrite !get_or_null_flag by done.
      split; [done|]. intros _. by rewrite lookup_insert_eq.
  - rewrite last_snoc. cbn [default]. eexists. split; [reflexivity|].
    split; [|done]. unfold get_or_null.
    by rewrite !lookup_insert_ne, lookup_empty by done.
Qed.

(** X19. A document of the old format is rewritten: when [processor]
    and its [conversation] are mappings and the conversation has an
    [openai-api-key] or a [chat-model] that is not null, the call returns,
    and the document it leaves is the loaded one with the conversation
    replaced by a mapping of two keys: [openai-ai-model], holding the two
    settings, and [conversation-logfile]. Every other key of the old
    conversation is dropped, and the new one has no [enable-local-llm]. *)
Theorem migrate_moves_openai_settings (raw processor conversation : gmap string yaml) :
  raw !! "processor" = Some (YMap processor) →
  processor !! "conversation" = Some (YMap conversation) →
  is_none (get_or_null "openai-api-key" conversation)
  && is_none (get_or_null "chat-model" conversation) = false →
  (migrate_processor_conversation_schema (YMap raw)).1 = inr tt
  ∧ file_after (YMap raw)
    = with_conversation
        (YMap (<["openai-ai-model" :=
                   YMap (<["chat-model" :=
                             get_or_null "chat-model" conversation]>
                           (<["openai-api-key" :=
                                get_or_null "openai-api-key" conversation]>
                              ∅))]>
                 (<["conversation-logfile" :=
                      get_or_null "conversation-logfile" conversation]> ∅)))
        raw processor.
Proof.
  intros Hraw Hprocessor Hset. split.
  - by rewrite (migrate_maps raw processor conversation Hraw Hprocessor).
  - by apply file_after_moved.
Qed.

(** X19 at work, on the old format of the module docstring. *)
Lemma migrate_moves_openai_settings_witness :
  (migrate_processor_conversation_schema (YMap old_raw_config)).1 = inr tt
  ∧ file_after (YMap old_raw_config)
    = with_conversation
        (YMap (<["openai-ai-model" :=
                   YMap (<["chat-model" :=
                             get_or_null "chat-model" old_conversation]>
                           (<["openai-api-key" :=
                                get_or_null "openai-api-key" old_conversation]>
                              ∅))]>
                 (<["conversation-logfile" :=
                      get_or_null "conversation-logfile" old_conversation]>
                    ∅)))
        old_raw_config old_processor.
Proof.
  apply (migrate_moves_openai_settings old_raw_config old_processor
           old_conversation); reflexivity.
Defined.

(** X20. One call does not finish the migration of an old document: a
    second call on the document the first one leaves saves once more, to
    add [enable-local-llm: false] to the new conversation mapping. *)
Theorem migrate_second_call_adds_flag (raw processor conversation : gmap string yaml) :
  raw !! "processor" = Some (YMap processor) →
  processor !! "conversation" = Some (YMap conversation) →
  is_none (get_or_null "openai-api-key" conversation)
  && is_none (get_or_null "chat-model" conversation) = false →
  migrate_processor_conversation_schema (file_after (YMap raw))
  = (inr tt,
     [with_conversation
        (YMap (<["enable-local-llm" := YBool false]>
                 (<["openai-ai-model" :=
                      YMap (<["chat-model" :=
                                get_or_null "chat-model" conversation]>
                              (<["openai-api-key" :=
                                   get_or_null "openai-api-key" conversation]>
                                 ∅))]>
                    (<["conversation-logfile" :=
                         get_or_null "conversation-logfile" conversation]>
                       ∅))))
        raw processor]).
Proof.
  intros Hraw Hprocessor Hset.
  rewrite (file_after_moved raw processor conversation Hraw Hprocessor Hset).
  match goal with |- context [with_conversation (YMap ?c) raw processor] =>
    destruct (with_conversation_lookups (YMap c) raw processor)
      as (m' & pm' & -> & Hm' & Hpm' & Hsame);
    rewrite (migrate_adds_flag m' pm' c Hm' Hpm')
  end.
  - by rewrite Hsame.
  - by rewrite !lookup_insert_ne, lookup_empty by done.
  - unfold get_or_null. by rewrite !lookup_insert_ne, lookup_empty by done.
Qed.

(** X20 at work, on the old format of the module docstring. *)
Lemma migrate_second_call_adds_flag_witness :
  migrate_processor_conversation_schema (file_after (YMap old_raw_config))
  = (inr tt,
     [with_conversation
        (YMap (<["enable-local-llm" := YBool false]>
                 (<["openai-ai-model" :=
                      YMap (<["chat-model" :=
                                get_or_null "chat-model" old_conversation]>
                              (<["openai-api-key" :=
                                   get_or_null "openai-api-key"
                                     old_conversation]> ∅))]>
                    (<["conversation-logfile" :=
                         get_or_null "conversation-logfile" old_conversation]>
                       ∅))))
        old_raw_config old_processor]).
Proof.
  apply (migrate_second_call_adds_flag old_raw_config old_processor
           old_conversation); reflexivity.
Defined.

(** X21. Two calls settle every document: whatever the file holds, a
    third call saves nothing. *)
Theorem migrate_settles_after_two_calls (loaded : yaml) :
  (migrate_processor_conversation_schema (file_after (file_after loaded))).2
  = [].
Proof.
  destruct (shape_cases loaded) as [(m & pm & cm & -> & Hm & Hpm)|Hother].
  - destruct (file_after_maps m pm cm Hm Hpm) as (cm1 & -> & Hnone1 & _).
    destruct (with_conversation_lookups (YMap cm1) m pm)
      as (m1 & pm1 & -> & Hm1 & Hpm1 & _).
    destruct (file_after_maps m1 pm1 cm1 Hm1 Hpm1) as (cm2 & -> & Hnone2 & Hflag2).
    destruct (with_conversation_lookups (YMap cm2) m1 pm1)
      as (m2 & pm2 & -> & Hm2 & Hpm2 & _).
    by rewrite (migrate_settled m2 pm2 cm2 Hm2 Hpm2 (Hflag2 Hnone1) Hnone2).
  - destruct (migrate_other_shapes loaded Hother) as [Hnothing _].
    unfold file_after. rewrite Hnothing. cbn [last default].
    by rewrite Hnothing.
Qed.

(** X22. A call that raises has saved nothing, and it never raises
    [KeyError]: every subscript is guarded by a membership test. *)
Theorem migrate_raise_saves_nothing (loaded : yaml) :
  match migrate_processor_conversation_schema loaded with
  | (inl e, docs) => docs = [] ∧ e ≠ KeyError
  | (inr _, _) => True
  end.
Proof.
  destruct (shape_cases loaded) as [(m & pm & cm & -> & Hm & Hpm)|Hother].
  - by rewrite (migrate_maps m pm cm Hm Hpm).
  - destruct (migrate_other_shapes loaded Hother) as [Hnothing Herror].
    destruct (migrate_processor_conversation_schema loaded) as [[e|[]] docs];
      [|done].
    split; [done|]. intros ->. by apply Herror.
Qed.

(** X23. A call touches the conversation settings only: every document
    it saves is the loaded one with another value under
    [processor.conversation]; the other sections, and the other keys of
    [processor], are those of the loaded document. *)
Theorem migrate_touches_conversation_only (loaded : yaml) :
  Forall (λ doc, ∃ raw processor conversation,
                   loaded = YMap raw
                   ∧ raw !! "processor" = Some (YMap processor)
                   ∧ doc = with_conversation conversation raw processor)
         (migrate_processor_conversation_schema loaded).2.
Proof.
  destruct (shape_cases loaded) as [(m & pm & cm & -> & Hm & Hpm)|Hother].
  - rewrite (migrate_maps m pm cm Hm Hpm). cbn [snd].
    apply Forall_app. split.
    + destruct (decide _); constructor; [|constructor].
      by eexists m, pm, _.
    + destruct (_ && _); constructor; [|constructor].
      by eexists m, pm, _.
  - destruct (migrate_other_shapes loaded Hother) as [-> _]. constructor.
Qed.

End ConfigMigrationFacts.

Module WebClientFacts.
Import WebClient.
Local Open Scope string_scope.
Local Open Scope list_scope.

(** X24. The guard of [content_config_page] and [map_config_to_object]
    agree: the function returns a model for the content types of
    [VALID_TEXT_CONTENT_TYPES] and [None] for every other string, so the
    page never asks [None] for its objects; and two valid content types
    are stored in two models. *)
Theorem map_config_to_object_valid (content_type : string) :
  (content_type ∈ VALID_TEXT_CONTENT_TYPES
   ↔ is_Some (map_config_to_object content_type))
  ∧ ∀ other, is_Some (map_config_to_object content_type) →
             map_config_to_object other = map_config_to_object content_type →
             other = content_type.
Proof.
  unfold VALID_TEXT_CONTENT_TYPES, map_config_to_object. split.
  - rewrite !elem_of_cons, elem_of_nil.
    repeat case_decide; split; intros Hin;
      try (by eexists); try tauto.
    by destruct Hin.
  - intros other. repeat case_decide; intros Hsome Heq; subst;
      try done; by destruct Hsome.
Qed.

End WebClientFacts.
